(** * recc_cache.redis.redis_cache: a shallow embedding of [RedisCache]

    The class [RedisCache] of [recc_cache/redis/redis_cache.py] is a
    prefix-namespaced asynchronous client of a key/value store with
    publish/subscribe listeners.  This development embeds

    - the configuration reader [_get_max_connections]            (module [Config]),
    - the value operations and [clear] over a store-driver
      interface                                                   (module [KV]),
    - the listener coroutine [_subscribe_task] as a resumable
      state machine, one step per suspension point                (module [Listener]),
    - the client object with its registry, exit set and the
      coroutines [close_subscribes], [close], [wait_subscribe],
      [subscribe] under a cooperative event loop                   (module [Client]),
    - the tests of the store operations as programs on the store   (module [TestSuite]).

    Python objects are modelled as follows: [str] and [bytes] as [string],
    [Dict[str, V]] as [gmap string V], [Set[str]] as [gset string],
    [Optional[A]] as [option A], a raised exception as [Raise e]. *)

From Stdlib Require Import ZArith QArith Ascii String DecimalString List Bool Lia.
From stdpp Require Import gmap strings list fin_maps.

Open Scope string_scope.
Open Scope list_scope.
Open Scope Z_scope.

(** ** Exceptions and results *)

Inductive exn : Type :=
| ValueError
| TypeError
| OverflowError
| KeyError (key : string)
| AssertionError
| AttributeError
| RuntimeError
| NotImplementedError
| CancelledError
| TimeoutError
| OtherError (name : string).

Inductive result (A : Type) : Type :=
| Ret (a : A)
| Raise (e : exn).
Arguments Ret {A} a.
Arguments Raise {A} e.

#[global] Instance result_ret : MRet result := fun A a => Ret a.
#[global] Instance result_bind : MBind result := fun A B k r =>
  match r with
  | Ret a => k a
  | Raise e => Raise e
  end.

(** ** Python values that may be passed as keyword arguments *)

Inductive pyfloat : Type :=
| Finite (q : Q)
| Infinity (negative : bool)
| NaN.

Inductive pyvalue : Type :=
| PyNone
| PyBool (b : bool)
| PyInt (z : Z)
| PyFloat (f : pyfloat)
| PyStr (s : string)
| PyObject (type_name : string).   (* a list, a dict, ...: no integer protocol *)

Module PyInt.

(** The builtin [int(x)].  A [str] is modelled by its code points, all
    of them below 256.  [int] takes the white space beyond ASCII (code
    points 133 and 160) for blanks, strips the ASCII white space (9 to 13,
    and 32) at both ends, and reads an optional sign followed by decimal
    digits with single underscores between digits; the separators 28 to 31
    are not stripped.  A string of more than 4300 digits is refused, which
    is the default limit of the interpreter. *)

Definition is_space (c : ascii) : bool :=
  let n := nat_of_ascii c in
  ((9 <=? n) && (n <=? 13) || (n =? 32) || (n =? 133) || (n =? 160))%nat.

Definition MAX_STR_DIGITS : nat := 4300.

Definition digit_of (c : ascii) : option Z :=
  let n := nat_of_ascii c in
  if ((48 <=? n) && (n <=? 57))%nat then Some (Z.of_nat n - 48) else None.

Fixpoint lstrip (s : string) : string :=
  match s with
  | String c r => if is_space c then lstrip r else s
  | EmptyString => EmptyString
  end.

(** [digits acc after_digit s]: the value of the digit string [s];
    [after_digit] tells whether the previous character was a digit, which
    is when an underscore or the end (possibly trailing space) may come. *)
Fixpoint digits (acc : Z) (after_digit : bool) (s : string) : option Z :=
  match s with
  | EmptyString => if after_digit then Some acc else None
  | String c r =>
      match digit_of c with
      | Some d => digits (10 * acc + d) true r
      | None =>
          if negb after_digit then None
          else if Ascii.eqb c "_" then
                 match r with
                 | String c' _ =>
                     if digit_of c' is Some _ then digits acc false r else None
                 | EmptyString => None
                 end
          else if is_space c then
                 match lstrip r with EmptyString => Some acc | _ => None end
          else None
      end
  end.

Fixpoint digit_count (s : string) : nat :=
  match s with
  | EmptyString => 0%nat
  | String c r => ((if digit_of c is Some _ then 1 else 0) + digit_count r)%nat
  end.

Definition of_str (s : string) : option Z :=
  if (digit_count s <=? MAX_STR_DIGITS)%nat then
    match lstrip s with
    | String "+" r => digits 0 false r
    | String "-" r => Z.opp <$> digits 0 false r
    | t => digits 0 false t
    end
  else None.

(** Truncation toward zero of a rational. *)
Definition trunc (q : Q) : Z := Z.quot (Qnum q) (Zpos (Qden q)).

Definition int (x : pyvalue) : result Z :=
  match x with
  | PyInt z => Ret z
  | PyBool b => Ret (if b then 1 else 0)
  | PyFloat (Finite q) => Ret (trunc q)
  | PyFloat (Infinity _) => Raise OverflowError
  | PyFloat NaN => Raise ValueError
  | PyStr s => match of_str s with Some z => Ret z | None => Raise ValueError end
  | PyNone => Raise TypeError
  | PyObject _ => Raise TypeError
  end.

End PyInt.

(** ** Module constants *)

Definition DEFAULT_HOST : string := "localhost".
Definition DEFAULT_PORT : Z := 6379.
Definition DEFAULT_PW : string := "".
Definition DEFAULT_PREFIX : string := "cache:".
Definition DEFAULT_MAX_CONNECTIONS : Z := 10.
Definition EX_KEY_MAX_CONNECTIONS : string := "max_connections".
Definition EXPIRE_ACCURACY_SECONDS : Z := 1.
Definition CLEAR_SCAN_STEP : Z := 1024.

(** [dict.get(key, default)] *)
Definition dict_get {V} (d : gmap string V) (key : string) (default : V) : V :=
  match d !! key with
  | Some v => v
  | None => default
  end.

(** ** The client object *)

(** The handle built by [open]: a [Redis] client over a connection pool. *)
Record Redis : Type := {
  pool_host : string;
  pool_port : Z;
  pool_password : option string;
  pool_max_connections : Z;
}.

(** An [asyncio.Task] is referred to by its identity. *)
Abbreviation Task := nat (only parsing).

Record RedisCache : Type := {
  _host : string;
  _port : Z;
  _pw : option string;
  _prefix : string;
  _kwargs : gmap string pyvalue;
  _redis : option Redis;
  _subscribes : gmap string Task;
  _subscribes_tick : Q;
  _subscribes_exit : gset string;
  _subscribes_close_timeout : Q;
}.

Definition set_redis (r : option Redis) (self : RedisCache) : RedisCache :=
  {| _host := _host self; _port := _port self; _pw := _pw self;
     _prefix := _prefix self; _kwargs := _kwargs self;
     _redis := r;
     _subscribes := _subscribes self;
     _subscribes_tick := _subscribes_tick self;
     _subscribes_exit := _subscribes_exit self;
     _subscribes_close_timeout := _subscribes_close_timeout self |}.

Definition set_subscribes (m : gmap string Task) (self : RedisCache) : RedisCache :=
  {| _host := _host self; _port := _port self; _pw := _pw self;
     _prefix := _prefix self; _kwargs := _kwargs self;
     _redis := _redis self;
     _subscribes := m;
     _subscribes_tick := _subscribes_tick self;
     _subscribes_exit := _subscribes_exit self;
     _subscribes_close_timeout := _subscribes_close_timeout self |}.

Definition set_subscribes_exit (x : gset string) (self : RedisCache) : RedisCache :=
  {| _host := _host self; _port := _port self; _pw := _pw self;
     _prefix := _prefix self; _kwargs := _kwargs self;
     _redis := _redis self;
     _subscribes := _subscribes self;
     _subscribes_tick := _subscribes_tick self;
     _subscribes_exit := x;
     _subscribes_close_timeout := _subscribes_close_timeout self |}.

(** Truth value of an [Optional[str]]: [None] and the empty string are false. *)
Definition truthy (s : option string) : bool :=
  match s with
  | Some (String _ _) => true
  | _ => false
  end.

(** [RedisCache.__init__] *)
Definition __init__ (host : string) (port : Z) (pw prefix : option string)
    (kwargs : gmap string pyvalue) : RedisCache :=
  {| _host := host; _port := port; _pw := pw;
     _prefix := if truthy prefix then default "" prefix else "";
     _kwargs := kwargs;
     _redis := None;
     _subscribes := ∅;
     _subscribes_tick := 1%Q;
     _subscribes_exit := ∅;
     _subscribes_close_timeout := 5%Q |}.

(** ** Configuration *)

Module Config.

(** [RedisCache._get_max_connections]: [int()] of the configured value,
    the default when [int()] raises [ValueError]; any other exception
    leaves the [try] statement. *)
Definition _get_max_connections (_kwargs : gmap string pyvalue)
    (default_value : Z) : result Z :=
  match PyInt.int (dict_get _kwargs EX_KEY_MAX_CONNECTIONS (PyInt default_value)) with
  | Ret n => Ret n
  | Raise ValueError => Ret default_value
  | Raise e => Raise e
  end.

(** [RedisCache.is_open] *)
Definition is_open (self : RedisCache) : bool :=
  match _redis self with
  | Some _ => true
  | None => false
  end.

(** [str(n)] of an integer, as the f-string of line 67 formats the port. *)
Definition str_of_int (n : Z) : string := NilZero.string_of_int (Z.to_int n).

(** The URL of line 67. *)
Definition url (self : RedisCache) : string :=
  "redis://" +:+ _host self +:+ ":" +:+ str_of_int (_port self).

(** What [ConnectionPool.from_url] and [Redis] of the driver do with a URL,
    a password and a pool size is not the client's: they build a handle or
    raise (a URL that does not parse, a negative pool size, ...).  Their
    behaviour is given with the call of [open]. *)
Definition connector : Type := string -> option string -> Z -> result Redis.

(** [RedisCache.open]: the arguments are evaluated, the pool size last,
    then the driver is called, and the handle it returns is kept. *)
Definition open (from_url : connector) (self : RedisCache) : result RedisCache :=
  n ← _get_max_connections (_kwargs self) DEFAULT_MAX_CONNECTIONS;
  handle ← from_url (url self) (if truthy (_pw self) then _pw self else None) n;
  mret (set_redis (Some handle) self).

(** The property [RedisCache.redis] *)
Definition redis (self : RedisCache) : result Redis :=
  match _redis self with
  | Some r => Ret r
  | None => Raise AssertionError
  end.

End Config.


(** ** The store driver and the value operations *)

(** The commands of the store driver that the client delegates to.  The
    driver is an external collaborator: the client is written against this
    interface, and [PagedStore] below is one store that implements it.  The
    commands are given where the store answers them; an error reply (as for
    a command without arguments) or a failure of the connection is not part
    of the interface. *)
Class StoreDriver (db : Type) : Type := {
  SET : string -> string -> db -> db;
  MSET : gmap string string -> db -> db;
  GET : string -> db -> option string;
  APPEND : string -> string -> db -> db;
  EXPIRE : string -> Z -> db -> db;
  DELETE : list string -> db -> Z * db;
  EXISTS : list string -> db -> Z;
  SCAN : Z -> string -> Z -> db -> Z * list string;
  PUBLISH : string -> string -> db -> db;
}.

Module KV.
Import Config.

Section Operations.
Context {db : Type} `{StoreDriver db}.

Definition set (self : RedisCache) (key val : string) (d : db) : result db :=
  _ ← redis self;
  mret (SET (_prefix self +:+ key) val d).

(** The comprehension [{self._prefix + k: v for k, v in pairs.items()}] *)
Definition prefixed (prefix : string) (pairs : gmap string string)
    : gmap string string :=
  list_to_map ((fun kv => (prefix +:+ kv.1, kv.2)) <$> map_to_list pairs).

Definition mset (self : RedisCache) (pairs : gmap string string) (d : db)
    : result db :=
  _ ← redis self;
  mret (MSET (prefixed (_prefix self) pairs) d).

Definition get (self : RedisCache) (key : string) (d : db)
    : result (option string) :=
  _ ← redis self;
  mret (GET (_prefix self +:+ key) d).

Definition append (self : RedisCache) (key val : string) (d : db) : result db :=
  _ ← redis self;
  mret (APPEND (_prefix self +:+ key) val d).

Definition expire (self : RedisCache) (key : string) (seconds : Z) (d : db)
    : result db :=
  _ ← redis self;
  mret (EXPIRE (_prefix self +:+ key) seconds d).

Definition delete (self : RedisCache) (keys : list string) (d : db) : result db :=
  _ ← redis self;
  mret (DELETE ((fun k => _prefix self +:+ k) <$> keys) d).2.

Definition exists_ (self : RedisCache) (keys : list string) (d : db) : result Z :=
  _ ← redis self;
  mret (EXISTS ((fun k => _prefix self +:+ k) <$> keys) d).

Definition publish (self : RedisCache) (channel value : string) (d : db)
    : result db :=
  _ ← redis self;
  mret (PUBLISH channel value d).

(** [RedisCache.clear]: the [while True] loop, one scan pass per unit
    of fuel; [None] when the fuel runs out before the loop breaks. *)
Fixpoint clear (fuel : nat) (self : RedisCache) (d : db) : option (result db) :=
  match fuel with
  | O => None
  | S fuel' =>
      match redis self with
      | Raise e => Some (Raise e)
      | Ret _ =>
          let '(cursor, keys) := SCAN 0 (_prefix self +:+ "*") CLEAR_SCAN_STEP d in
          match keys with
          | _ :: _ => clear fuel' self (DELETE keys d).2
          | [] => Some (Ret d)
          end
      end
  end.

End Operations.

End KV.

(** ** A store with paged scans *)

Module PagedStore.

(** Glob-style patterns of the store: [*], [?], [[...]] with ranges and
    negation by [^], and [\] to quote the next character; a class that is
    not closed ends where the pattern ends.  The bounds of a range are
    compared as unsigned bytes. *)
Inductive glob_mode : Type :=
| Plain
| Class (negate matched : bool).

Fixpoint glob (p : string) (mode : glob_mode) (s : string) {struct p} : bool :=
  match mode with
  | Plain =>
      match p with
      | EmptyString => match s with EmptyString => true | _ => false end
      | String "*" p' =>
          (fix star (s : string) : bool :=
             glob p' Plain s ||
             match s with
             | String _ s' => star s'
             | EmptyString => false
             end) s
      | String "?" p' =>
          match s with
          | String _ s' => glob p' Plain s'
          | EmptyString => false
          end
      | String "[" (String "^" p') => glob p' (Class true false) s
      | String "[" p' => glob p' (Class false false) s
      | String "\" (String x p') =>
          match s with
          | String c s' => Ascii.eqb c x && glob p' Plain s'
          | EmptyString => false
          end
      | String x p' =>
          match s with
          | String c s' => Ascii.eqb c x && glob p' Plain s'
          | EmptyString => false
          end
      end
  | Class negate matched =>
      match s with
      | EmptyString => false
      | String c s' =>
          match p with
          | EmptyString =>
              xorb negate matched && match s' with EmptyString => true | _ => false end
          | String "]" p' => xorb negate matched && glob p' Plain s'
          | String "\" (String x p') =>
              glob p' (Class negate (matched || Ascii.eqb c x)) s
          | String lo (String "-" (String hi p')) =>
              let n := nat_of_ascii c in
              let a := Nat.min (nat_of_ascii lo) (nat_of_ascii hi) in
              let b := Nat.max (nat_of_ascii lo) (nat_of_ascii hi) in
              glob p' (Class negate (matched || (a <=? n)%nat && (n <=? b)%nat)) s
          | String x p' =>
              glob p' (Class negate (matched || Ascii.eqb c x)) s
          end
      end
  end.

(** The match of a scan: the pattern [*] alone matches every key; on an
    empty key the matcher does not look at the pattern at all, and only an
    empty pattern is left to match it. *)
Definition glob_match (pattern key : string) : bool :=
  match pattern, key with
  | String "*" EmptyString, _ => true
  | EmptyString, EmptyString => true
  | _, EmptyString => false
  | _, _ => glob pattern Plain key
  end.

(** A pattern character with a special meaning, and the prefixes that
    contain none. *)
Definition is_meta (c : ascii) : bool :=
  Ascii.eqb c "*" || Ascii.eqb c "?" || Ascii.eqb c "[" || Ascii.eqb c "\".

Fixpoint literal (p : string) : bool :=
  match p with
  | EmptyString => true
  | String c p' => negb (is_meta c) && literal p'
  end.

(** The keyspace: one slot per key, in the order a scan visits them. *)
Record slot : Type := {
  slot_key : string;
  slot_val : string;
  slot_ttl : option Z;
}.

Definition keyspace : Type := list slot.

Definition has_key (k : string) (e : slot) : bool := String.eqb (slot_key e) k.

Definition present (k : string) (d : keyspace) : bool := existsb (has_key k) d.

Definition store_get (k : string) (d : keyspace) : option string :=
  slot_val <$> List.find (has_key k) d.

Definition store_put (k v : string) (ttl : option Z) (d : keyspace) : keyspace :=
  if present k d
  then (fun e => if has_key k e
                 then {| slot_key := k; slot_val := v; slot_ttl := ttl |}
                 else e) <$> d
  else (d ++ [{| slot_key := k; slot_val := v; slot_ttl := ttl |}])%list.

Definition store_set (k v : string) (d : keyspace) : keyspace :=
  store_put k v None d.

Definition store_mset (m : gmap string string) (d : keyspace) : keyspace :=
  foldr (fun kv acc => store_set kv.1 kv.2 acc) d (map_to_list m).

Definition store_append (k v : string) (d : keyspace) : keyspace :=
  match List.find (has_key k) d with
  | Some e => store_put k (slot_val e +:+ v) (slot_ttl e) d
  | None => store_put k v None d
  end.

Definition store_remove (k : string) (d : keyspace) : keyspace :=
  List.filter (fun e => negb (has_key k e)) d.

Definition store_expire (k : string) (seconds : Z) (d : keyspace) : keyspace :=
  match List.find (has_key k) d with
  | Some e => if seconds <=? 0 then store_remove k d
              else store_put k (slot_val e) (Some seconds) d
  | None => d
  end.

(** [DEL], [EXISTS] and [MSET] are the commands for the arguments the
    server accepts: one key or more, one pair or more. *)
Fixpoint store_delete (keys : list string) (d : keyspace) : Z * keyspace :=
  match keys with
  | [] => (0, d)
  | k :: ks =>
      if present k d
      then let '(n, d') := store_delete ks (store_remove k d) in (1 + n, d')
      else store_delete ks d
  end.

Definition store_exists (keys : list string) (d : keyspace) : Z :=
  Z.of_nat (length (List.filter (fun k => present k d) keys)).

(** One scan pass, as the documentation of the store's SCAN has it:
    [count] bounds the work of one call, so [count] slots are visited from
    [cursor] on; the pattern is applied to the keys retrieved, so a pass may
    return no key while keys that match lie further on; the next cursor is
    [0] once the keyspace has been walked through. *)
Definition store_scan (cursor : Z) (pattern : string) (count : Z) (d : keyspace)
    : Z * list string :=
  let visited := take (Z.to_nat count) (drop (Z.to_nat cursor) d) in
  let next := cursor + count in
  (if next <? Z.of_nat (length d) then next else 0,
   List.filter (glob_match pattern) (slot_key <$> visited)).

#[global] Instance paged_store : StoreDriver keyspace := {
  SET := store_set;
  MSET := store_mset;
  GET := store_get;
  APPEND := store_append;
  EXPIRE := store_expire;
  DELETE := store_delete;
  EXISTS := store_exists;
  SCAN := store_scan;
  PUBLISH := fun _ _ d => d;
}.

End PagedStore.

(** ** The listener coroutine *)

Module Listener.

(** The message record handed to callbacks. *)
Record Message : Type := {
  msg_type : string;
  msg_channel : string;
  msg_pattern : option string;
  msg_data : string;
}.

#[global] Instance exn_eq_dec : EqDecision exn.
Proof. solve_decision. Defined.

#[global] Instance Message_eq_dec : EqDecision Message.
Proof. solve_decision. Defined.

(** What [inspect] says of a callback: [iscoroutinefunction] holds,
    or else [isfunction] holds, or neither does. *)
Inductive callback_kind : Type :=
| CoroutineFunction
| PlainFunction
| NotAFunction.

(** A callback, with what invoking it on a message does: [None] when it
    returns, [Some e] when it raises [e]; and with what a coroutine callback
    does when [CancelledError] is thrown into it while it is awaited:
    [None] when it lets the error through, [Some r] when it catches it and
    then ends as [r] says, returning or raising. *)
Record Callback : Type := {
  cb_kind : callback_kind;
  cb_outcome : Message -> option exn;
  cb_cancelled : Message -> option (option exn);
}.

(** What a listener does, in order. *)
Inductive event : Type :=
| EvGetMessage (timeout : Q) (message : option Message)
| EvCall (m : Message)
| EvDone (m : Message) (raised : option exn)
| EvExit.

Inductive outcome : Type :=
| Returned
| Failed (e : exn)
| Cancelled.

(** The suspension points of [_subscribe_task]. *)
Inductive pc : Type :=
| MainPoll                      (* line 143: await channel.get_message(..., timeout) *)
| MainCallback (m : Message)    (* line 149: await callback(message) *)
| FlushPoll                     (* line 160: await channel.get_message(...) *)
| FlushCallback (m : Message)   (* line 163: await callback(message) *)
| Done (o : outcome).

Record Listener : Type := {
  l_key : string;               (* key *)
  l_channel : list Message;     (* channel: messages received and not yet fetched *)
  l_callback : Callback;        (* callback *)
  l_flush : bool;               (* flush_remain_messages *)
  l_pc : pc;
  l_must_cancel : bool;         (* Task.cancel() was called *)
  l_trace : list event;
}.

Definition set_pc (p : pc) (l : Listener) : Listener :=
  {| l_key := l_key l; l_channel := l_channel l; l_callback := l_callback l;
     l_flush := l_flush l; l_pc := p; l_must_cancel := l_must_cancel l;
     l_trace := l_trace l |}.

Definition set_channel (c : list Message) (l : Listener) : Listener :=
  {| l_key := l_key l; l_channel := c; l_callback := l_callback l;
     l_flush := l_flush l; l_pc := l_pc l; l_must_cancel := l_must_cancel l;
     l_trace := l_trace l |}.

Definition set_must_cancel (b : bool) (l : Listener) : Listener :=
  {| l_key := l_key l; l_channel := l_channel l; l_callback := l_callback l;
     l_flush := l_flush l; l_pc := l_pc l; l_must_cancel := b;
     l_trace := l_trace l |}.

Definition log (es : list event) (l : Listener) : Listener :=
  {| l_key := l_key l; l_channel := l_channel l; l_callback := l_callback l;
     l_flush := l_flush l; l_pc := l_pc l; l_must_cancel := l_must_cancel l;
     l_trace := l_trace l ++ es |}.

(** [create_task(self._subscribe_task(channel, pub_sub, callback))]: the
    coroutine waits in its first [get_message]. *)
Definition spawn (key : string) (callback : Callback) (flush : bool) : Listener :=
  {| l_key := key; l_channel := []; l_callback := callback; l_flush := flush;
     l_pc := MainPoll; l_must_cancel := false; l_trace := [] |}.

(** [channel.get_message(ignore_subscribe_messages=True, timeout)] when
    the driver answers: the oldest unread message, [None] when there is
    none.  That the driver raises instead is the action [Break] below. *)
Definition get_message (timeout : Q) (l : Listener) : option Message * Listener :=
  match l_channel l with
  | m :: rest => (Some m, log [EvGetMessage timeout (Some m)] (set_channel rest l))
  | [] => (None, log [EvGetMessage timeout None] l)
  end.

(** Lines 148-153 and 162-167: the dispatch on the kind of callback. *)
Inductive invoked : Type :=
| Awaiting
| Completed
| Threw (e : exn).

Definition invoke (m : Message) (l : Listener) : invoked * Listener :=
  match cb_kind (l_callback l) with
  | CoroutineFunction => (Awaiting, log [EvCall m] l)
  | PlainFunction =>
      match cb_outcome (l_callback l) m with
      | None => (Completed, log [EvCall m; EvDone m None] l)
      | Some e => (Threw e, log [EvCall m; EvDone m (Some e)] l)
      end
  | NotAFunction => (Threw NotImplementedError, l)
  end.

(** The coroutine being awaited at line 149 or 163 has finished. *)
Definition callback_done (m : Message) (l : Listener) : invoked * Listener :=
  match cb_outcome (l_callback l) m with
  | None => (Completed, log [EvDone m None] l)
  | Some e => (Threw e, log [EvDone m (Some e)] l)
  end.

(** The coroutine being awaited at line 149 or 163 caught the
    [CancelledError] thrown into it and has ended as [r] says. *)
Definition callback_caught (r : option exn) (m : Message) (l : Listener)
    : invoked * Listener :=
  match r with
  | None => (Completed, log [EvDone m None] l)
  | Some e => (Threw e, log [EvDone m (Some e)] l)
  end.

(** Line 159: [while flush_remain_messages], up to the [await] of line 160. *)
Definition flush_loop (l : Listener) : Listener :=
  if l_flush l then set_pc FlushPoll l else set_pc (Done Returned) l.

(** Lines 155-157: the checkpoint of the consume loop. *)
Definition checkpoint (exit : gset string) (l : Listener) : Listener * gset string :=
  if bool_decide (l_key l ∈ exit)
  then (flush_loop (log [EvExit] l), exit ∖ {[l_key l]})
  else (set_pc MainPoll l, exit).

(** The consume loop from line 147 on, given what line 143 returned. *)
Definition main_after (r : invoked * Listener) (m : Message) (exit : gset string)
    : Listener * gset string :=
  match r with
  | (Awaiting, l) => (set_pc (MainCallback m) l, exit)
  | (Completed, l) => checkpoint exit l
  | (Threw e, l) => (set_pc (Done (Failed e)) l, exit)
  end.

Definition main_message (message : option Message) (exit : gset string)
    (l : Listener) : Listener * gset string :=
  match message with
  | Some m => main_after (invoke m l) m exit
  | None => checkpoint exit l
  end.

(** The drain loop from line 161 on, given what line 160 returned. *)
Definition flush_after (r : invoked * Listener) (m : Message) : Listener :=
  match r with
  | (Awaiting, l) => set_pc (FlushCallback m) l
  | (Completed, l) => flush_loop l
  | (Threw e, l) => set_pc (Done (Failed e)) l
  end.

Definition flush_message (message : option Message) (l : Listener) : Listener :=
  match message with
  | Some m => flush_after (invoke m l) m
  | None => set_pc (Done Returned) l
  end.

(** The event loop resumes the task: it runs from its suspension point
    to the next one.  A task whose cancellation was requested receives
    [CancelledError] at its suspension point: in [get_message] the error
    goes through and the task ends cancelled; in an awaited callback it is
    thrown into the callback, and the task ends cancelled unless the
    callback catches it, in which case the request is spent and the loop
    goes on from the end of the callback. *)
Definition resume (tick : Q) (exit : gset string) (l : Listener)
    : Listener * gset string :=
  match l_pc l with
  | Done _ => (l, exit)
  | p =>
      if l_must_cancel l then
        match p with
        | MainCallback m =>
            match cb_cancelled (l_callback l) m with
            | Some r => main_after (callback_caught r m (set_must_cancel false l)) m exit
            | None => (set_pc (Done Cancelled) l, exit)
            end
        | FlushCallback m =>
            match cb_cancelled (l_callback l) m with
            | Some r => (flush_after (callback_caught r m (set_must_cancel false l)) m, exit)
            | None => (set_pc (Done Cancelled) l, exit)
            end
        | _ => (set_pc (Done Cancelled) l, exit)
        end
      else
        match p with
        | MainPoll =>
            let '(message, l') := get_message tick l in
            main_message message exit l'
        | MainCallback m => main_after (callback_done m l) m exit
        | FlushPoll =>
            let '(message, l') := get_message 0%Q l in
            (flush_message message l', exit)
        | FlushCallback m => (flush_after (callback_done m l) m, exit)
        | Done _ => (l, exit)
        end
  end.

(** [Task.cancel()] *)
Definition cancel (l : Listener) : bool * Listener :=
  match l_pc l with
  | Done _ => (false, l)
  | _ => (true, set_must_cancel true l)
  end.

(** Whether a [CancelledError] thrown into the task where it is suspended
    leaves the coroutine: always from [get_message], and from an awaited
    callback when the callback does not catch it. *)
Definition propagates_cancel (l : Listener) : bool :=
  match l_pc l with
  | MainCallback m | FlushCallback m =>
      if cb_cancelled (l_callback l) m is None then true else false
  | _ => true
  end.

(** [Task.done()] *)
Definition done (l : Listener) : bool :=
  match l_pc l with
  | Done _ => true
  | _ => false
  end.

(** A message arrives on the PubSub handle. *)
Definition arrive (m : Message) (l : Listener) : Listener :=
  set_channel (l_channel l ++ [m]) l.

(** The event loop resumes a task suspended in [get_message] (line 143 or
    160) because the driver raises [e] there: the exception leaves the
    coroutine and the task has failed, unless its cancellation was
    requested.  A task suspended elsewhere is not concerned. *)
Definition break (e : exn) (l : Listener) : Listener :=
  match l_pc l with
  | MainPoll | FlushPoll =>
      if l_must_cancel l then set_pc (Done Cancelled) l
      else set_pc (Done (Failed e)) l
  | _ => l
  end.

(** *** One listener and its environment *)

Inductive action : Type :=
| Arrive (m : Message)            (* the store pushes a message *)
| Resume                          (* the event loop runs the task *)
| Cancel                          (* somebody calls Task.cancel() *)
| SetExit (exit : gset string)    (* somebody changes the exit set *)
| Break (e : exn).                (* get_message raises in the driver *)

Definition step (tick : Q) (st : Listener * gset string) (a : action)
    : Listener * gset string :=
  match a with
  | Arrive m => (arrive m st.1, st.2)
  | Resume => resume tick st.2 st.1
  | Cancel => ((cancel st.1).2, st.2)
  | SetExit exit => (st.1, exit)
  | Break e => (break e st.1, st.2)
  end.

Definition run (tick : Q) (acts : list action) (st : Listener * gset string)
    : Listener * gset string :=
  fold_left (step tick) acts st.

Definition arrivals (acts : list action) : list Message :=
  omap (fun a => match a with Arrive m => Some m | _ => None end) acts.

(** *** Reading a trace *)

Definition delivered (tr : list event) : list Message :=
  omap (fun e => match e with EvCall m => Some m | _ => None end) tr.

Definition fetched (tr : list event) : list Message :=
  omap (fun e => match e with EvGetMessage _ (Some m) => Some m | _ => None end) tr.

(** The monitor of single-flight delivery: a fetch is legal only when no
    invocation is pending, an invocation only of the message just fetched,
    a completion only of the invocation in flight. *)
Inductive flight : Type :=
| Idle
| Fetched (m : Message)
| InFlight (m : Message)
| Violation.

Definition monitor_step (f : flight) (e : event) : flight :=
  match f, e with
  | Idle, EvGetMessage _ None => Idle
  | Idle, EvGetMessage _ (Some m) => Fetched m
  | Idle, EvExit => Idle
  | Fetched m, EvCall m' => if bool_decide (m = m') then InFlight m else Violation
  | InFlight m, EvDone m' _ => if bool_decide (m = m') then Idle else Violation
  | _, _ => Violation
  end.

Definition monitor (tr : list event) : flight := fold_left monitor_step tr Idle.

Definition single_flight (tr : list event) : bool :=
  match monitor tr with
  | Violation => false
  | _ => true
  end.

(** The message fetched and not yet handed to the callback. *)
Definition pending (f : flight) : list Message :=
  match f with
  | Fetched m => [m]
  | _ => []
  end.

(** How the suspension point of a listener and its trace fit together. *)
Definition consistent (l : Listener) : Prop :=
  match l_pc l with
  | MainPoll | FlushPoll | Done Returned => monitor (l_trace l) = Idle
  | MainCallback m | FlushCallback m => monitor (l_trace l) = InFlight m
  | Done (Failed _) => monitor (l_trace l) = Idle \/ exists m, monitor (l_trace l) = Fetched m
  | Done Cancelled => monitor (l_trace l) = Idle \/ exists m, monitor (l_trace l) = InFlight m
  end.

(** The invariant of a listener among the actions of its environment:
    its trace is single-flight, the messages it fetched are those it
    invoked the callback on, followed by the one just fetched if any, and
    the messages that arrived are those it fetched followed by the unread
    ones. *)
Definition listener_inv (received : list Message) (l : Listener) : Prop :=
  consistent l /\
  fetched (l_trace l) = delivered (l_trace l) ++ pending (monitor (l_trace l)) /\
  received = fetched (l_trace l) ++ l_channel l.

(** The invariant of a listener whose callback is of no supported kind:
    the callback is never invoked, and the task has failed as soon as a
    message has been fetched. *)
Definition never_invoked (l : Listener) : Prop :=
  cb_kind (l_callback l) = NotAFunction /\
  delivered (l_trace l) = [] /\
  (fetched (l_trace l) = [] \/ l_pc l = Done (Failed NotImplementedError)) /\
  match l_pc l with
  | MainCallback _ | FlushCallback _ => False
  | _ => True
  end.

(** The messages a listener has still to hand to its callback when it is
    suspended in the consume loop: the one in flight, then the unread ones. *)
Definition outstanding (l : Listener) : list Message :=
  match l_pc l with
  | MainCallback m | FlushCallback m => m :: l_channel l
  | _ => l_channel l
  end.

(** The events that end the iteration of the consume loop in which the
    listener is suspended, and the messages left unread after it. *)
Definition finish_iteration (tick : Q) (l : Listener) : list event * list Message :=
  match l_pc l, l_channel l with
  | MainCallback m, c => ([EvDone m None], c)
  | _, m :: rest => ([EvGetMessage tick (Some m); EvCall m; EvDone m None], rest)
  | _, [] => ([EvGetMessage tick None], [])
  end.

(** The messages on which the callback was invoked and has returned. *)
Definition completed (tr : list event) : list Message :=
  omap (fun e => match e with EvDone m None => Some m | _ => None end) tr.

(** The events of delivering [msgs] one by one from fetches with the
    given timeout, every invocation returning. *)
Definition deliveries (timeout : Q) (msgs : list Message) : list event :=
  msgs ≫= (fun m => [EvGetMessage timeout (Some m); EvCall m; EvDone m None]).

End Listener.

(** ** The client under the event loop *)

Module Client.
Import Config Listener.

(** The timeout of line 77.  It is armed with its deadline.  When it
    fires it cancels the coroutine that waits in line 79, which hands the
    request to the awaited task if that task is pending ([Fired]); if the
    awaited task is done, [CancelledError] is thrown into the waiting
    coroutine at its next resumption ([Thrown]). *)
Inductive timer : Type :=
| Armed (deadline : Q)
| Fired
| Thrown.

(** The state of [close_subscribes]: suspended in [await task] of line 79
    with the position of the iteration over [self._subscribes.values()]
    (the keys still to visit and the size of the dictionary when the
    iteration began) and the state of the timeout, or finished. *)
Inductive shutdown : Type :=
| AwaitTask (rest : list string) (size0 : nat) (t : Task) (tm : timer)
| Ended (r : result unit).

(** The suspension points of the coroutines of the client. *)
Inductive frame : Type :=
| InCloseSubscribes (rest : list string) (size0 : nat) (t : Task) (tm : timer)
                    (closing : bool)     (* line 79; [closing]: called at line 89 *)
| InRedisClose                           (* line 91: await self._redis.close() *)
| InWaitSubscribe (t : Task)             (* line 188: await self._subscribes[channel] *)
| InSubscribe (channel : string) (callback : Callback)
                                         (* line 192: await pub_sub.subscribe(channel) *)
| Finished (r : result unit).

Record World : Type := {
  self : RedisCache;
  tasks : list Listener;      (* the Task objects created so far, by identity *)
  callers : list frame;       (* the coroutines of the client started so far *)
  now : Q;                    (* the clock of the event loop *)
  released : list Redis;      (* the handles whose close() was called *)
}.

Definition set_self (c : RedisCache) (w : World) : World :=
  {| self := c; tasks := tasks w; callers := callers w; now := now w;
     released := released w |}.

Definition set_tasks (ts : list Listener) (w : World) : World :=
  {| self := self w; tasks := ts; callers := callers w; now := now w;
     released := released w |}.

Definition set_callers (cs : list frame) (w : World) : World :=
  {| self := self w; tasks := tasks w; callers := cs; now := now w;
     released := released w |}.

Definition set_now (t : Q) (w : World) : World :=
  {| self := self w; tasks := tasks w; callers := callers w; now := t;
     released := released w |}.

Definition set_released (rs : list Redis) (w : World) : World :=
  {| self := self w; tasks := tasks w; callers := callers w; now := now w;
     released := rs |}.

Definition init (c : RedisCache) : World :=
  {| self := c; tasks := []; callers := []; now := 0%Q; released := [] |}.

(** What [await task] yields: [None] while the task is pending. *)
Definition task_result (w : World) (t : Task) : option (result unit) :=
  match tasks w !! t with
  | Some l =>
      match l_pc l with
      | Done Returned => Some (Ret tt)
      | Done (Failed e) => Some (Raise e)
      | Done Cancelled => Some (Raise CancelledError)
      | _ => None
      end
  | None => None
  end.

(** [task.cancel()] on the task [t] *)
Definition cancel_task (t : Task) (w : World) : bool * World :=
  match tasks w !! t with
  | Some l => let '(b, l') := cancel l in (b, set_tasks (<[t := l']> (tasks w)) w)
  | None => (false, w)
  end.

(** *** Synchronous methods *)

(** The keys of the registry, each once; they are listed in the order of
    the finite map, not in the order of insertion of the [dict]. *)
Definition get_subscribe_channels (w : World) : list string :=
  (map_to_list (_subscribes (self w))).*1.

Definition get_subscribe_task (channel : string) (w : World) : result Task * World :=
  match _subscribes (self w) !! channel with
  | Some t => (Ret t, w)
  | None => (Raise (KeyError channel), w)
  end.

Definition cancel_subscribe_task (channel : string) (w : World) : result bool * World :=
  match _subscribes (self w) !! channel with
  | Some t => let '(b, w') := cancel_task t w in (Ret b, w')
  | None => (Raise (KeyError channel), w)
  end.

Definition exit_flag_subscribe (channel : string) (w : World) : World :=
  set_self (set_subscribes_exit (_subscribes_exit (self w) ∪ {[channel]}) (self w)) w.

(** Lines 75-76 and 184-185: every registered channel is flagged. *)
Definition exit_flag_subscribes (w : World) : World :=
  set_self (set_subscribes_exit
              (_subscribes_exit (self w) ∪ dom (_subscribes (self w))) (self w)) w.

Definition open (from_url : connector) (w : World) : result unit * World :=
  match Config.open from_url (self w) with
  | Ret c => (Ret tt, set_self c w)
  | Raise e => (Raise e, w)
  end.

(** *** close_subscribes *)

(** Line 77, [__aexit__] of the timeout: once it has fired, a
    [CancelledError] that leaves the block is turned into [TimeoutError];
    anything else leaves the block as it is. *)
Definition timeout_exit (tm : timer) (r : result unit) : result unit :=
  match tm, r with
  | Armed _, _ => r
  | _, Raise CancelledError => Raise TimeoutError
  | _, _ => r
  end.

(** Lines 78-79, from the [next] of the iterator on: the tasks that are
    done are awaited without suspending; the iterator raises when the
    dictionary changed under it. *)
Fixpoint await_tasks (w : World) (size0 : nat) (tm : timer) (rest : list string)
    : shutdown :=
  if bool_decide (size (_subscribes (self w)) = size0) then
    match rest with
    | [] => Ended (Ret tt)
    | k :: rest' =>
        match _subscribes (self w) !! k with
        | Some t =>
            match task_result w t with
            | None => AwaitTask rest' size0 t tm
            | Some (Ret _) => await_tasks w size0 tm rest'
            | Some (Raise e) => Ended (timeout_exit tm (Raise e))
            end
        | None => Ended (Raise RuntimeError)
        end
    end
  else Ended (Raise RuntimeError).

(** Lines 81-82: every registered task is cancelled. *)
Definition cancel_all (w : World) : World :=
  foldr (fun kt w' => (cancel_task kt.2 w').2) w (map_to_list (_subscribes (self w))).

(** Lines 84-85: the [finally] clause. *)
Definition finally_clear (w : World) : World :=
  set_self (set_subscribes_exit ∅ (set_subscribes ∅ (self w))) w.

(** Lines 80-85: how the [try] statement is left with the result [r] of
    its body. *)
Definition leave_try (r : result unit) (w : World) : World * shutdown :=
  match r with
  | Raise TimeoutError => (finally_clear (cancel_all w), Ended (Ret tt))
  | _ => (finally_clear w, Ended r)
  end.

Definition shutdown_continue (w : World) (s : shutdown) : World * shutdown :=
  match s with
  | AwaitTask _ _ _ _ => (w, s)
  | Ended r => leave_try r w
  end.

(** The call of [close_subscribes] up to its first suspension. *)
Definition close_subscribes_begin (w : World) : World * shutdown :=
  let w1 := exit_flag_subscribes w in
  let deadline := Qplus (now w1) (_subscribes_close_timeout (self w1)) in
  shutdown_continue w1
    (await_tasks w1 (size (_subscribes (self w1))) (Armed deadline)
       (get_subscribe_channels w1)).

(** The event loop resumes the coroutine suspended in line 79.  With a
    cancellation of its own to deliver, [CancelledError] is thrown into
    it, which the timeout turns into [TimeoutError].  Otherwise nothing
    happens while the awaited task [t] is pending, and line 79 returns or
    raises what [t] ended with once it is done. *)
Definition close_subscribes_wake (w : World) (rest : list string) (size0 : nat)
    (t : Task) (tm : timer) : World * shutdown :=
  match tm with
  | Thrown => leave_try (Raise TimeoutError) w
  | _ =>
      match task_result w t with
      | None => (w, AwaitTask rest size0 t tm)
      | Some (Ret _) => shutdown_continue w (await_tasks w size0 tm rest)
      | Some (Raise e) => leave_try (timeout_exit tm (Raise e)) w
      end
  end.

(** The timeout fires while [t] is awaited: the waiting coroutine is
    cancelled, which calls [t.cancel()]; the coroutine stays suspended in
    line 79 until the loop resumes it. *)
Definition close_subscribes_timeout (w : World) (rest : list string) (size0 : nat)
    (t : Task) : World * shutdown :=
  let '(b, w') := cancel_task t w in
  (w', AwaitTask rest size0 t (if b then Fired else Thrown)).

(** *** close *)

(** Lines 90-91, once [close_subscribes] has returned. *)
Definition close_after (w : World) (r : result unit) : World * frame :=
  match r with
  | Raise e => (w, Finished (Raise e))
  | Ret _ =>
      if bool_decide (size (_subscribes (self w)) = 0%nat) then
        match _redis (self w) with
        | Some conn => (set_released (released w ++ [conn]) w, InRedisClose)
        | None => (w, Finished (Raise AttributeError))
        end
      else (w, Finished (Raise AssertionError))
  end.

(** How a call of [close_subscribes] goes on in its caller. *)
Definition after_shutdown (closing : bool) (ws : World * shutdown) : World * frame :=
  match ws with
  | (w, AwaitTask rest size0 t tm) =>
      (w, InCloseSubscribes rest size0 t tm closing)
  | (w, Ended r) => if closing then close_after w r else (w, Finished r)
  end.

Definition close_begin (w : World) : World * frame :=
  match _redis (self w) with
  | Some _ => after_shutdown true (close_subscribes_begin w)
  | None => (w, Finished (Raise AssertionError))
  end.

(** Line 92, once the store connection is released. *)
Definition close_finish (w : World) : World * frame :=
  (set_self (set_redis None (self w)) w, Finished (Ret tt)).

(** *** wait_subscribe and subscribe *)

Definition wait_result (w : World) (t : Task) : frame :=
  match task_result w t with
  | Some r => Finished r
  | None => InWaitSubscribe t
  end.

Definition wait_subscribe_begin (channel : string) (w : World) : World * frame :=
  match _subscribes (self w) !! channel with
  | Some t => (w, wait_result w t)
  | None => (w, Finished (Raise (KeyError channel)))
  end.

Definition subscribe_begin (channel : string) (callback : Callback) (w : World)
    : World * frame :=
  match redis (self w) with
  | Ret _ => (w, InSubscribe channel callback)
  | Raise e => (w, Finished (Raise e))
  end.

(** Lines 193-195: the task is created and registered. *)
Definition subscribe_finish (channel : string) (callback : Callback) (w : World)
    : World * frame :=
  let t := length (tasks w) in
  (set_self (set_subscribes (<[channel := t]> (_subscribes (self w))) (self w))
     (set_tasks (tasks w ++ [spawn channel callback true]) w),
   Finished (Ret tt)).

(** *** The event loop *)

Inductive call : Type :=
| CallOpen (from_url : connector)
| CallGetSubscribeChannels
| CallGetSubscribeTask (channel : string)
| CallCancelSubscribeTask (channel : string)
| CallExitFlagSubscribe (channel : string)
| CallExitFlagSubscribes.

Inductive coroutine : Type :=
| CloseSubscribes
| Close
| WaitSubscribe (channel : string)
| Subscribe (channel : string) (callback : Callback).

Inductive action : Type :=
| Advance (d : Q)                    (* time passes *)
| Arrive (t : Task) (m : Message)    (* the store pushes a message to a handle *)
| Run (t : Task)                     (* the loop resumes a listener task *)
| Call (c : call)                    (* a synchronous method is called *)
| Start (c : coroutine)              (* a coroutine of the client is started *)
| Wake (i : nat)                     (* the loop resumes a coroutine of the client *)
| Timer (i : nat)                    (* the timeout of a coroutine fires *)
| Break (t : Task) (e : exn).        (* get_message raises in the driver *)

Definition do_call (c : call) (w : World) : World :=
  match c with
  | CallOpen from_url => (open from_url w).2
  | CallGetSubscribeChannels => w
  | CallGetSubscribeTask channel => (get_subscribe_task channel w).2
  | CallCancelSubscribeTask channel => (cancel_subscribe_task channel w).2
  | CallExitFlagSubscribe channel => exit_flag_subscribe channel w
  | CallExitFlagSubscribes => exit_flag_subscribes w
  end.

Definition start (c : coroutine) (w : World) : World * frame :=
  match c with
  | CloseSubscribes => after_shutdown false (close_subscribes_begin w)
  | Close => close_begin w
  | WaitSubscribe channel => wait_subscribe_begin channel w
  | Subscribe channel callback => subscribe_begin channel callback w
  end.

Definition wake (f : frame) (w : World) : World * frame :=
  match f with
  | InCloseSubscribes rest size0 t tm closing =>
      after_shutdown closing (close_subscribes_wake w rest size0 t tm)
  | InRedisClose => close_finish w
  | InWaitSubscribe t => (w, wait_result w t)
  | InSubscribe channel callback => subscribe_finish channel callback w
  | Finished r => (w, f)
  end.

Definition fire (f : frame) (w : World) : World * frame :=
  match f with
  | InCloseSubscribes rest size0 t (Armed deadline) closing =>
      if Qle_bool deadline (now w)
      then after_shutdown closing (close_subscribes_timeout w rest size0 t)
      else (w, f)
  | _ => (w, f)
  end.

Definition run_task (t : Task) (w : World) : World :=
  match tasks w !! t with
  | Some l =>
      let '(l', exit) := resume (_subscribes_tick (self w)) (_subscribes_exit (self w)) l in
      set_self (set_subscribes_exit exit (self w)) (set_tasks (<[t := l']> (tasks w)) w)
  | None => w
  end.

Definition resume_caller (k : frame -> World -> World * frame) (i : nat) (w : World)
    : World :=
  match callers w !! i with
  | Some f => let '(w', f') := k f w in set_callers (<[i := f']> (callers w')) w'
  | None => w
  end.

Definition step (w : World) (a : action) : World :=
  match a with
  | Advance d => if Qle_bool 0 d then set_now (Qplus (now w) d) w else w
  | Arrive t m =>
      match tasks w !! t with
      | Some l => set_tasks (<[t := arrive m l]> (tasks w)) w
      | None => w
      end
  | Run t => run_task t w
  | Call c => do_call c w
  | Start c => let '(w', f) := start c w in set_callers (callers w' ++ [f]) w'
  | Wake i => resume_caller wake i w
  | Timer i => resume_caller fire i w
  | Break t e =>
      match tasks w !! t with
      | Some l => set_tasks (<[t := break e l]> (tasks w)) w
      | None => w
      end
  end.

Definition run (acts : list action) (w : World) : World := fold_left step acts w.

(** An action that executes the [finally] clause of [close_subscribes]. *)
Definition shuts_down (w : World) (a : action) : Prop :=
  match a with
  | Start CloseSubscribes | Start Close => True
  | Wake i =>
      match callers w !! i with
      | Some (InCloseSubscribes _ _ _ _ _) => True
      | _ => False
      end
  | _ => False
  end.

(** The outcomes of the steps of [close_subscribes] in the world [w]:
    its call, its resumption by the event loop, and the firing of its
    timeout. *)
Definition shutdown_step (w : World) (ws : World * shutdown) : Prop :=
  ws = close_subscribes_begin w \/
  (exists rest size0 t tm, ws = close_subscribes_wake w rest size0 t tm) \/
  (exists rest size0 t, ws = close_subscribes_timeout w rest size0 t).

(** The registry and the exit set are empty. *)
Definition cleared (w : World) : Prop :=
  _subscribes (self w) = ∅ /\ _subscribes_exit (self w) = ∅.

(** Every registered task is a task of the world. *)
Definition registry_valid (w : World) : Prop :=
  forall k t, _subscribes (self w) !! k = Some t -> (t < length (tasks w))%nat.

(** [l'] is [l] after some actions of the listener and of its
    environment; a task descends from the listener that [subscribe]
    spawned; and the tasks of a world after a step come from its tasks
    before, or were spawned. *)
Definition evolves (tick : Q) (l l' : Listener) : Prop :=
  exists exit acts, l' = (Listener.run tick acts (l, exit)).1.

Definition descends (tick : Q) (l' : Listener) : Prop :=
  exists key callback, evolves tick (spawn key callback true) l'.

Definition tasks_evolve (tick : Q) (ts ts' : list Listener) : Prop :=
  forall t l', ts' !! t = Some l' ->
    (exists l, ts !! t = Some l /\ evolves tick l l') \/ descends tick l'.


(** The task is done, or its cancellation has been requested. *)
Definition stopped (w : World) (t : Task) : Prop :=
  match tasks w !! t with
  | Some l => done l = true \/ l_must_cancel l = true
  | None => False
  end.

End Client.

(** ** The life of a listener *)

Module Lifecycle.
Import Listener.

(** The key of the listener was in the exit set at some time of the run:
    at its start, or put there by the environment. *)
Definition flagged (key : string) (exit0 : gset string) (acts : list action) : Prop :=
  key ∈ exit0 \/ exists exit, SetExit exit ∈ acts /\ key ∈ exit.

(** Why a listener is where it is. *)
Definition cause (callback : Callback) (acts : list action) (l : Listener) : Prop :=
  match l_pc l with
  | MainPoll | MainCallback _ => EvExit ∉ l_trace l
  | FlushPoll | FlushCallback _ => EvExit ∈ l_trace l /\ l_flush l = true
  | Done Returned => EvExit ∈ l_trace l
  | Done Cancelled => Cancel ∈ acts
  | Done (Failed e) =>
      (cb_kind callback = NotAFunction /\ e = NotImplementedError) \/
      (exists m, EvDone m (Some e) ∈ l_trace l /\
         (cb_outcome callback m = Some e \/
          (Cancel ∈ acts /\ cb_cancelled callback m = Some (Some e)))) \/
      Break e ∈ acts
  end.

Definition lifecycle_inv (key : string) (callback : Callback) (exit0 : gset string)
    (acts : list action) (st : Listener * gset string) : Prop :=
  l_key st.1 = key /\ l_callback st.1 = callback /\
  (l_must_cancel st.1 = true -> Cancel ∈ acts) /\
  cause callback acts st.1 /\
  (EvExit ∈ l_trace st.1 -> flagged key exit0 acts) /\
  (key ∈ st.2 -> flagged key exit0 acts).

(** The events of the consume loop (every fetch waits up to the tick)
    and those of the drain loop (no fetch waits). *)
Definition consume_event (tick : Q) (e : event) : Prop :=
  match e with
  | EvGetMessage timeout _ => timeout = tick
  | EvExit => False
  | _ => True
  end.

Definition drain_event (e : event) : Prop :=
  match e with
  | EvGetMessage timeout _ => timeout = 0%Q
  | EvExit => False
  | _ => True
  end.

(** A trace in two phases: events of the consume loop, then, if the exit
    flag was seen, the exit event and events of the drain loop. *)
Definition two_phases (tick : Q) (tr : list event) : Prop :=
  Forall (consume_event tick) tr \/
  exists main drain, tr = main ++ EvExit :: drain /\
    Forall (consume_event tick) main /\ Forall drain_event drain.

Definition phase_inv (tick : Q) (l : Listener) : Prop :=
  match l_pc l with
  | MainPoll | MainCallback _ => Forall (consume_event tick) (l_trace l)
  | FlushPoll | FlushCallback _ | Done Returned =>
      exists main drain, l_trace l = main ++ EvExit :: drain /\
        Forall (consume_event tick) main /\ Forall drain_event drain
  | Done _ => two_phases tick (l_trace l)
  end.

(** An action of the environment of a listener: anything but its own
    resumption, be it with the result of what it awaits or with the failure
    of the driver. *)
Definition is_resume (a : action) : bool :=
  match a with
  | Resume | Break _ => true
  | _ => false
  end.

End Lifecycle.

(** ** The test suite *)

Module TestSuite.
Import Config.

Section Tests.
Context {db : Type} `{StoreDriver db}.

(** A test body runs on the store and returns or raises; the store it
    leaves is kept in both cases, so that a [finally] clause runs on it. *)
Definition Test (A : Type) : Type := db -> result A * db.

#[global] Instance test_ret : MRet Test := fun A a d => (Ret a, d).

#[global] Instance test_bind : MBind Test := fun A B k m d =>
  match m d with
  | (Ret a, d') => k a d'
  | (Raise e, d') => (Raise e, d')
  end.

(** [try: body finally: cleanup] *)
Definition try_finally {A} (body : Test A) (cleanup : Test unit) : Test A :=
  fun d =>
    let '(r, d1) := body d in
    match cleanup d1 with
    | (Ret _, d2) => (r, d2)
    | (Raise e, d2) => (Raise e, d2)
    end.

(** The awaited methods of the client: those that change the store and
    those that only read it. *)
Definition update (op : db -> result db) : Test unit :=
  fun d =>
    match op d with
    | Ret d' => (Ret tt, d')
    | Raise e => (Raise e, d)
    end.

Definition query {A} (op : db -> result A) : Test A := fun d => (op d, d).

(** The assertions of [unittest] on the values the tests pass to them. *)
Definition assertTrue (n : Z) : Test unit :=
  fun d => (if n =? 0 then Raise AssertionError else Ret tt, d).

Definition assertFalse (n : Z) : Test unit :=
  fun d => (if n =? 0 then Ret tt else Raise AssertionError, d).

Definition assertEqual {A} `{EqDecision A} (first second : A) : Test unit :=
  fun d => (if bool_decide (first = second) then Ret tt else Raise AssertionError, d).

Definition assertIsNone {A} (x : option A) : Test unit :=
  fun d => (if x is None then Ret tt else Raise AssertionError, d).

(** [test_not_exists_delete] *)
Definition test_not_exists_delete (cs : RedisCache) : Test unit :=
  let key1 := "__test_not_exists_delete__key1__" in
  let key2 := "__test_not_exists_delete__key2__" in
  n ← query (KV.exists_ cs [key1]); assertFalse n;;
  n ← query (KV.exists_ cs [key2]); assertFalse n;;
  update (KV.delete cs [key1; key2]);;
  n ← query (KV.exists_ cs [key1]); assertFalse n;;
  n ← query (KV.exists_ cs [key2]); assertFalse n.

(** [test_not_exists_get] *)
Definition test_not_exists_get (cs : RedisCache) : Test unit :=
  let key1 := "__test_not_exists_get__key1__" in
  n ← query (KV.exists_ cs [key1]); assertFalse n;;
  v ← query (KV.get cs key1); assertIsNone v.

(** [test_mset_and_exists] *)
Definition test_mset_and_exists (cs : RedisCache) : Test unit :=
  let key1 := "__test_mset_and_exists__key1__" in
  let key2 := "__test_mset_and_exists__key2__" in
  let val1 := "val1" in
  let val2 := "val2" in
  try_finally
    (n ← query (KV.exists_ cs [key1]); assertFalse n;;
     n ← query (KV.exists_ cs [key2]); assertFalse n;;
     update (KV.mset cs {[ key1 := val1; key2 := val2 ]});;
     n ← query (KV.exists_ cs [key1; key2]); assertEqual 2 n;;
     v ← query (KV.get cs key1); assertEqual (Some val1) v;;
     v ← query (KV.get cs key2); assertEqual (Some val2) v;;
     update (KV.delete cs [key1]);;
     n ← query (KV.exists_ cs [key1; key2]); assertEqual 1 n;;
     n ← query (KV.exists_ cs [key1]); assertFalse n;;
     n ← query (KV.exists_ cs [key2]); assertTrue n;;
     update (KV.delete cs [key2]);;
     n ← query (KV.exists_ cs [key1; key2]); assertEqual 0 n;;
     n ← query (KV.exists_ cs [key1]); assertFalse n;;
     n ← query (KV.exists_ cs [key2]); assertFalse n)
    (update (KV.delete cs [key1; key2])).

(** [test_set_get_append] *)
Definition test_set_get_append (cs : RedisCache) : Test unit :=
  let key := "__test_set_get_append__key__" in
  let val1 := "aa" in
  let val2 := "bb" in
  let val_total := val1 +:+ val2 in
  try_finally
    (n ← query (KV.exists_ cs [key]); assertFalse n;;
     update (KV.set cs key val1);;
     n ← query (KV.exists_ cs [key]); assertTrue n;;
     v ← query (KV.get cs key); assertEqual (Some val1) v;;
     update (KV.append cs key val2);;
     n ← query (KV.exists_ cs [key]); assertTrue n;;
     v ← query (KV.get cs key); assertEqual (Some val_total) v;;
     update (KV.delete cs [key]);;
     n ← query (KV.exists_ cs [key]); assertFalse n)
    (update (KV.delete cs [key])).

(** [test_append_get] *)
Definition test_append_get (cs : RedisCache) : Test unit :=
  let key := "__test_append_get__key__" in
  let val1 := "cc" in
  let val2 := "dd" in
  let val_total := val1 +:+ val2 in
  try_finally
    (n ← query (KV.exists_ cs [key]); assertFalse n;;
     update (KV.append cs key val1);;
     n ← query (KV.exists_ cs [key]); assertTrue n;;
     v ← query (KV.get cs key); assertEqual (Some val1) v;;
     update (KV.append cs key val2);;
     n ← query (KV.exists_ cs [key]); assertTrue n;;
     v ← query (KV.get cs key); assertEqual (Some val_total) v;;
     update (KV.delete cs [key]);;
     n ← query (KV.exists_ cs [key]); assertFalse n)
    (update (KV.delete cs [key])).

End Tests.

(** [setUp] builds the client of the tests, [asyncSetUp] opens it. *)
Definition setUp : RedisCache :=
  __init__ "localhost" 6379 (Some "") (Some "tester:") ∅.

Definition asyncSetUp (from_url : connector) (cs : RedisCache) : result RedisCache :=
  cs' ← open from_url cs;
  if is_open cs' then Ret cs' else Raise AssertionError.

End TestSuite.

(** ** Concrete clients, stores and listeners *)

Module Scenario.
Import PagedStore Listener Client.

(** The client of the test suite, and the same client once opened. *)
Definition tester : RedisCache :=
  __init__ "localhost" 6379 (Some "") (Some "tester:") ∅.

Definition conn : Redis :=
  {| pool_host := "localhost"; pool_port := 6379; pool_password := None;
     pool_max_connections := 10 |}.

Definition opened (c : RedisCache) : RedisCache := set_redis (Some conn) c.

(** A keyspace of 1024 keys outside the namespace, scanned before the one
    key that carries the prefix ["ns:"]. *)
Definition decimal (n : nat) : string := NilEmpty.string_of_uint (Nat.to_uint n).

Definition plain_slot (k v : string) : slot :=
  {| slot_key := k; slot_val := v; slot_ttl := None |}.

Definition crowded : keyspace :=
  (((fun i => plain_slot ("other:" +:+ decimal i) "x") <$> seq 0 1024)
     ++ [plain_slot "ns:a" "1"])%list.

Definition ns_client : RedisCache :=
  opened (__init__ "localhost" 6379 None (Some "ns:") ∅).

(** A client whose prefix holds a pattern character, and a keyspace with
    one key of its namespace and one key outside of it. *)
Definition wild_client : RedisCache :=
  opened (__init__ "localhost" 6379 None (Some "n?:") ∅).

Definition mixed : keyspace := [plain_slot "n?:a" "1"; plain_slot "nx:b" "2"].

(** Messages on the channel of the test suite, a coroutine callback that
    returns, and a callback that [inspect] takes for no function at all. *)
Definition msg (data : string) : Message :=
  {| msg_type := "message"; msg_channel := "channel:1"; msg_pattern := None;
     msg_data := data |}.

Definition reader : Callback :=
  {| cb_kind := CoroutineFunction; cb_outcome := fun _ => None;
     cb_cancelled := fun _ => None |}.

Definition bound_method : Callback :=
  {| cb_kind := NotAFunction; cb_outcome := fun _ => None;
     cb_cancelled := fun _ => None |}.

(** A driver whose [from_url] accepts every URL and pool size. *)
Definition connect : Config.connector :=
  fun _ password max_connections =>
    Ret {| pool_host := "localhost"; pool_port := 6379; pool_password := password;
           pool_max_connections := max_connections |}.

(** A listener in its consume loop with three unread messages. *)
Definition busy : Listener :=
  set_channel [msg "a"; msg "b"; msg "c"] (spawn "channel:1" reader true).

(** The test client, opened, with one subscription to ["channel:1"]. *)
Definition subscribed (callback : Callback) : World :=
  Client.run [Call (CallOpen connect); Start (Subscribe "channel:1" callback);
              Wake 0%nat]
    (init tester).

(** The listener awaits its callback on a first message. *)
Definition delivering : World :=
  Client.run [Arrive 0%nat (msg "a"); Run 0%nat] (subscribed reader).

Definition in_callback : Listener :=
  {| l_key := "channel:1"; l_channel := []; l_callback := reader; l_flush := true;
     l_pc := MainCallback (msg "a"); l_must_cancel := false;
     l_trace := [EvGetMessage 1%Q (Some (msg "a")); EvCall (msg "a")] |}.

(** [close_subscribes] was called while the callback was running, and
    five time units have passed with the callback still running. *)
Definition stalled : World :=
  Client.run [Start CloseSubscribes; Advance 5%Q] delivering.

(** The same with [close]. *)
Definition stalled_close : World :=
  Client.run [Start Close; Advance 5%Q] delivering.

(** The listener failed on its first message. *)
Definition failed : World :=
  Client.run [Arrive 0%nat (msg "a"); Run 0%nat] (subscribed bound_method).

(** A callback that raises on every message, and a listener set up
    without flushing. *)
Definition raiser : Callback :=
  {| cb_kind := PlainFunction; cb_outcome := fun _ => Some (OtherError "boom");
     cb_cancelled := fun _ => None |}.

Definition unflushed : Listener :=
  set_channel [msg "a"; msg "b"] (spawn "channel:1" reader false).

(** The subscribed client while a second [subscribe] to the same channel
    waits for its confirmation. *)
Definition resubscribing : World :=
  Client.run [Start (Subscribe "channel:1" reader)] (subscribed reader).

(** An open client on which [close] awaits the release of the connection
    while a [subscribe] waits for its confirmation. *)
Definition closing : World :=
  Client.run [Start (Subscribe "channel:1" reader); Start Close]
    (init (opened tester)).

(** A small keyspace with one key of the namespace ["ns:"] and one key
    outside of it, and one with a key of the test client. *)
Definition small : keyspace := [plain_slot "ns:a" "1"; plain_slot "other" "2"].

Definition stored : keyspace := [plain_slot "tester:k" "aa"].

(** The subscribed client after one message was published on the channel. *)
Definition published : World :=
  Client.run [Arrive 0%nat (msg "value")] (subscribed reader).

End Scenario.

(** * Properties *)

(** ** Configuration *)

Example int_examples :
  PyInt.int (PyStr " 12_000 ") = Ret 12000 /\
  PyInt.int (PyStr "-7") = Ret (-7) /\
  PyInt.int (PyStr "1__0") = Raise ValueError /\
  PyInt.int (PyStr "ten") = Raise ValueError /\
  PyInt.int (PyStr "") = Raise ValueError /\
  PyInt.int (PyStr "+ 1") = Raise ValueError /\
  PyInt.int (PyFloat (Finite (-7 # 2))) = Ret (-3) /\
  PyInt.int (PyStr (String (ascii_of_nat 160) "7")) = Ret 7 /\
  PyInt.int (PyStr (String (ascii_of_nat 28) "7")) = Raise ValueError /\
  PyInt.int PyNone = Raise TypeError.
Proof. repeat split; reflexivity. Qed.

Lemma get_max_connections_absent (kwargs : gmap string pyvalue) (default_value : Z) :
  kwargs !! EX_KEY_MAX_CONNECTIONS = None ->
  Config._get_max_connections kwargs default_value = Ret default_value.
Proof.
  intros Hk. unfold Config._get_max_connections, dict_get. by rewrite Hk.
Qed.

Lemma get_max_connections_present (kwargs : gmap string pyvalue) (default_value : Z)
    (v : pyvalue) :
  kwargs !! EX_KEY_MAX_CONNECTIONS = Some v ->
  Config._get_max_connections kwargs default_value =
    match PyInt.int v with
    | Ret n => Ret n
    | Raise ValueError => Ret default_value
    | Raise e => Raise e
    end.
Proof.
  intros Hk. unfold Config._get_max_connections, dict_get. by rewrite Hk.
Qed.

Lemma open_result (from_url : Config.connector) (c : RedisCache) :
  Config.open from_url c =
    match Config._get_max_connections (_kwargs c) DEFAULT_MAX_CONNECTIONS with
    | Ret n =>
        match from_url (Config.url c) (if truthy (_pw c) then _pw c else None) n with
        | Ret handle => Ret (set_redis (Some handle) c)
        | Raise e => Raise e
        end
    | Raise e => Raise e
    end.
Proof.
  unfold Config.open. by destruct (Config._get_max_connections _ _).
Qed.

Lemma open_ret (from_url : Config.connector) (c c' : RedisCache) :
  Config.open from_url c = Ret c' -> exists handle, c' = set_redis (Some handle) c.
Proof.
  rewrite open_result. destruct (Config._get_max_connections _ _) as [n|e]; [|done].
  destruct (from_url _ _ n) as [handle|e]; [|done].
  intros [= <-]. by exists handle.
Qed.

(** What [_get_max_connections] returns to [open]: the default when the
    key is absent; [int(value)] when [int] accepts the configured value;
    the default when [int] raises [ValueError]; and any other exception of
    [int] is raised. *)
Lemma get_max_connections_cases (c : RedisCache) :
  match _kwargs c !! EX_KEY_MAX_CONNECTIONS with
  | None => Config._get_max_connections (_kwargs c) DEFAULT_MAX_CONNECTIONS = Ret 10
  | Some v =>
      match PyInt.int v with
      | Ret n => Config._get_max_connections (_kwargs c) DEFAULT_MAX_CONNECTIONS = Ret n
      | Raise ValueError =>
          Config._get_max_connections (_kwargs c) DEFAULT_MAX_CONNECTIONS = Ret 10
      | Raise e => Config._get_max_connections (_kwargs c) DEFAULT_MAX_CONNECTIONS = Raise e
      end
  end.
Proof.
  destruct (_kwargs c !! EX_KEY_MAX_CONNECTIONS) as [v|] eqn:Hk.
  - rewrite (get_max_connections_present _ _ v Hk).
    destruct (PyInt.int v) as [n|e]; [done|]. by destruct e.
  - by rewrite get_max_connections_absent.
Qed.

(** C6 fails on the code: [None] cannot be converted to an integer, and a
    client configured with [max_connections=None] does not fall back to the
    default 10.  [int(None)] raises [TypeError], which the [except] clause
    of [_get_max_connections] does not name: whatever the other arguments
    of the client and whatever the driver, [open] raises [TypeError]
    without calling the driver, and the client stays closed. *)
Theorem max_connections_none_is_raised (from_url : Config.connector)
    (host : string) (port : Z) (pw prefix : option string)
    (kwargs : gmap string pyvalue) :
  let c := __init__ host port pw prefix (<[ "max_connections" := PyNone ]> kwargs) in
  (forall n, PyInt.int PyNone <> Ret n) /\
  Config._get_max_connections (_kwargs c) DEFAULT_MAX_CONNECTIONS = Raise TypeError /\
  Config._get_max_connections (_kwargs c) DEFAULT_MAX_CONNECTIONS <> Ret 10 /\
  Config.open from_url c = Raise TypeError /\
  Config.is_open c = false.
Proof.
  intros c.
  assert (Config._get_max_connections (_kwargs c) DEFAULT_MAX_CONNECTIONS
          = Raise TypeError) as Hn.
  { unfold Config._get_max_connections, dict_get. cbn.
    by rewrite lookup_insert_eq. }
  repeat split; try done.
  - by rewrite Hn.
  - by rewrite open_result, Hn.
Qed.

(** ** Key namespace *)

Section KeyNamespace.
Context {db : Type} `{StoreDriver db}.

Lemma prefixed_kmap (prefix : string) (pairs : gmap string string) :
  KV.prefixed prefix pairs = kmap (String.append prefix) pairs.
Proof.
  unfold KV.prefixed, kmap. f_equal.
Qed.

Lemma prefixed_lookup (prefix : string) (pairs : gmap string string) (k : string) :
  KV.prefixed prefix pairs !! (prefix +:+ k) = pairs !! k.
Proof. rewrite prefixed_kmap. apply (lookup_kmap (String.append prefix)). Qed.

Lemma prefixed_lookup_Some (prefix : string) (pairs : gmap string string)
    (k' v : string) :
  KV.prefixed prefix pairs !! k' = Some v <->
  exists k, k' = prefix +:+ k /\ pairs !! k = Some v.
Proof. rewrite prefixed_kmap. apply (lookup_kmap_Some (String.append prefix)). Qed.

Lemma init_prefix (host : string) (port : Z) (pw prefix : option string)
    (kwargs : gmap string pyvalue) :
  _prefix (__init__ host port pw prefix kwargs) = default "" prefix.
Proof. by destruct prefix as [[|]|]. Qed.

(** C7: on an open client every operation that takes keys hands the
    driver the keys with the configured prefix in front; [mset] hands it
    the mapping in which exactly the prefixed keys are bound, each to the
    value of the key it comes from; and the prefix of a client built
    without one is the empty string. *)
Theorem operations_prepend_prefix (c : RedisCache) (conn : Redis) (d : db) :
  _redis c = Some conn ->
  (forall key val, KV.set c key val d = Ret (SET (_prefix c +:+ key) val d)) /\
  (forall pairs, KV.mset c pairs d = Ret (MSET (KV.prefixed (_prefix c) pairs) d)) /\
  (forall pairs k, KV.prefixed (_prefix c) pairs !! (_prefix c +:+ k) = pairs !! k) /\
  (forall pairs k' v, KV.prefixed (_prefix c) pairs !! k' = Some v ->
     exists k, k' = _prefix c +:+ k /\ pairs !! k = Some v) /\
  (forall key, KV.get c key d = Ret (GET (_prefix c +:+ key) d)) /\
  (forall key val, KV.append c key val d = Ret (APPEND (_prefix c +:+ key) val d)) /\
  (forall key n, KV.expire c key n d = Ret (EXPIRE (_prefix c +:+ key) n d)) /\
  (forall keys,
     KV.delete c keys d = Ret (DELETE (String.append (_prefix c) <$> keys) d).2) /\
  (forall keys,
     KV.exists_ c keys d = Ret (EXISTS (String.append (_prefix c) <$> keys) d)) /\
  (forall host port pw kwargs,
     _prefix (__init__ host port pw None kwargs) = "" /\
     _prefix (__init__ host port pw (Some "") kwargs) = "").
Proof.
  intros Hopen.
  unfold KV.set, KV.mset, KV.get, KV.append, KV.expire, KV.delete, KV.exists_,
    Config.redis.
  rewrite Hopen. cbn.
  repeat split; try done.
  - intros. apply prefixed_lookup.
  - intros pairs k' v Hv. by apply prefixed_lookup_Some.
Qed.

End KeyNamespace.

Lemma operations_prepend_prefix_witness :
  KV.set (Scenario.opened Scenario.tester) "k" "v" ([] : PagedStore.keyspace)
    = Ret [Scenario.plain_slot "tester:k" "v"].
Proof.
  pose proof (operations_prepend_prefix (db := PagedStore.keyspace)
                (Scenario.opened Scenario.tester) Scenario.conn [] eq_refl) as Hops.
  destruct Hops as [Hset _]. rewrite Hset. reflexivity.
Defined.

(** ** clear *)

Lemma clear_closed {db : Type} `{StoreDriver db} (fuel : nat) (c : RedisCache) (d : db) :
  _redis c = None -> KV.clear (S fuel) c d = Some (Raise AssertionError).
Proof. intros Hc. cbn. unfold Config.redis. by rewrite Hc. Qed.

(** C5 on the code: with 1024 foreign keys scanned before it, the key
    ["ns:a"] of the namespace ["ns:"] survives [clear]: the first scan pass
    starts at cursor 0, visits 1024 slots, matches nothing, and the loop
    breaks with the keyspace as it was. *)
Lemma clear_misses_key_behind_first_page :
  length Scenario.crowded = 1025%nat /\
  SCAN 0 "ns:*" CLEAR_SCAN_STEP Scenario.crowded = (1024, []) /\
  SCAN 1024 "ns:*" CLEAR_SCAN_STEP Scenario.crowded = (0, ["ns:a"]) /\
  (forall fuel, KV.clear (S fuel) Scenario.ns_client Scenario.crowded
                = Some (Ret Scenario.crowded)) /\
  KV.get Scenario.ns_client "a" Scenario.crowded = Ret (Some "1") /\
  KV.exists_ Scenario.ns_client ["a"] Scenario.crowded = Ret 1.
Proof.
  repeat split; try intros fuel; vm_compute; reflexivity.
Qed.

(** A prefix is handed to the store as a pattern: with the prefix ["n?:"]
    the key ["nx:b"], which does not carry the prefix, matches ["n?:*"] and
    is deleted by [clear]. *)
Lemma clear_deletes_key_outside_pattern_prefix :
  String.prefix "n?:" "nx:b" = false /\
  KV.get Scenario.wild_client "a" Scenario.mixed = Ret (Some "1") /\
  (forall fuel, KV.clear (S (S fuel)) Scenario.wild_client Scenario.mixed = Some (Ret [])).
Proof. repeat split; try intros fuel; vm_compute; reflexivity. Qed.

Section StoreFacts.
Import PagedStore.

Lemma find_absent (k : string) (d : keyspace) :
  present k d = false -> List.find (has_key k) d = None.
Proof.
  unfold present. induction d as [|e d IH]; [done|]. cbn.
  destruct (has_key k e); [done|]. exact IH.
Qed.

Lemma store_get_put (k k' v : string) (ttl : option Z) (d : keyspace) :
  store_get k' (store_put k v ttl d) =
  if String.eqb k k' then Some v else store_get k' d.
Proof.
  unfold store_get, store_put. destruct (present k d) eqn:Hp.
  - destruct (String.eqb_spec k k') as [<-|Hne].
    + unfold present in Hp. induction d as [|e d IH]; [done|]. cbn in *.
      destruct (has_key k e) eqn:Hk; cbn.
      * unfold has_key at 1. cbn. by rewrite String.eqb_refl.
      * rewrite Hk. by apply IH.
    + clear Hp. induction d as [|e d IH]; [done|]. cbn.
      destruct (has_key k e) eqn:Hk; cbn.
      * unfold has_key in Hk |- *. cbn. apply String.eqb_eq in Hk.
        apply String.eqb_neq in Hne. rewrite Hne.
        rewrite Hk. rewrite Hne. exact IH.
      * destruct (has_key k' e); [done|]. exact IH.
  - destruct (String.eqb_spec k k') as [<-|Hne].
    + apply find_absent in Hp. induction d as [|e d IH]; cbn.
      * unfold has_key. cbn. by rewrite String.eqb_refl.
      * cbn in Hp. destruct (has_key k e); [done|]. by apply IH.
    + induction d as [|e d IH]; cbn.
      * unfold has_key. cbn. apply String.eqb_neq in Hne. by rewrite Hne.
      * destruct (has_key k' e); [done|]. apply IH.
        unfold present in *. cbn in Hp. by apply orb_false_elim in Hp as [_ Hp].
Qed.

(** X19: The paged store answers as a key/value store: what [set] stored under
    a key is what [get] returns for it, and a [set] through one client is
    invisible to the [get] of another key or of another namespace. *)
Lemma set_then_get (c c' : RedisCache) (conn : Redis) (key key' val : string)
    (d : keyspace) :
  _redis c = Some conn -> _redis c' = Some conn ->
  (d' ← KV.set c key val d; KV.get c' key' d') =
  if String.eqb (_prefix c +:+ key) (_prefix c' +:+ key')
  then Ret (Some val) else KV.get c' key' d.
Proof.
  intros Hc Hc'. unfold KV.set, KV.get, Config.redis. rewrite Hc, Hc'.
  change (Ret (store_get (_prefix c' +:+ key')
                 (store_put (_prefix c +:+ key) val None d)) =
          if String.eqb (_prefix c +:+ key) (_prefix c' +:+ key')
          then Ret (Some val) else Ret (store_get (_prefix c' +:+ key') d)).
  rewrite store_get_put. by destruct (String.eqb _ _).
Qed.

Lemma glob_star (s : string) : glob "*" Plain s = true.
Proof. induction s as [|c s IH]; [done|]. cbn in *. exact IH. Qed.

Lemma glob_literal_char (c : ascii) (p s : string) :
  is_meta c = false ->
  glob (String c p) Plain s =
  match s with
  | String c' s' => Ascii.eqb c' c && glob p Plain s'
  | EmptyString => false
  end.
Proof.
  destruct c as [[] [] [] [] [] [] [] []]; intros Hm; try discriminate Hm; reflexivity.
Qed.

Lemma glob_prefix (p s : string) :
  literal p = true -> glob (p +:+ "*") Plain s = String.prefix p s.
Proof.
  revert s. induction p as [|c p IH]; intros s Hlit.
  - cbn [String.append]. rewrite glob_star. by destruct s.
  - cbn in Hlit. apply andb_prop in Hlit as [Hc Hp]. apply negb_true_iff in Hc.
    change (String c p +:+ "*") with (String c (p +:+ "*")). rewrite glob_literal_char by done.
    destruct s as [|c' s]; [done|]. cbn [String.prefix].
    rewrite IH by done. destruct (ascii_dec c c') as [->|Hne].
    + by rewrite Ascii.eqb_refl.
    + apply not_eq_sym in Hne. apply Ascii.eqb_neq in Hne. by rewrite Hne.
Qed.

Lemma glob_match_glob (pattern key : string) :
  glob_match pattern key =
  match pattern, key with
  | String "*" EmptyString, _ => true
  | EmptyString, EmptyString => true
  | _, EmptyString => false
  | _, _ => glob pattern Plain key
  end.
Proof. reflexivity. Qed.

Lemma glob_literal_prefix (p s : string) :
  literal p = true -> glob_match (p +:+ "*") s = String.prefix p s.
Proof.
  intros Hlit. rewrite <- (glob_prefix p s Hlit).
  destruct p as [|c p].
  - cbn [String.append]. rewrite glob_star. by destruct s.
  - cbn in Hlit. apply andb_prop in Hlit as [Hc Hp]. apply negb_true_iff in Hc.
    change (String c p +:+ "*") with (String c (p +:+ "*")).
    destruct s as [|c' s].
    + rewrite glob_literal_char by done.
      destruct c as [[] [] [] [] [] [] [] []]; try discriminate Hc; reflexivity.
    + destruct c as [[] [] [] [] [] [] [] []]; try discriminate Hc;
        try reflexivity;
        destruct p; reflexivity.
Qed.

Lemma filter_twice {A} (f g : A -> bool) (l : list A) :
  List.filter f (List.filter g l) = List.filter (fun x => g x && f x) l.
Proof.
  induction l as [|x l IH]; [done|]. cbn.
  destruct (g x); cbn; [|done]. destruct (f x); by rewrite IH.
Qed.

Lemma store_delete_filter (keys : list string) (d : keyspace) :
  (store_delete keys d).2 =
  List.filter (fun e => negb (existsb (fun k => has_key k e) keys)) d.
Proof.
  revert d. induction keys as [|k keys IH]; intros d.
  - cbn. induction d as [|e d IHd]; [done|]. cbn. by rewrite <- IHd.
  - cbn [store_delete]. destruct (present k d) eqn:Hp.
    + specialize (IH (store_remove k d)).
      destruct (store_delete keys (store_remove k d)) as [n d']. cbn in *.
      rewrite IH. unfold store_remove. rewrite filter_twice.
      apply List.filter_ext. intros e. by rewrite negb_orb.
    + rewrite IH. apply List.filter_ext_in. intros e He. cbn.
      assert (Hk : has_key k e = false).
      { unfold present in Hp. destruct (has_key k e) eqn:Hk; [|done].
        assert (existsb (has_key k) d = true) by (apply existsb_exists; eauto).
        congruence. }
      by rewrite Hk.
Qed.

Lemma scan_first_page (pattern : string) (d : keyspace) :
  (length d <= 1024)%nat ->
  (store_scan 0 pattern CLEAR_SCAN_STEP d).2 =
  List.filter (glob_match pattern) (slot_key <$> d).
Proof.
  intros Hlen. unfold store_scan. cbn [snd].
  change (Z.to_nat 0) with 0%nat. rewrite drop_0.
  rewrite take_ge; [done|]. unfold CLEAR_SCAN_STEP. lia.
Qed.

Lemma filter_nil_none {A} (f : A -> bool) (l : list A) :
  List.filter f l = [] <-> forall x, In x l -> f x = false.
Proof.
  induction l as [|x l IH]; cbn; [naive_solver|].
  destruct (f x) eqn:Hx; split.
  - done.
  - intros H. specialize (H x (or_introl eq_refl)). congruence.
  - intros Hnil y [<-|Hy]; [done|]. by apply IH.
  - intros H. apply IH. intros y Hy. apply H. by right.
Qed.

Lemma clear_unfold {db : Type} `{StoreDriver db} (fuel : nat) (c : RedisCache)
    (conn : Redis) (d : db) :
  _redis c = Some conn ->
  KV.clear (S fuel) c d =
  match (SCAN 0 (_prefix c +:+ "*") CLEAR_SCAN_STEP d).2 with
  | _ :: _ =>
      KV.clear fuel c
        (DELETE (SCAN 0 (_prefix c +:+ "*") CLEAR_SCAN_STEP d).2 d).2
  | [] => Some (Ret d)
  end.
Proof.
  intros Hopen. cbn [KV.clear]. unfold Config.redis. rewrite Hopen.
  by destruct (SCAN 0 _ _ d) as [cursor [|k keys]].
Qed.

(** X23: On a keyspace that one scan page covers, and with a prefix free of
    pattern characters, [clear] removes exactly the keys that carry the
    prefix: the first pass deletes them all, the second finds none. *)
Theorem clear_small_keyspace (c : RedisCache) (conn : Redis) (d : keyspace)
    (fuel : nat) :
  _redis c = Some conn ->
  literal (_prefix c) = true ->
  (length d <= 1024)%nat ->
  KV.clear (S (S fuel)) c d =
  Some (Ret (List.filter (fun e => negb (String.prefix (_prefix c) (slot_key e))) d)).
Proof.
  intros Hopen Hlit Hlen.
  set (keep := fun e => negb (String.prefix (_prefix c) (slot_key e))).
  assert (Hscan : forall d' : keyspace, (length d' <= 1024)%nat ->
            (SCAN 0 (_prefix c +:+ "*") CLEAR_SCAN_STEP d').2 =
            List.filter (String.prefix (_prefix c)) (slot_key <$> d')).
  { intros d' Hd'. cbn [SCAN paged_store]. rewrite scan_first_page by done.
    apply List.filter_ext. intros k. by apply glob_literal_prefix. }
  assert (Hdone : forall n (d' : keyspace), (length d' <= 1024)%nat ->
            (forall e, In e d' -> keep e = true) ->
            KV.clear (S n) c d' = Some (Ret d')).
  { intros n d' Hd' Hkeep. rewrite (clear_unfold n c conn) by done.
    rewrite (Hscan d' Hd').
    assert (Hnil : List.filter (String.prefix (_prefix c)) (slot_key <$> d') = []).
    { apply filter_nil_none. intros k Hk. apply in_map_iff in Hk as (e & <- & He).
      apply Hkeep in He. unfold keep in He. by apply negb_true_iff in He. }
    by rewrite Hnil. }
  rewrite (clear_unfold (S fuel) c conn) by done.
  rewrite (Hscan d Hlen).
  destruct (List.filter (String.prefix (_prefix c)) (slot_key <$> d))
    as [|k keys] eqn:Hkeys.
  - f_equal. f_equal.
    pose proof (proj1 (filter_nil_none _ _) Hkeys) as Hnone.
    symmetry. apply forallb_filter_id. apply forallb_forall. intros e He.
    unfold keep. apply negb_true_iff. apply Hnone. by apply in_map.
  - assert (Hd' : (DELETE (k :: keys) d).2 = List.filter keep d).
    { cbn [DELETE paged_store]. rewrite store_delete_filter.
      apply List.filter_ext_in. intros e He. unfold keep. f_equal.
      rewrite <- Hkeys. apply eq_true_iff_eq. rewrite existsb_exists. split.
      - intros (k' & Hk' & Heq). apply filter_In in Hk' as [_ Hpre].
        unfold has_key in Heq. apply String.eqb_eq in Heq. by rewrite Heq.
      - intros Hpre. exists (slot_key e). split.
        + apply filter_In. split; [by apply in_map|done].
        + unfold has_key. apply String.eqb_refl. }
    rewrite Hd'. apply Hdone.
    + etrans; [apply List.filter_length_le|done].
    + intros e He. by apply filter_In in He as [_ He].
Qed.

Lemma scan_keys_present (cursor count : Z) (pattern k : string) (d : keyspace) :
  In k (store_scan cursor pattern count d).2 ->
  glob_match pattern k = true /\ exists e, In e d /\ slot_key e = k.
Proof.
  unfold store_scan. cbn [snd]. intros Hin.
  apply filter_In in Hin as [Hin Hmatch]. split; [done|].
  apply in_map_iff in Hin as (e & Hk & He). exists e. split; [|done].
  apply list_elem_of_In. apply list_elem_of_In in He.
  apply (subseteq_drop (Z.to_nat cursor)). by eapply subseteq_take.
Qed.

Lemma delete_shrinks (k : string) (keys : list string) (d : keyspace) (e : slot) :
  In e d -> slot_key e = k ->
  (length (store_delete (k :: keys) d).2 < length d)%nat.
Proof.
  intros He Hk. rewrite store_delete_filter.
  induction d as [|e' d IH]; [done|]. cbn [List.filter].
  destruct He as [->|He].
  - assert (Hhas : has_key k e = true) by (unfold has_key; rewrite Hk; apply String.eqb_refl).
    cbn [existsb]. rewrite Hhas. cbn.
    pose proof (List.filter_length_le
                  (fun e0 => negb (has_key k e0 || existsb (fun k0 => has_key k0 e0) keys)) d).
    lia.
  - specialize (IH He). cbn [existsb] in IH |- *.
    destruct (negb _); cbn; lia.
Qed.

Lemma clear_terminates (c : RedisCache) (conn : Redis) (d : keyspace) (fuel : nat) :
  _redis c = Some conn ->
  (length d < fuel)%nat ->
  exists d' : keyspace,
    KV.clear fuel c d = Some (Ret d') /\
    (SCAN 0 (_prefix c +:+ "*") CLEAR_SCAN_STEP d').2 = [] /\
    (forall e, In e d' -> In e d) /\
    (forall e, In e d -> glob_match (_prefix c +:+ "*") (slot_key e) = false -> In e d').
Proof.
  intros Hopen. revert d. induction fuel as [|fuel IH]; intros d Hlen; [lia|].
  rewrite (clear_unfold fuel c conn) by done.
  destruct ((SCAN 0 (_prefix c +:+ "*") CLEAR_SCAN_STEP d).2) as [|k keys] eqn:Hs.
  - exists d. by repeat split.
  - assert (Hk : In k (store_scan 0 (_prefix c +:+ "*") CLEAR_SCAN_STEP d).2)
      by (cbn [SCAN paged_store] in Hs; rewrite Hs; by left).
    apply scan_keys_present in Hk as (_ & e & He & Hek).
    destruct (IH (DELETE (k :: keys) d).2) as (d' & Hrun & Hscan & Hsub & Hkeep).
    { pose proof (delete_shrinks k keys d e He Hek). cbn [DELETE paged_store]. lia. }
    exists d'. split; [done|]. split; [done|]. split.
    + intros e' He'. apply Hsub in He'. cbn [DELETE paged_store] in He'.
      rewrite store_delete_filter in He'. by apply filter_In in He' as [He' _].
    + intros e' He' Hno. apply Hkeep; [|done].
      cbn [DELETE paged_store]. rewrite store_delete_filter. apply filter_In.
      split; [done|]. apply negb_true_iff. apply not_true_is_false.
      intros Hex. apply existsb_exists in Hex as (k' & Hk' & Hhas).
      unfold has_key in Hhas. apply String.eqb_eq in Hhas.
      assert (Hin : In k' (store_scan 0 (_prefix c +:+ "*") CLEAR_SCAN_STEP d).2)
        by (cbn [SCAN paged_store] in Hs; by rewrite Hs).
      apply scan_keys_present in Hin as [Hmatch _]. congruence.
Qed.

(** X24: What [clear] does on any keyspace of the paged store, whatever the
    prefix: every pass that finds keys deletes at least one slot, so
    [clear] returns within one pass per slot and one more; the first page
    of a scan from cursor 0 then holds no key that matches the pattern;
    and every slot left was there before.  With a prefix free of pattern
    characters, every slot whose key does not carry the prefix is left. *)
Theorem clear_returns (c : RedisCache) (conn : Redis) (d : keyspace) (fuel : nat) :
  _redis c = Some conn ->
  (length d < fuel)%nat ->
  exists d' : keyspace,
    KV.clear fuel c d = Some (Ret d') /\
    (SCAN 0 (_prefix c +:+ "*") CLEAR_SCAN_STEP d').2 = [] /\
    (length d' <= length d)%nat /\
    (forall e, In e d' -> In e d) /\
    (literal (_prefix c) = true ->
     forall e, In e d -> String.prefix (_prefix c) (slot_key e) = false -> In e d').
Proof.
  intros Hopen Hlen.
  assert (Hshrink : forall n (d0 d1 : keyspace),
            KV.clear n c d0 = Some (Ret d1) -> (length d1 <= length d0)%nat).
  { induction n as [|n IH]; intros d0 d1; [done|].
    rewrite (clear_unfold n c conn) by done.
    destruct ((SCAN 0 (_prefix c +:+ "*") CLEAR_SCAN_STEP d0).2) as [|k keys].
    - by intros [= <-].
    - intros Hrun. apply IH in Hrun. etrans; [exact Hrun|].
      cbn [DELETE paged_store]. rewrite store_delete_filter.
      apply List.filter_length_le. }
  destruct (clear_terminates c conn d fuel Hopen Hlen) as (d' & Hrun & Hscan & Hsub & Hkeep).
  exists d'. split; [done|]. split; [done|]. split; [by eapply Hshrink|].
  split; [done|]. intros Hlit e He Hpre. apply Hkeep; [done|].
  by rewrite glob_literal_prefix.
Qed.

End StoreFacts.

(** ** The listener task *)

Section ListenerFacts.
Import Listener.
Variable tick : Q.

Lemma monitor_app (tr es : list event) :
  monitor (tr ++ es) = fold_left monitor_step es (monitor tr).
Proof. unfold monitor. apply fold_left_app. Qed.

Lemma delivered_app (tr es : list event) :
  delivered (tr ++ es) = delivered tr ++ delivered es.
Proof. unfold delivered. apply omap_app. Qed.

Lemma fetched_app (tr es : list event) :
  fetched (tr ++ es) = fetched tr ++ fetched es.
Proof. unfold fetched. apply omap_app. Qed.

Lemma arrivals_app (xs ys : list action) :
  arrivals (xs ++ ys) = arrivals xs ++ arrivals ys.
Proof. unfold arrivals. apply omap_app. Qed.

Lemma run_app (xs ys : list action) (st : Listener * gset string) :
  run tick (xs ++ ys) st = run tick ys (run tick xs st).
Proof. unfold run. apply fold_left_app. Qed.

Lemma resume_done (exit : gset string) (l : Listener) (o : outcome) :
  l_pc l = Done o -> resume tick exit l = (l, exit).
Proof. intros Hpc. unfold resume. by rewrite Hpc. Qed.

Lemma run_resume_done (n : nat) (exit : gset string) (l : Listener) (o : outcome) :
  l_pc l = Done o -> run tick (replicate n Resume) (l, exit) = (l, exit).
Proof.
  intros Hpc. induction n as [|n IH]; [done|].
  cbn. by rewrite (resume_done _ _ o Hpc).
Qed.

Lemma monitor_step_same (m : Message) (raised : option exn) :
  monitor_step (Fetched m) (EvCall m) = InFlight m /\
  monitor_step (InFlight m) (EvDone m raised) = Idle.
Proof. cbn. by rewrite !bool_decide_eq_true_2. Qed.

#[local] Arguments monitor : simpl never.
#[local] Arguments fetched : simpl never.
#[local] Arguments delivered : simpl never.

Lemma resume_inv (received : list Message) (exit : gset string) (l : Listener) :
  listener_inv received l -> listener_inv received (resume tick exit l).1.
Proof.
  destruct l as [key channel [kind out canc] flush p mc tr].
  unfold listener_inv, consistent, resume, main_message, flush_message, main_after,
    flush_after, checkpoint, flush_loop, get_message, invoke, callback_done,
    callback_caught.
  cbn. intros (Hc & Hf & Hr).
  destruct p as [| | | |o]; cbn; [| | | |done].
  all: destruct mc; cbn.
  all: repeat (case_match; simplify_eq/=).
  all: try (rewrite Hc in *; by eauto).
  all: rewrite ?monitor_app, ?fetched_app, ?delivered_app, ?Hc.
  all: rewrite Hc in Hf; cbn [fold_left monitor_step pending] in *.
  all: repeat (rewrite bool_decide_eq_true_2 by done; cbn [monitor_step pending]).
  all: rewrite ?Hf; unfold fetched, delivered; cbn.
  all: rewrite ?app_nil_r, <- ?app_assoc; cbn; eauto.
Qed.

Lemma step_inv (received : list Message) (st : Listener * gset string) (a : action) :
  listener_inv received st.1 ->
  listener_inv (received ++ arrivals [a]) (step tick st a).1.
Proof.
  destruct st as [l exit]. destruct a as [m| | |exit'|e]; cbn [step arrivals omap fst snd].
  - intros (Hc & Hf & Hr). unfold listener_inv, consistent, arrive in *. cbn.
    split; [exact Hc|]. split; [exact Hf|]. rewrite Hr. by rewrite app_assoc.
  - rewrite app_nil_r. apply resume_inv.
  - rewrite app_nil_r. unfold listener_inv, consistent, cancel.
    intros Hinv. destruct (l_pc l) eqn:Hpc; cbn; by rewrite Hpc.
  - by rewrite app_nil_r.
  - rewrite app_nil_r. unfold listener_inv, consistent, break.
    intros (Hc & Hf & Hr).
    destruct (l_pc l) eqn:Hpc; [| by rewrite Hpc | | by rewrite Hpc | by rewrite Hpc].
    all: destruct (l_must_cancel l); cbn; eauto.
Qed.

Lemma run_inv (acts : list action) (received : list Message)
    (st : Listener * gset string) :
  listener_inv received st.1 ->
  listener_inv (received ++ arrivals acts) (run tick acts st).1.
Proof.
  revert received st. induction acts as [|a acts IH]; intros received st Hinv.
  - cbn. by rewrite app_nil_r.
  - change (a :: acts) with ([a] ++ acts).
    rewrite arrivals_app, app_assoc, run_app. apply IH.
    by apply step_inv.
Qed.

Lemma spawn_inv (key : string) (callback : Callback) (flush : bool) :
  listener_inv [] (spawn key callback flush).
Proof. by unfold listener_inv, consistent. Qed.

Lemma consistent_single_flight (l : Listener) :
  consistent l -> single_flight (l_trace l) = true.
Proof.
  unfold single_flight, consistent. intros Hc.
  destruct (l_pc l) as [| | | |[]]; destruct Hc as [Hc|[m Hc]] || idtac;
    by rewrite Hc.
Qed.

(** C4: whatever the environment does (messages arriving, the exit set
    changing, a cancellation, the task being resumed), the trace of a
    listener is single-flight: a message is fetched only when no callback
    invocation is pending or in flight; the callback is invoked on the
    messages in the order in which they arrived; and the messages that
    arrived are exactly those fetched, in order, followed by the unread
    ones. *)
Theorem delivery_in_order_single_flight (key : string) (callback : Callback)
    (flush : bool) (exit0 : gset string) (acts : list action) :
  let l := (run tick acts (spawn key callback flush, exit0)).1 in
  single_flight (l_trace l) = true /\
  delivered (l_trace l) `prefix_of` arrivals acts /\
  arrivals acts = fetched (l_trace l) ++ l_channel l.
Proof.
  intros l.
  destruct (run_inv acts [] (spawn key callback flush, exit0)
              (spawn_inv key callback flush)) as (Hc & Hf & Hr).
  fold l in Hc, Hf, Hr. cbn [app] in Hr. repeat split; [|..|done].
  - unfold single_flight. unfold consistent in Hc.
    destruct (l_pc l) as [| | | |[]]; destruct Hc as [Hc|[m Hc]] || idtac;
      by rewrite Hc.
  - exists (pending (monitor (l_trace l)) ++ l_channel l).
    by rewrite Hr, Hf, app_assoc.
Qed.

(** *** Callbacks of an unsupported kind *)

Lemma step_never_invoked (st : Listener * gset string) (a : action) :
  never_invoked st.1 -> never_invoked (step tick st a).1.
Proof.
  destruct st as [l exit]. destruct a as [m| | |exit'|e]; cbn [step fst snd]; [done| |..].
  - destruct l as [key channel [kind out canc] flush p mc tr].
    unfold never_invoked, resume, main_message, flush_message, main_after,
      flush_after, checkpoint, flush_loop, get_message, invoke, callback_done.
    cbn. intros (-> & Hd & Hf & Hp).
    destruct p as [| | | |o]; cbn; [|done| |done|by eauto].
    all: destruct Hf as [Hf|Hf]; [|done].
    all: destruct mc; cbn; [by eauto|].
    all: repeat (case_match; simplify_eq/=).
    all: rewrite ?fetched_app, ?delivered_app, ?Hd, ?Hf; eauto.
  - unfold never_invoked, cancel.
    intros Hinv. destruct (l_pc l) eqn:Hpc; cbn; by rewrite Hpc.
  - done.
  - unfold never_invoked, break. intros (Hk & Hd & Hf & Hp).
    destruct (l_pc l) eqn:Hpc; [| by rewrite Hpc | | by rewrite Hpc | by rewrite Hpc].
    all: destruct Hf as [Hf|Hf]; [|congruence].
    all: destruct (l_must_cancel l); cbn; eauto.
Qed.

Lemma run_never_invoked (acts : list action) (st : Listener * gset string) :
  never_invoked st.1 -> never_invoked (run tick acts st).1.
Proof.
  revert st. induction acts as [|a acts IH]; intros st Hinv; [done|].
  cbn. apply IH. by apply step_never_invoked.
Qed.

(** *** Graceful exit *)

#[local] Arguments deliveries : simpl never.

Ltac unfold_resume :=
  unfold resume, main_message, flush_message, main_after, flush_after,
    checkpoint, flush_loop, get_message, invoke, callback_done;
  cbn.

Lemma completed_app (tr es : list event) :
  completed (tr ++ es) = completed tr ++ completed es.
Proof. unfold completed. apply omap_app. Qed.

Lemma deliveries_cons (timeout : Q) (m : Message) (msgs : list Message) :
  deliveries timeout (m :: msgs) =
  [EvGetMessage timeout (Some m); EvCall m; EvDone m None] ++ deliveries timeout msgs.
Proof. reflexivity. Qed.

Lemma deliveries_read (timeout : Q) (msgs : list Message) :
  delivered (deliveries timeout msgs) = msgs /\
  completed (deliveries timeout msgs) = msgs /\
  fetched (deliveries timeout msgs) = msgs.
Proof.
  induction msgs as [|m msgs (IHd & IHc & IHf)]; [done|].
  rewrite deliveries_cons, delivered_app, completed_app, fetched_app, IHd, IHc, IHf.
  done.
Qed.

(** The drain loop: from the zero-wait fetch of line 160, every unread
    message is fetched and handed to the callback in order, and the task
    returns at the first fetch that yields nothing. *)
Lemma drain_loop (channel : list Message) (n : nat) (exit : gset string) (l : Listener) :
  l_channel l = channel ->
  l_pc l = FlushPoll -> l_flush l = true -> l_must_cancel l = false ->
  cb_kind (l_callback l) <> NotAFunction ->
  (forall m, m ∈ channel -> cb_outcome (l_callback l) m = None) ->
  (2 * length channel + 1 <= n)%nat ->
  exists l', run tick (replicate n Resume) (l, exit) = (l', exit) /\
    l_pc l' = Done Returned /\ l_channel l' = [] /\ l_key l' = l_key l /\
    l_trace l' = l_trace l ++ deliveries 0 channel ++ [EvGetMessage 0 None].
Proof.
  revert n l. induction channel as [|m channel IH]; intros n l Hch Hpc Hfl Hmc Hk Hout Hn.
  - destruct n as [|n]; [cbn in Hn; lia|].
    destruct l as [key ch cb flush p mc tr]. cbn in *. subst.
    eexists. split; [apply (run_resume_done _ _ _ Returned); reflexivity|].
    done.
  - destruct n as [|n]; [cbn in Hn; lia|].
    destruct l as [key ch [kind out canc] flush p mc tr]. cbn in Hch, Hpc, Hfl, Hmc, Hk, Hout.
    subst. cbn [replicate run fold_left step fst snd].
    assert (Hm : out m = None) by (apply Hout; left).
    destruct kind; [| |done].
    + destruct n as [|n]; [cbn in Hn; lia|].
      cbn [replicate fold_left step fst snd]. unfold_resume. rewrite Hm. cbn.
      edestruct (IH n) as (l' & Hrun & Hpc' & Hch' & Hkey' & Htr');
        [..|exists l'; split; [exact Hrun|]]; try reflexivity; try done.
      * intros m' Hm'. apply Hout. by right.
      * cbn in Hn |- *. lia.
      * cbn in Htr'. rewrite Htr', deliveries_cons. cbn.
        by rewrite <- !app_assoc.
    + unfold_resume. rewrite Hm. cbn.
      edestruct (IH n) as (l' & Hrun & Hpc' & Hch' & Hkey' & Htr');
        [..|exists l'; split; [exact Hrun|]]; try reflexivity; try done.
      * intros m' Hm'. apply Hout. by right.
      * cbn in Hn |- *. lia.
      * cbn in Htr'. rewrite Htr', deliveries_cons. cbn.
        by rewrite <- !app_assoc.
Qed.

(** C2: a listener suspended in its consume loop whose channel is in the
    exit set, with a callback of a supported kind that returns on the
    outstanding messages, flush-on-exit enabled and no cancellation
    pending, when resumed often enough and left alone: ends the iteration
    it is in, finds its key in the exit set at that checkpoint and removes
    it, then fetches with zero wait and hands to the callback every unread
    message in order until a fetch yields nothing, and returns.  Every
    message that was outstanding has been handed to the callback, which
    returned on each. *)
Theorem graceful_exit_drains (exit : gset string) (l : Listener) (n : nat) :
  l_key l ∈ exit -> l_flush l = true -> l_must_cancel l = false ->
  cb_kind (l_callback l) <> NotAFunction ->
  (l_pc l = MainPoll \/ exists m, l_pc l = MainCallback m) ->
  (forall m, m ∈ outstanding l -> cb_outcome (l_callback l) m = None) ->
  (2 * length (l_channel l) + 2 <= n)%nat ->
  let st := run tick (replicate n Resume) (l, exit) in
  let it := finish_iteration tick l in
  l_pc st.1 = Done Returned /\
  st.2 = exit ∖ {[l_key l]} /\
  l_channel st.1 = [] /\
  l_trace st.1 =
    l_trace l ++ it.1 ++ [EvExit] ++ deliveries 0 it.2 ++ [EvGetMessage 0 None] /\
  completed (l_trace st.1) = completed (l_trace l) ++ outstanding l.
Proof.
  intros Hkey Hfl Hmc Hk Hpc Hout Hn st it.
  assert (Hgoal : l_pc st.1 = Done Returned /\ st.2 = exit ∖ {[l_key l]} /\
    l_channel st.1 = [] /\
    l_trace st.1 =
      l_trace l ++ it.1 ++ [EvExit] ++ deliveries 0 it.2 ++ [EvGetMessage 0 None] /\
    outstanding l = completed it.1 ++ it.2).
  { subst st it. destruct n as [|n]; [lia|].
    destruct l as [key ch [kind out canc] flush p mc tr].
    cbn in Hkey, Hfl, Hmc, Hk, Hn. subst.
    cbn [replicate run fold_left step fst snd].
    destruct Hpc as [Hpc|[m Hpc]]; cbn in Hpc; subst p.
    - destruct ch as [|m ch].
      + unfold_resume. rewrite bool_decide_eq_true_2 by done. cbn.
        edestruct (drain_loop [] n) as (l' & Hrun & Hpc' & Hch' & Hkey' & Htr');
          [..|unfold run in Hrun; rewrite Hrun]; try reflexivity; try done.
        * cbn in Hn |- *. lia.
        * cbn in Htr', Hkey' |- *. rewrite Htr'.
          by rewrite <- !app_assoc.
      + assert (Hm : out m = None) by (apply Hout; left).
        destruct kind; [| |done].
        * destruct n as [|n]; [cbn in Hn; lia|].
          cbn [replicate fold_left step fst snd]. unfold_resume. rewrite Hm. cbn.
          rewrite bool_decide_eq_true_2 by done. cbn.
          edestruct (drain_loop ch n) as (l' & Hrun & Hpc' & Hch' & Hkey' & Htr');
            [..|unfold run in Hrun; rewrite Hrun]; try reflexivity; try done.
          -- intros m' Hm'. apply Hout. by right.
          -- cbn in Hn |- *. lia.
          -- cbn in Htr', Hkey' |- *. rewrite Htr'.
             by rewrite <- !app_assoc.
        * unfold_resume. rewrite Hm. cbn.
          rewrite bool_decide_eq_true_2 by done. cbn.
          edestruct (drain_loop ch n) as (l' & Hrun & Hpc' & Hch' & Hkey' & Htr');
            [..|unfold run in Hrun; rewrite Hrun]; try reflexivity; try done.
          -- intros m' Hm'. apply Hout. by right.
          -- cbn in Hn |- *. lia.
          -- cbn in Htr', Hkey' |- *. rewrite Htr'.
             by rewrite <- !app_assoc.
    - assert (Hm : out m = None) by (apply Hout; left).
      unfold_resume. rewrite Hm. cbn.
      rewrite bool_decide_eq_true_2 by done. cbn.
      edestruct (drain_loop ch n) as (l' & Hrun & Hpc' & Hch' & Hkey' & Htr');
        [..|unfold run in Hrun; rewrite Hrun]; try reflexivity; try done.
      + intros m' Hm'. apply Hout. by right.
      + cbn in Hn |- *. lia.
      + cbn in Htr', Hkey' |- *. rewrite Htr'.
        by rewrite <- !app_assoc. }
  destruct Hgoal as (H1 & H2 & H3 & H4 & H5).
  repeat split; try done.
  rewrite H4, H5, !completed_app.
  destruct (deliveries_read 0 it.2) as (_ & -> & _).
  unfold completed at 4 5. cbn. by rewrite app_nil_r.
Qed.

(** C8: a listener given a callback that is neither a coroutine function
    nor a function raises [NotImplementedError] at the first message it
    fetches, in the consume loop as in the drain loop, without invoking
    the callback; the task has then failed for good.  In every run of
    such a listener the callback is never invoked, and the task has failed
    with [NotImplementedError] as soon as one message has been fetched. *)
Theorem unsupported_callback_raises (callback : Callback) :
  cb_kind callback = NotAFunction ->
  (forall exit l m rest,
      l_callback l = callback -> l_must_cancel l = false ->
      l_channel l = m :: rest ->
      l_pc l = MainPoll \/ l_pc l = FlushPoll ->
      let st := resume tick exit l in
      l_pc st.1 = Done (Failed NotImplementedError) /\
      delivered (l_trace st.1) = delivered (l_trace l) /\
      fetched (l_trace st.1) = fetched (l_trace l) ++ [m] /\
      st.2 = exit /\
      (forall exit', resume tick exit' st.1 = (st.1, exit'))) /\
  (forall key flush exit0 acts,
      let l := (run tick acts (spawn key callback flush, exit0)).1 in
      delivered (l_trace l) = [] /\
      (fetched (l_trace l) <> [] -> l_pc l = Done (Failed NotImplementedError))).
Proof.
  intros Hkind. split.
  - intros exit l m rest Hcb Hmc Hch Hpc.
    destruct l as [key ch cb flush p mc tr]. cbn in Hcb, Hmc, Hch, Hpc. subst.
    destruct callback as [kind out canc]. cbn in Hkind. subst kind.
    destruct Hpc as [->| ->]; unfold_resume;
      rewrite fetched_app, delivered_app; unfold fetched at 2, delivered at 2; cbn;
      by rewrite app_nil_r.
  - intros key flush exit0 acts l.
    destruct (run_never_invoked acts (spawn key callback flush, exit0))
      as (_ & Hd & Hf & _); [unfold never_invoked; cbn; by eauto|].
    fold l in Hd, Hf. split; [done|]. intros Hne. by destruct Hf.
Qed.

End ListenerFacts.

Lemma graceful_exit_drains_witness :
  let st := Listener.run 1 (replicate 8 Listener.Resume)
              (Scenario.busy, {["channel:1"]}) in
  Listener.l_pc st.1 = Listener.Done Listener.Returned /\
  st.2 = {["channel:1"]} ∖ {["channel:1"]} /\
  Listener.completed (Listener.l_trace st.1)
    = [Scenario.msg "a"; Scenario.msg "b"; Scenario.msg "c"].
Proof.
  destruct (graceful_exit_drains 1 {["channel:1"]} Scenario.busy 8)
    as (Hpc & Hexit & _ & _ & Hdone).
  - apply elem_of_singleton. reflexivity.
  - reflexivity.
  - reflexivity.
  - discriminate.
  - left. reflexivity.
  - intros m _. reflexivity.
  - simpl. lia.
  - split; [exact Hpc|]. split; [exact Hexit | exact Hdone].
Defined.

Lemma unsupported_callback_raises_witness :
  let l := (Listener.run 1 [Listener.Arrive (Scenario.msg "a"); Listener.Resume]
              (Listener.spawn "channel:1" Scenario.bound_method true, ∅)).1 in
  Listener.l_pc l = Listener.Done (Listener.Failed NotImplementedError) /\
  Listener.delivered (Listener.l_trace l) = [].
Proof.
  destruct (unsupported_callback_raises 1 Scenario.bound_method eq_refl) as [_ Hrun].
  destruct (Hrun "channel:1" true ∅
              [Listener.Arrive (Scenario.msg "a"); Listener.Resume]) as [Hd Hf].
  split; [|exact Hd]. apply Hf. vm_compute. discriminate.
Defined.

(** ** The client: registry, shutdown and close *)

Section ClientFacts.
Import Listener Client.

Lemma leave_try_cleared (r : result unit) (w : World) :
  cleared (leave_try r w).1 /\ exists r', (leave_try r w).2 = Ended r'.
Proof.
  unfold leave_try, cleared.
  destruct r as [[]|e]; [|destruct e]; cbn; eauto.
Qed.

Lemma shutdown_continue_cleared (w : World) (s : shutdown) :
  match (shutdown_continue w s).2 with
  | Ended _ => cleared (shutdown_continue w s).1
  | AwaitTask _ _ _ _ => True
  end.
Proof.
  destruct s as [rest size0 t tm|r]; cbn; [done|].
  destruct (leave_try_cleared r w) as [Hc [r' Hr]]. by rewrite Hr.
Qed.

Lemma timeout_step (w : World) (rest : list string) (size0 : nat) (t : Task) :
  close_subscribes_timeout w rest size0 t =
  ((cancel_task t w).2,
   AwaitTask rest size0 t (if (cancel_task t w).1 then Fired else Thrown)).
Proof. unfold close_subscribes_timeout. by destruct (cancel_task t w). Qed.

Lemma shutdown_step_cleared (w : World) (ws : World * shutdown) :
  shutdown_step w ws ->
  match ws.2 with
  | Ended _ => cleared ws.1
  | AwaitTask _ _ _ _ => True
  end.
Proof.
  assert (Hl : forall r, match (leave_try r w).2 with
                         | Ended _ => cleared (leave_try r w).1
                         | AwaitTask _ _ _ _ => True
                         end).
  { intros r. destruct (leave_try_cleared r w) as [Hc [r' Hr]]. by rewrite Hr. }
  intros [->|[(rest & size0 & t & tm & ->)|(rest & size0 & t & ->)]].
  - apply shutdown_continue_cleared.
  - unfold close_subscribes_wake. destruct tm as [d| |]; [| |apply Hl].
    all: destruct (task_result w t) as [[[]|e]|];
      [apply shutdown_continue_cleared|apply Hl|done].
  - by rewrite timeout_step.
Qed.

Lemma cancel_task_self (t : Task) (w : World) : self (cancel_task t w).2 = self w.
Proof.
  unfold cancel_task. destruct (tasks w !! t) as [l|]; [|done].
  by destruct (cancel l).
Qed.

Lemma resume_caller_self (k : frame -> World -> World * frame) (i : nat) (w : World) :
  self (resume_caller k i w) =
  match callers w !! i with
  | Some f => self (k f w).1
  | None => self w
  end.
Proof.
  unfold resume_caller. destruct (callers w !! i) as [f|]; [|done].
  by destruct (k f w).
Qed.

Lemma fire_self (f : frame) (w : World) : self (fire f w).1 = self w.
Proof.
  destruct f as [rest n t [d| |] closing| | | |]; cbn; try done.
  destruct (Qle_bool d (now w)); [|done].
  rewrite timeout_step. cbn. apply cancel_task_self.
Qed.

Lemma open_registry (from_url : Config.connector) (w : World) :
  _subscribes (self (open from_url w).2) = _subscribes (self w) /\
  _subscribes_exit (self (open from_url w).2) = _subscribes_exit (self w) /\
  tasks (open from_url w).2 = tasks w /\
  callers (open from_url w).2 = callers w.
Proof.
  unfold open. destruct (Config.open from_url (self w)) as [c|e] eqn:Ho; [|done].
  apply open_ret in Ho as [handle ->]. done.
Qed.

(** C1: whenever a step of [close_subscribes] (its call, its resumption
    by the event loop, the firing of its timeout) ends the coroutine, with
    a value or with an exception, the registry and the exit set are empty;
    and every action of the event loop that is not the call or the
    resumption of [close_subscribes] keeps every channel of the registry:
    it leaves the registry as it is, unless it is the registration that
    ends a [subscribe], which binds the channel to the new task and removes
    nothing. *)
Theorem shutdown_clears_registry :
  (forall w ws, shutdown_step w ws ->
     match ws.2 with
     | Ended _ => cleared ws.1
     | AwaitTask _ _ _ _ => True
     end) /\
  (forall w a, ~ shuts_down w a ->
     dom (_subscribes (self w)) ⊆ dom (_subscribes (self (step w a)))) /\
  (forall w a, ~ shuts_down w a ->
     _subscribes (self (step w a)) = _subscribes (self w) \/
     exists i channel callback,
       a = Wake i /\ callers w !! i = Some (InSubscribe channel callback) /\
       _subscribes (self (step w a))
         = <[channel := length (tasks w)]> (_subscribes (self w))).
Proof.
  assert (Hkept : forall w a, ~ shuts_down w a ->
     _subscribes (self (step w a)) = _subscribes (self w) \/
     exists i channel callback,
       a = Wake i /\ callers w !! i = Some (InSubscribe channel callback) /\
       _subscribes (self (step w a))
         = <[channel := length (tasks w)]> (_subscribes (self w))).
  { intros w a Hns. destruct a as [d|t m|t|c|c|i|i|t e]; cbn [step].
    - left. by destruct (Qle_bool 0 d).
    - left. by destruct (tasks w !! t).
    - left. unfold run_task. destruct (tasks w !! t) as [l|]; [|done].
      by destruct (resume _ _ l).
    - left. destruct c; cbn; try done.
      + apply open_registry.
      + unfold get_subscribe_task. by destruct (_ !! channel).
      + unfold cancel_subscribe_task. destruct (_ !! channel) as [t|]; [|done].
        pose proof (cancel_task_self t w) as Hs.
        destruct (cancel_task t w) as [b w']. cbn in *. by rewrite Hs.
    - left. destruct c as [| |channel|channel callback]; cbn in Hns; [done|done| |].
      + cbn. unfold wait_subscribe_begin. by destruct (_ !! channel).
      + cbn. unfold subscribe_begin. by destruct (Config.redis (self w)).
    - rewrite resume_caller_self. cbn in Hns.
      destruct (callers w !! i) as [[rest n t d closing| |t|channel callback|r]|]
        eqn:Hi; cbn; try by left.
      right. by exists i, channel, callback.
    - left. rewrite resume_caller_self.
      destruct (callers w !! i) as [f|]; [|done]. by rewrite fire_self.
    - left. by destruct (tasks w !! t). }
  split; [apply shutdown_step_cleared|]. split; [|exact Hkept].
  intros w a Hns.
  destruct (Hkept w a Hns) as [->|(i & channel & callback & _ & _ & ->)]; [done|].
  rewrite dom_insert_L. set_solver.
Qed.

(** C10: for a channel that is not registered, [get_subscribe_task],
    [cancel_subscribe_task] and [wait_subscribe] raise [KeyError] and
    leave the client and its tasks as they were. *)
Theorem unknown_channel_raises_key_error (w : World) (channel : string) :
  _subscribes (self w) !! channel = None ->
  get_subscribe_task channel w = (Raise (KeyError channel), w) /\
  cancel_subscribe_task channel w = (Raise (KeyError channel), w) /\
  start (WaitSubscribe channel) w = (w, Finished (Raise (KeyError channel))) /\
  step w (Call (CallGetSubscribeTask channel)) = w /\
  step w (Call (CallCancelSubscribeTask channel)) = w /\
  step w (Start (WaitSubscribe channel)) =
    set_callers (callers w ++ [Finished (Raise (KeyError channel))]) w.
Proof.
  intros Hnone.
  unfold get_subscribe_task, cancel_subscribe_task. cbn.
  unfold get_subscribe_task, cancel_subscribe_task, wait_subscribe_begin.
  by rewrite Hnone.
Qed.

(** *** Forced cancellation *)

Lemma cancel_stops (l : Listener) :
  done (cancel l).2 = true \/ l_must_cancel (cancel l).2 = true.
Proof. unfold cancel, done. destruct (l_pc l) eqn:Hpc; cbn; rewrite ?Hpc; eauto. Qed.

Lemma cancel_keeps_stopped (l : Listener) :
  done l = true \/ l_must_cancel l = true ->
  done (cancel l).2 = true \/ l_must_cancel (cancel l).2 = true.
Proof. intros _. apply cancel_stops. Qed.

Lemma cancel_task_tasks (t : Task) (w : World) :
  tasks (cancel_task t w).2 =
  match tasks w !! t with
  | Some l => <[t := (cancel l).2]> (tasks w)
  | None => tasks w
  end.
Proof.
  unfold cancel_task. destruct (tasks w !! t) as [l|]; [|done].
  by destruct (cancel l).
Qed.

Lemma cancel_task_callers (t : Task) (w : World) :
  callers (cancel_task t w).2 = callers w.
Proof.
  unfold cancel_task. destruct (tasks w !! t) as [l|]; [|done].
  by destruct (cancel l).
Qed.

Lemma cancel_task_length (t : Task) (w : World) :
  length (tasks (cancel_task t w).2) = length (tasks w).
Proof.
  rewrite cancel_task_tasks. destruct (tasks w !! t); [|done].
  by rewrite length_insert.
Qed.

Lemma cancel_task_stops (t : Task) (w : World) :
  (t < length (tasks w))%nat -> stopped (cancel_task t w).2 t.
Proof.
  intros Hlt. unfold stopped. rewrite cancel_task_tasks.
  destruct (lookup_lt_is_Some_2 _ _ Hlt) as [l Hl]. rewrite Hl.
  rewrite list_lookup_insert_eq by done. apply cancel_stops.
Qed.

Lemma cancel_task_keeps_stopped (t t' : Task) (w : World) :
  stopped w t' -> stopped (cancel_task t w).2 t'.
Proof.
  unfold stopped. rewrite cancel_task_tasks.
  destruct (tasks w !! t) as [l|] eqn:Hl; [|done].
  destruct (decide (t = t')) as [<-|Hne].
  - rewrite Hl. rewrite list_lookup_insert_eq by (by eapply lookup_lt_Some).
    intros _. apply cancel_stops.
  - by rewrite list_lookup_insert_ne.
Qed.

Lemma cancel_each (kts : list (string * Task)) (w : World) :
  let w' := foldr (fun kt w' => (cancel_task kt.2 w').2) w kts in
  self w' = self w /\ callers w' = callers w /\
  length (tasks w') = length (tasks w) /\
  (forall t, stopped w t -> stopped w' t) /\
  (forall k t, (k, t) ∈ kts -> (t < length (tasks w))%nat -> stopped w' t).
Proof.
  induction kts as [|[k0 t0] kts (IHs & IHc & IHl & IHk & IHin)]; cbn.
  - repeat split; try done. intros k t Hin. by apply elem_of_nil in Hin.
  - rewrite cancel_task_self, cancel_task_callers, cancel_task_length.
    repeat split; try done.
    + intros t Ht. by apply cancel_task_keeps_stopped, IHk.
    + intros k t Hin Hlt. apply elem_of_cons in Hin as [Heq|Hin].
      * simplify_eq. apply cancel_task_stops. by rewrite IHl.
      * by apply cancel_task_keeps_stopped, (IHin k).
Qed.

Lemma cancel_all_stops (w : World) :
  self (cancel_all w) = self w /\ callers (cancel_all w) = callers w /\
  length (tasks (cancel_all w)) = length (tasks w) /\
  (forall t, stopped w t -> stopped (cancel_all w) t) /\
  (forall k t, _subscribes (self w) !! k = Some t -> (t < length (tasks w))%nat ->
     stopped (cancel_all w) t).
Proof.
  destruct (cancel_each (map_to_list (_subscribes (self w))) w)
    as (Hs & Hc & Hl & Hk & Hin).
  repeat split; try done.
  intros k t Hkt Hlt. apply (Hin k); [|done]. by apply elem_of_map_to_list.
Qed.

Lemma cancel_all_released (w : World) : released (cancel_all w) = released w.
Proof.
  unfold cancel_all. generalize (map_to_list (_subscribes (self w))).
  intros kts. induction kts as [|kt kts IH]; cbn; [done|].
  rewrite <- IH. unfold cancel_task.
  destruct (tasks _ !! kt.2); [|done]. by destruct (cancel _).
Qed.

(** Lines 80-85 when [TimeoutError] leaves the body: every registered
    task is cancelled, the registry and the exit set are cleared, and
    [close_subscribes] returns. *)
Lemma timeout_outcome (w : World) :
  let ws := leave_try (Raise TimeoutError) w in
  ws.2 = Ended (Ret tt) /\ cleared ws.1 /\ callers ws.1 = callers w /\
  released ws.1 = released w /\
  _redis (self ws.1) = _redis (self w) /\
  length (tasks ws.1) = length (tasks w) /\
  (forall t, stopped w t -> stopped ws.1 t) /\
  (forall k t', _subscribes (self w) !! k = Some t' -> (t' < length (tasks w))%nat ->
     stopped ws.1 t').
Proof.
  unfold leave_try, cleared. cbn.
  destruct (cancel_all_stops w) as (Hs & Hc & Hl & Hk & Hin).
  repeat split; try done.
  - apply cancel_all_released.
  - by rewrite Hs.
Qed.

Lemma await_tasks_timer (w : World) (size0 : nat) (tm : timer)
    (keys rest : list string) (n : nat) (t : Task) (tm' : timer) :
  await_tasks w size0 tm keys = AwaitTask rest n t tm' ->
  n = size0 /\ tm' = tm.
Proof.
  induction keys as [|k keys IH]; cbn; case_bool_decide; try done.
  destruct (_ !! k) as [t'|]; [|done].
  destruct (task_result w t') as [[[]|e]|]; [done|done|].
  by intros [= _ -> _ ->].
Qed.

Lemma begin_deadline (w : World) (rest : list string) (n : nat) (t : Task) (tm : timer) :
  (close_subscribes_begin w).2 = AwaitTask rest n t tm ->
  tm = Armed (Qplus (now w) (_subscribes_close_timeout (self w))).
Proof.
  unfold close_subscribes_begin.
  destruct (await_tasks _ _ _ _) as [rest' n' t' tm'|r] eqn:Ha; cbn.
  - intros [= -> -> -> ->]. by apply await_tasks_timer in Ha as [_ ->].
  - by destruct (leave_try_cleared r (exit_flag_subscribes w)) as [_ [r' ->]].
Qed.

Lemma leave_try_no_timeout (r : result unit) (w : World) :
  (leave_try r w).2 <> Ended (Raise TimeoutError).
Proof. unfold leave_try. destruct r as [[]|e]; [|destruct e]; by cbn. Qed.

Lemma shutdown_step_no_timeout (w : World) (ws : World * shutdown) :
  shutdown_step w ws -> ws.2 <> Ended (Raise TimeoutError).
Proof.
  assert (Hc : forall w s, (shutdown_continue w s).2 <> Ended (Raise TimeoutError)).
  { intros w0 [rest size0 t tm|r]; [done|]. apply leave_try_no_timeout. }
  intros [->|[(rest & size0 & t & tm & ->)|(rest & size0 & t & ->)]].
  - apply Hc.
  - unfold close_subscribes_wake. destruct tm as [d| |];
      [| |apply leave_try_no_timeout].
    all: destruct (task_result w t) as [[[]|e]|];
      [apply Hc|apply leave_try_no_timeout|done].
  - by rewrite timeout_step.
Qed.

Lemma resume_caller_step (k : frame -> World -> World * frame) (i : nat) (w : World)
    (f : frame) :
  callers w !! i = Some f ->
  resume_caller k i w = set_callers (<[i := (k f w).2]> (callers (k f w).1)) (k f w).1.
Proof. intros Hi. unfold resume_caller. rewrite Hi. by destruct (k f w). Qed.

Lemma set_callers_id (w : World) (i : nat) (f : frame) :
  callers w !! i = Some f -> set_callers (<[i := f]> (callers w)) w = w.
Proof. intros Hi. rewrite list_insert_id by done. by destruct w. Qed.

(** The timeout fires while a pending task is awaited: the task is asked
    to cancel, and [close_subscribes] stays suspended in line 79. *)
Lemma timer_step (w : World) (i : nat) (rest : list string) (size0 : nat) (t : Task)
    (deadline : Q) (closing : bool) (l : Listener) :
  callers w !! i = Some (InCloseSubscribes rest size0 t (Armed deadline) closing) ->
  Qle_bool deadline (now w) = true ->
  tasks w !! t = Some l -> done l = false ->
  step w (Timer i) =
    set_callers (<[i := InCloseSubscribes rest size0 t Fired closing]> (callers w))
      (set_tasks (<[t := set_must_cancel true l]> (tasks w)) w).
Proof.
  intros Hi Hdl Hl Hpend. cbn [step]. rewrite (resume_caller_step _ _ _ _ Hi).
  cbn [fire]. rewrite Hdl, timeout_step. unfold cancel_task. rewrite Hl.
  unfold cancel, done in *. by destruct (l_pc l).
Qed.

(** [close_subscribes] is resumed after the timeout has fired and the
    awaited task has ended cancelled: lines 80-85 run. *)
Lemma wake_cancelled (w : World) (i : nat) (rest : list string) (size0 : nat)
    (t : Task) (closing : bool) :
  callers w !! i = Some (InCloseSubscribes rest size0 t Fired closing) ->
  task_result w t = Some (Raise CancelledError) ->
  step w (Wake i) =
    let ws := after_shutdown closing (leave_try (Raise TimeoutError) w) in
    set_callers (<[i := ws.2]> (callers ws.1)) ws.1.
Proof.
  intros Hi Hres. cbn [step]. rewrite (resume_caller_step _ _ _ _ Hi).
  cbn [wake]. unfold close_subscribes_wake. by rewrite Hres.
Qed.

Lemma run_task_cancelled (w : World) (t : Task) (l : Listener) :
  tasks w !! t = Some l -> done l = false -> l_must_cancel l = true ->
  propagates_cancel l = true ->
  run_task t w =
    set_self (set_subscribes_exit (_subscribes_exit (self w)) (self w))
      (set_tasks (<[t := set_pc (Done Cancelled) l]> (tasks w)) w).
Proof.
  intros Hl Hpend Hmc Hprop. unfold run_task. rewrite Hl.
  unfold resume, done, propagates_cancel in *. rewrite Hmc.
  destruct (l_pc l) as [|m| |m|o]; try done.
  all: by destruct (cb_cancelled (l_callback l) m).
Qed.

(** C3, as the code has it.  When the timeout of a suspended
    [close_subscribes] fires while the awaited task is pending, that step
    only asks the awaited task to cancel: [close_subscribes] stays
    suspended in line 79, the registry and the exit set are as before, no
    other task is touched, and resuming [close_subscribes] before the
    awaited task has ended changes nothing.  Once the awaited task has
    ended cancelled, the resumption of [close_subscribes] cancels every
    registered task (its cancellation is requested, or it was done
    already), empties the registry and the exit set and returns normally;
    if the awaited task has ended with another exception instead, that
    exception is raised by [close_subscribes].  For a task in which the
    cancellation goes through, the run in which the timeout fires, the task
    is resumed and [close_subscribes] is resumed ends [close_subscribes]
    with a normal return.  No step of [close_subscribes] ends it with
    [TimeoutError].  The deadline of a suspended [close_subscribes] is the
    time of its call plus the timeout of the client, which [__init__] sets
    to 5. *)
Theorem timeout_cancels_and_returns (w : World) (i : nat) (rest : list string)
    (size0 : nat) (t : Task) (deadline : Q) (l : Listener) :
  registry_valid w ->
  callers w !! i = Some (InCloseSubscribes rest size0 t (Armed deadline) false) ->
  Qle_bool deadline (now w) = true ->
  tasks w !! t = Some l -> done l = false ->
  let w1 := step w (Timer i) in
  (callers w1 !! i = Some (InCloseSubscribes rest size0 t Fired false) /\
   self w1 = self w /\
   tasks w1 = <[t := set_must_cancel true l]> (tasks w) /\
   step w1 (Wake i) = w1) /\
  (forall w2 r,
     registry_valid w2 ->
     callers w2 !! i = Some (InCloseSubscribes rest size0 t Fired false) ->
     task_result w2 t = Some (Raise r) ->
     let w3 := step w2 (Wake i) in
     cleared w3 /\
     match r with
     | CancelledError | TimeoutError =>
         callers w3 !! i = Some (Finished (Ret tt)) /\
         (forall k t', _subscribes (self w2) !! k = Some t' -> stopped w3 t')
     | e => callers w3 !! i = Some (Finished (Raise e)) /\ tasks w3 = tasks w2
     end) /\
  (propagates_cancel l = true ->
     let w3 := run [Timer i; Run t; Wake i] w in
     callers w3 !! i = Some (Finished (Ret tt)) /\
     cleared w3 /\
     task_result w3 t = Some (Raise CancelledError) /\
     (forall k t', _subscribes (self w) !! k = Some t' -> stopped w3 t')) /\
  (forall w0 ws, shutdown_step w0 ws -> ws.2 <> Ended (Raise TimeoutError)) /\
  (forall w0 rest0 n0 t0 tm0,
     (close_subscribes_begin w0).2 = AwaitTask rest0 n0 t0 tm0 ->
     tm0 = Armed (Qplus (now w0) (_subscribes_close_timeout (self w0)))) /\
  (forall host port pw prefix kwargs,
     _subscribes_close_timeout (__init__ host port pw prefix kwargs) = 5%Q).
Proof.
  intros Hvalid Hi Hdl Hl Hpend w1.
  assert (Hlt : (t < length (tasks w))%nat) by (by eapply lookup_lt_Some).
  assert (Hilt : (i < length (callers w))%nat) by (by eapply lookup_lt_Some).
  assert (Hw1 : w1 = set_callers
                  (<[i := InCloseSubscribes rest size0 t Fired false]> (callers w))
                  (set_tasks (<[t := set_must_cancel true l]> (tasks w)) w))
    by (by apply (timer_step _ _ _ _ _ deadline)).
  assert (Hrun3 : run [Timer i; Run t; Wake i] w = step (step w1 (Run t)) (Wake i))
    by reflexivity.
  clearbody w1.
  assert (Hi1 : callers w1 !! i = Some (InCloseSubscribes rest size0 t Fired false)).
  { rewrite Hw1. cbn. by apply list_lookup_insert_eq. }
  assert (Hl1 : tasks w1 !! t = Some (set_must_cancel true l)).
  { rewrite Hw1. cbn. by apply list_lookup_insert_eq. }
  assert (Hwake : forall w2 r,
     registry_valid w2 ->
     callers w2 !! i = Some (InCloseSubscribes rest size0 t Fired false) ->
     task_result w2 t = Some (Raise r) ->
     let w3 := step w2 (Wake i) in
     cleared w3 /\
     match r with
     | CancelledError | TimeoutError =>
         callers w3 !! i = Some (Finished (Ret tt)) /\
         (forall k t', _subscribes (self w2) !! k = Some t' -> stopped w3 t')
     | e => callers w3 !! i = Some (Finished (Raise e)) /\ tasks w3 = tasks w2
     end).
  { intros w2 r Hv2 Hi2 Hres w3. subst w3. cbn [step].
    rewrite (resume_caller_step _ _ _ _ Hi2). cbn [wake].
    unfold close_subscribes_wake. rewrite Hres.
    assert (Hilt2 : (i < length (callers w2))%nat) by (by eapply lookup_lt_Some).
    destruct (timeout_outcome w2) as (Hend & Hcl & Hcal & _ & _ & _ & _ & Hreg).
    assert (Hforced :
      let ws := after_shutdown false (leave_try (Raise TimeoutError) w2) in
      let w3 := set_callers (<[i := ws.2]> (callers ws.1)) ws.1 in
      cleared w3 /\ callers w3 !! i = Some (Finished (Ret tt)) /\
      (forall k t', _subscribes (self w2) !! k = Some t' -> stopped w3 t')).
    { destruct (leave_try (Raise TimeoutError) w2) as [w' s]. cbn in *. subst s. cbn.
      split; [done|]. split.
      - rewrite Hcal. by apply list_lookup_insert_eq.
      - intros k t' Hk. apply (Hreg k t' Hk). by eapply Hv2. }
    destruct r; cbn [timeout_exit]; try exact Hforced.
    all: unfold leave_try; cbn; split; [done|]; split; [|done].
    all: by apply list_lookup_insert_eq. }
  split; [|split; [exact Hwake|split; [|split; [|split]]]].
  - split; [done|]. split; [by rewrite Hw1|]. split; [by rewrite Hw1|].
    cbn [step]. rewrite (resume_caller_step _ _ _ _ Hi1). cbn [wake].
    unfold close_subscribes_wake, task_result. rewrite Hl1. cbn.
    unfold done in Hpend. destruct (l_pc l); try done.
    all: cbn; by apply set_callers_id.
  - intros Hprop w3. subst w3. rewrite Hrun3.
    assert (Hrun : step w1 (Run t) =
      set_self (set_subscribes_exit (_subscribes_exit (self w1)) (self w1))
        (set_tasks (<[t := set_pc (Done Cancelled) (set_must_cancel true l)]>
                      (tasks w1)) w1)).
    { cbn [step]. by apply run_task_cancelled. }
    set (w2 := step w1 (Run t)) in *. clearbody w2.
    assert (Hres : task_result w2 t = Some (Raise CancelledError)).
    { unfold task_result. rewrite Hrun. cbn.
      rewrite list_lookup_insert_eq; [done|].
      rewrite Hw1. cbn. by rewrite length_insert. }
    assert (Hv2 : registry_valid w2).
    { intros k t' Hk. rewrite Hrun in Hk |- *. cbn in *.
      rewrite Hw1 in Hk |- *. cbn in *. rewrite !length_insert. by eapply Hvalid. }
    assert (Hi2 : callers w2 !! i
                  = Some (InCloseSubscribes rest size0 t Fired false))
      by (by rewrite Hrun).
    destruct (Hwake w2 CancelledError Hv2 Hi2 Hres) as (Hcl & Hret & Hst).
    assert (Htasks : tasks (step w2 (Wake i)) !! t
                     = Some (set_pc (Done Cancelled) (set_must_cancel true l))).
    { rewrite (wake_cancelled _ _ _ _ _ _ Hi2 Hres). cbn.
      unfold cancel_all.
      assert (Hkeep : forall (kts : list (string * Task)) (w0 : World),
        tasks w0 !! t = Some (set_pc (Done Cancelled) (set_must_cancel true l)) ->
        tasks (foldr (fun kt w' => (cancel_task kt.2 w').2) w0 kts) !! t
        = Some (set_pc (Done Cancelled) (set_must_cancel true l))).
      { intros kts w0 H0. induction kts as [|kt kts IH]; [done|]. cbn.
        rewrite cancel_task_tasks.
        destruct (tasks _ !! kt.2) as [l0|] eqn:Hl0; [|done].
        destruct (decide (kt.2 = t)) as [Heq|Hne].
        - rewrite Heq in Hl0 |- *. rewrite IH in Hl0. simplify_eq.
          rewrite list_lookup_insert_eq by (by eapply lookup_lt_Some). done.
        - by rewrite list_lookup_insert_ne. }
      apply Hkeep. rewrite Hrun. cbn.
      rewrite list_lookup_insert_eq; [done|].
      rewrite Hw1. cbn. by rewrite length_insert. }
    repeat split; try done.
    + apply Hcl.
    + apply Hcl.
    + unfold task_result. by rewrite Htasks.
    + intros k t' Hk. apply (Hst k). by rewrite Hrun, Hw1.
  - apply shutdown_step_no_timeout.
  - apply begin_deadline.
  - done.
Qed.

(** *** The registry names tasks of the world *)

Lemma shutdown_step_registry (w : World) (ws : World * shutdown) :
  shutdown_step w ws ->
  _subscribes (self ws.1) = ∅ \/
  (_subscribes (self ws.1) = _subscribes (self w) /\
   length (tasks ws.1) = length (tasks w)).
Proof.
  intros Hstep. pose proof (shutdown_step_cleared w ws Hstep) as Hcl.
  destruct ws as [w' [rest n t d|r]]; cbn in *; [|left; apply Hcl].
  right. destruct Hstep as [Heq|[(rest0 & n0 & t0 & d0 & Heq)|(rest0 & n0 & t0 & Heq)]].
  - unfold close_subscribes_begin in Heq.
    destruct (await_tasks _ _ _ _) as [? ? ? ?|r]; cbn in Heq.
    + by simplify_eq.
    + by destruct (leave_try_cleared r (exit_flag_subscribes w)) as [_ [r' Hr]];
        rewrite <- Heq in Hr.
  - unfold close_subscribes_wake in Heq.
    assert (Hl : forall r, (w', AwaitTask rest n t d) <> leave_try r w).
    { intros r Hr. destruct (leave_try_cleared r w) as [_ [r' Hr']].
      by rewrite <- Hr in Hr'. }
    destruct d0 as [d0| |]; [| |by apply Hl in Heq].
    all: destruct (task_result w t0) as [[[]|e]|]; [|by apply Hl in Heq|by simplify_eq].
    all: destruct (await_tasks _ _ _ _) as [? ? ? ?|r]; cbn in Heq;
      [by simplify_eq|by apply Hl in Heq].
  - rewrite timeout_step in Heq. simplify_eq.
    by rewrite cancel_task_self, cancel_task_length.
Qed.

Lemma after_shutdown_registry (closing : bool) (ws : World * shutdown) :
  self (after_shutdown closing ws).1 = self ws.1 /\
  tasks (after_shutdown closing ws).1 = tasks ws.1.
Proof.
  destruct ws as [w [rest n t d|r]]; cbn; [done|].
  destruct closing; [|done]. unfold close_after.
  destruct r as [[]|e]; [|done]. case_bool_decide; [|done].
  by destruct (_redis (self w)).
Qed.

Lemma valid_after_shutdown (closing : bool) (w : World) (ws : World * shutdown) :
  shutdown_step w ws -> registry_valid w ->
  registry_valid (after_shutdown closing ws).1.
Proof.
  intros Hstep Hv k t.
  destruct (after_shutdown_registry closing ws) as [-> ->].
  destruct (shutdown_step_registry w ws Hstep) as [->|[-> ->]]; [done|apply Hv].
Qed.

Lemma valid_set_callers (cs : list frame) (w : World) :
  registry_valid w -> registry_valid (set_callers cs w).
Proof. done. Qed.

Lemma step_valid (w : World) (a : action) :
  registry_valid w -> registry_valid (step w a).
Proof.
  intros Hv. destruct a as [d|t m|t|c|c|i|i|t e]; cbn [step].
  - by destruct (Qle_bool 0 d).
  - destruct (tasks w !! t); [|done].
    intros k t' Hk. cbn. rewrite length_insert. by eapply Hv.
  - unfold run_task. destruct (tasks w !! t) as [l|]; [|done].
    destruct (resume _ _ l). intros k t' Hk. cbn in *.
    rewrite length_insert. by eapply Hv.
  - destruct c; cbn; try done.
    + destruct (open_registry from_url w) as (Hr & _ & Ht & _).
      intros k t' Hk. rewrite Hr in Hk. rewrite Ht. by eapply Hv.
    + unfold get_subscribe_task. by destruct (_ !! channel).
    + unfold cancel_subscribe_task. destruct (_ !! channel) as [t|]; [|done].
      pose proof (cancel_task_self t w) as Hs.
      pose proof (cancel_task_length t w) as Hl.
      destruct (cancel_task t w) as [b w']. cbn in *.
      intros k t' Hk. rewrite Hs in Hk. rewrite Hl. by eapply Hv.
  - destruct c as [| |channel|channel callback]; cbn [start].
    + pose proof (valid_after_shutdown false w _ (or_introl eq_refl) Hv) as Hv'.
      by destruct (after_shutdown _ _).
    + unfold close_begin. destruct (_redis (self w)); [|done].
      pose proof (valid_after_shutdown true w _ (or_introl eq_refl) Hv) as Hv'.
      by destruct (after_shutdown _ _).
    + unfold wait_subscribe_begin. by destruct (_ !! channel).
    + unfold subscribe_begin. by destruct (Config.redis (self w)).
  - unfold resume_caller. destruct (callers w !! i) as [f|]; [|done].
    destruct f as [rest n t d closing| |t|channel callback|r]; cbn [wake]; try done.
    + assert (Hstep : shutdown_step w (close_subscribes_wake w rest n t d))
        by (right; left; eauto).
      pose proof (valid_after_shutdown closing w _ Hstep Hv) as Hv'.
      by destruct (after_shutdown _ _).
    + intros k t' Hk. cbn in *. rewrite length_app. cbn.
      apply lookup_insert_Some in Hk as [[_ <-]|[_ Hk]]; [lia|].
      apply Hv in Hk. lia.
  - unfold resume_caller. destruct (callers w !! i) as [f|]; [|done].
    destruct f as [rest n t [d| |] closing| |t|channel callback|r]; cbn [fire]; try done.
    destruct (Qle_bool d (now w)); [|done].
    assert (Hstep : shutdown_step w (close_subscribes_timeout w rest n t))
      by (right; right; eauto).
    pose proof (valid_after_shutdown closing w _ Hstep Hv) as Hv'.
    by destruct (after_shutdown _ _).
  - destruct (tasks w !! t); [|done].
    intros k t' Hk. cbn. rewrite length_insert. by eapply Hv.
Qed.

Lemma run_valid (acts : list action) (w : World) :
  registry_valid w -> registry_valid (run acts w).
Proof.
  revert w. induction acts as [|a acts IH]; intros w Hv; [done|].
  cbn. apply IH. by apply step_valid.
Qed.

Lemma reachable_valid (acts : list action) (host : string) (port : Z)
    (pw prefix : option string) (kwargs : gmap string pyvalue) :
  registry_valid (run acts (init (__init__ host port pw prefix kwargs))).
Proof. apply run_valid. intros k t Hk. by cbn in Hk. Qed.

(** *** close *)

Lemma leave_try_frame (r : result unit) (w : World) :
  _redis (self (leave_try r w).1) = _redis (self w) /\
  released (leave_try r w).1 = released w.
Proof.
  destruct (cancel_all_stops w) as (Hs & _).
  unfold leave_try. destruct r as [[]|e]; [|destruct e]; cbn; try done.
  by rewrite Hs, cancel_all_released.
Qed.

Lemma shutdown_continue_frame (w : World) (s : shutdown) :
  _redis (self (shutdown_continue w s).1) = _redis (self w) /\
  released (shutdown_continue w s).1 = released w.
Proof. destruct s; [done|]. apply leave_try_frame. Qed.

Lemma cancel_task_released (t : Task) (w : World) :
  released (cancel_task t w).2 = released w.
Proof.
  unfold cancel_task. destruct (tasks w !! t) as [l|]; [|done].
  by destruct (cancel l).
Qed.

Lemma shutdown_step_frame (w : World) (ws : World * shutdown) :
  shutdown_step w ws ->
  _redis (self ws.1) = _redis (self w) /\ released ws.1 = released w.
Proof.
  intros [->|[(rest & size0 & t & tm & ->)|(rest & size0 & t & ->)]].
  - unfold close_subscribes_begin.
    by destruct (shutdown_continue_frame (exit_flag_subscribes w)
                   (await_tasks (exit_flag_subscribes w)
                      (size (_subscribes (self (exit_flag_subscribes w))))
                      (Armed (Qplus (now (exit_flag_subscribes w))
                         (_subscribes_close_timeout (self (exit_flag_subscribes w)))))
                      (get_subscribe_channels (exit_flag_subscribes w)))).
  - unfold close_subscribes_wake. destruct tm as [d| |]; [| |apply leave_try_frame].
    all: destruct (task_result w t) as [[[]|e]|];
      [apply shutdown_continue_frame|apply leave_try_frame|done].
  - rewrite timeout_step. cbn. by rewrite cancel_task_self, cancel_task_released.
Qed.





End ClientFacts.

(** ** The tasks of the client are runs of the listener *)

Section Link.
Import Listener Client.
Variable tick : Q.
#[local] Abbreviation evolves := (Client.evolves tick).
#[local] Abbreviation descends := (Client.descends tick).
#[local] Abbreviation tasks_evolve := (Client.tasks_evolve tick).

Lemma evolves_refl (l : Listener) : evolves l l.
Proof. by exists ∅, []. Qed.

Lemma evolves_one (exit : gset string) (a : Listener.action) (l : Listener) :
  evolves l (Listener.step tick (l, exit) a).1.
Proof. by exists exit, [a]. Qed.

Lemma evolves_trans (l1 l2 l3 : Listener) :
  evolves l1 l2 -> evolves l2 l3 -> evolves l1 l3.
Proof.
  intros (e1 & xs & ->) (e2 & ys & ->).
  exists e1, (xs ++ SetExit e2 :: ys).
  rewrite run_app. cbn. by destruct (Listener.run tick xs (l1, e1)).
Qed.

Lemma tasks_evolve_refl (ts : list Listener) : tasks_evolve ts ts.
Proof. intros t l' Hl. left. exists l'. split; [done|apply evolves_refl]. Qed.

Lemma tasks_evolve_trans (ts1 ts2 ts3 : list Listener) :
  tasks_evolve ts1 ts2 -> tasks_evolve ts2 ts3 -> tasks_evolve ts1 ts3.
Proof.
  intros H12 H23 t l3 Hl3.
  destruct (H23 t l3 Hl3) as [(l2 & Hl2 & He23)|Hnew]; [|by right].
  destruct (H12 t l2 Hl2) as [(l1 & Hl1 & He12)|(key & cb & Hd)].
  - left. exists l1. split; [done|]. by eapply evolves_trans.
  - right. exists key, cb. by eapply evolves_trans.
Qed.

Lemma tasks_evolve_insert (ts : list Listener) (t0 : nat) (l0 l0' : Listener) :
  ts !! t0 = Some l0 -> evolves l0 l0' -> tasks_evolve ts (<[t0 := l0']> ts).
Proof.
  intros Hl0 He t l' Hl'. left.
  destruct (decide (t0 = t)) as [<-|Hne].
  - rewrite list_lookup_insert_eq in Hl' by (by eapply lookup_lt_Some).
    simplify_eq. by exists l0.
  - rewrite list_lookup_insert_ne in Hl' by done.
    exists l'. split; [done|apply evolves_refl].
Qed.

Lemma tasks_evolve_spawn (ts : list Listener) (key : string) (callback : Callback) :
  tasks_evolve ts (ts ++ [spawn key callback true]).
Proof.
  intros t l' Hl'. apply lookup_app_Some in Hl' as [Hl'|[_ Hl']].
  - left. exists l'. split; [done|apply evolves_refl].
  - right. exists key, callback.
    apply list_lookup_singleton_Some in Hl' as [_ <-]. apply evolves_refl.
Qed.

Lemma cancel_task_evolve (t0 : nat) (w : World) :
  tasks_evolve (tasks w) (tasks (cancel_task t0 w).2).
Proof.
  rewrite cancel_task_tasks. destruct (tasks w !! t0) as [l0|] eqn:Hl0.
  - apply (tasks_evolve_insert _ _ l0); [done|].
    apply (evolves_one ∅ Cancel).
  - apply tasks_evolve_refl.
Qed.

Lemma cancel_all_evolve (w : World) :
  tasks_evolve (tasks w) (tasks (cancel_all w)).
Proof.
  unfold cancel_all. generalize (map_to_list (_subscribes (self w))).
  intros kts. induction kts as [|kt kts IH]; cbn; [apply tasks_evolve_refl|].
  eapply tasks_evolve_trans; [exact IH|apply cancel_task_evolve].
Qed.

Lemma leave_try_evolve (r : result unit) (w : World) :
  tasks_evolve (tasks w) (tasks (leave_try r w).1).
Proof.
  unfold leave_try. destruct r as [[]|e]; [|destruct e]; cbn;
    try apply tasks_evolve_refl.
  apply cancel_all_evolve.
Qed.

Lemma shutdown_step_evolve (w : World) (ws : World * shutdown) :
  shutdown_step w ws -> tasks_evolve (tasks w) (tasks ws.1).
Proof.
  intros [->|[(rest & size0 & t & tm & ->)|(rest & size0 & t & ->)]].
  - unfold close_subscribes_begin, shutdown_continue.
    destruct (await_tasks _ _ _ _); [apply tasks_evolve_refl|].
    apply (leave_try_evolve r (exit_flag_subscribes w)).
  - unfold close_subscribes_wake, shutdown_continue.
    destruct tm as [d| |]; [| |apply leave_try_evolve].
    all: destruct (task_result w t) as [[[]|e]|];
      [|apply leave_try_evolve|apply tasks_evolve_refl].
    all: destruct (await_tasks _ _ _ _); [apply tasks_evolve_refl|].
    all: apply leave_try_evolve.
  - rewrite timeout_step. apply cancel_task_evolve.
Qed.

Lemma after_shutdown_evolve (closing : bool) (w : World) (ws : World * shutdown) :
  shutdown_step w ws -> tasks_evolve (tasks w) (tasks (after_shutdown closing ws).1).
Proof.
  intros Hstep. destruct (after_shutdown_registry closing ws) as [_ ->].
  by apply shutdown_step_evolve.
Qed.

Lemma step_evolve (w : World) (a : Client.action) :
  _subscribes_tick (self w) = tick ->
  tasks_evolve (tasks w) (tasks (Client.step w a)).
Proof.
  intros Htick. destruct a as [d|t m|t|c|c|i|i|t e]; cbn [Client.step].
  8:{ destruct (tasks w !! t) as [l|] eqn:Hl; [|apply tasks_evolve_refl].
      cbn. apply (tasks_evolve_insert _ _ l); [done|].
      apply (evolves_one ∅ (Listener.Break e)). }
  - destruct (Qle_bool 0 d); apply tasks_evolve_refl.
  - destruct (tasks w !! t) as [l|] eqn:Hl; [|apply tasks_evolve_refl].
    cbn. apply (tasks_evolve_insert _ _ l); [done|].
    apply (evolves_one ∅ (Listener.Arrive m)).
  - unfold run_task. destruct (tasks w !! t) as [l|] eqn:Hl; [|apply tasks_evolve_refl].
    destruct (resume _ _ l) as [l' exit'] eqn:Hr. cbn.
    apply (tasks_evolve_insert _ _ l); [done|].
    exists (_subscribes_exit (self w)), [Resume]. cbn. by rewrite <- Htick, Hr.
  - destruct c; cbn; try apply tasks_evolve_refl.
    + destruct (open_registry from_url w) as (_ & _ & -> & _).
      apply tasks_evolve_refl.
    + unfold get_subscribe_task. destruct (_ !! channel); apply tasks_evolve_refl.
    + unfold cancel_subscribe_task.
      destruct (_ !! channel) as [t|]; [|apply tasks_evolve_refl].
      pose proof (cancel_task_evolve t w) as He.
      by destruct (cancel_task t w).
  - destruct c as [| |channel|channel callback]; cbn [start].
    + pose proof (after_shutdown_evolve false w _ (or_introl eq_refl)) as He.
      by destruct (after_shutdown _ _).
    + unfold close_begin. destruct (_redis (self w)); [|apply tasks_evolve_refl].
      pose proof (after_shutdown_evolve true w _ (or_introl eq_refl)) as He.
      by destruct (after_shutdown _ _).
    + unfold wait_subscribe_begin. destruct (_ !! channel); apply tasks_evolve_refl.
    + unfold subscribe_begin. destruct (Config.redis (self w)); apply tasks_evolve_refl.
  - unfold resume_caller. destruct (callers w !! i) as [f|]; [|apply tasks_evolve_refl].
    destruct f as [rest n t d closing| |t|channel callback|r]; cbn [wake];
      try apply tasks_evolve_refl.
    + assert (Hstep : shutdown_step w (close_subscribes_wake w rest n t d))
        by (right; left; eauto).
      pose proof (after_shutdown_evolve closing w _ Hstep) as He.
      by destruct (after_shutdown _ _).
    + cbn. apply tasks_evolve_spawn.
  - unfold resume_caller. destruct (callers w !! i) as [f|]; [|apply tasks_evolve_refl].
    destruct f as [rest n t [d| |] closing| |t|channel callback|r]; cbn [fire];
      try apply tasks_evolve_refl.
    destruct (Qle_bool d (now w)); [|apply tasks_evolve_refl].
    assert (Hstep : shutdown_step w (close_subscribes_timeout w rest n t))
      by (right; right; eauto).
    pose proof (after_shutdown_evolve closing w _ Hstep) as He.
    by destruct (after_shutdown _ _).
Qed.

Lemma cancel_all_self (w : World) : self (cancel_all w) = self w.
Proof. by destruct (cancel_all_stops w) as [-> _]. Qed.

Lemma leave_try_tick (r : result unit) (w : World) :
  _subscribes_tick (self (leave_try r w).1) = _subscribes_tick (self w).
Proof.
  unfold leave_try. destruct r as [[]|e]; [|destruct e]; cbn; try done.
  by rewrite cancel_all_self.
Qed.

Lemma shutdown_step_tick (w : World) (ws : World * shutdown) :
  shutdown_step w ws ->
  _subscribes_tick (self ws.1) = _subscribes_tick (self w).
Proof.
  intros [->|[(rest & size0 & t & tm & ->)|(rest & size0 & t & ->)]].
  - unfold close_subscribes_begin, shutdown_continue.
    destruct (await_tasks _ _ _ _); [done|].
    by rewrite leave_try_tick.
  - unfold close_subscribes_wake, shutdown_continue.
    destruct tm as [d| |]; [| |apply leave_try_tick].
    all: destruct (task_result w t) as [[[]|e]|]; [|apply leave_try_tick|done].
    all: destruct (await_tasks _ _ _ _); [done|]; apply leave_try_tick.
  - rewrite timeout_step. cbn. by rewrite cancel_task_self.
Qed.

Lemma after_shutdown_tick (closing : bool) (w : World) (ws : World * shutdown) :
  shutdown_step w ws ->
  _subscribes_tick (self (after_shutdown closing ws).1) = _subscribes_tick (self w).
Proof.
  intros Hstep. destruct (after_shutdown_registry closing ws) as [-> _].
  by apply shutdown_step_tick.
Qed.

Lemma step_tick (w : World) (a : Client.action) :
  _subscribes_tick (self (Client.step w a)) = _subscribes_tick (self w).
Proof.
  destruct a as [d|t m|t|c|c|i|i|t e]; cbn [Client.step].
  8:{ by destruct (tasks w !! t). }
  - by destruct (Qle_bool 0 d).
  - by destruct (tasks w !! t).
  - unfold run_task. destruct (tasks w !! t) as [l|]; [|done].
    by destruct (resume _ _ l).
  - destruct c; cbn; try done.
    + unfold open. destruct (Config.open from_url (self w)) as [c|e] eqn:Ho; [|done].
      by apply open_ret in Ho as [handle ->].
    + unfold get_subscribe_task. by destruct (_ !! channel).
    + unfold cancel_subscribe_task. destruct (_ !! channel) as [t|]; [|done].
      pose proof (cancel_task_self t w) as Hs.
      destruct (cancel_task t w). cbn in *. by rewrite Hs.
  - destruct c as [| |channel|channel callback]; cbn [start].
    + pose proof (after_shutdown_tick false w _ (or_introl eq_refl)) as He.
      by destruct (after_shutdown _ _).
    + unfold close_begin. destruct (_redis (self w)); [|done].
      pose proof (after_shutdown_tick true w _ (or_introl eq_refl)) as He.
      by destruct (after_shutdown _ _).
    + unfold wait_subscribe_begin. by destruct (_ !! channel).
    + unfold subscribe_begin. by destruct (Config.redis (self w)).
  - unfold resume_caller. destruct (callers w !! i) as [f|]; [|done].
    destruct f as [rest n t d closing| |t|channel callback|r]; cbn [wake]; try done.
    assert (Hstep : shutdown_step w (close_subscribes_wake w rest n t d))
      by (right; left; eauto).
    pose proof (after_shutdown_tick closing w _ Hstep) as He.
    by destruct (after_shutdown _ _).
  - unfold resume_caller. destruct (callers w !! i) as [f|]; [|done].
    destruct f as [rest n t [d| |] closing| |t|channel callback|r]; cbn [fire]; try done.
    destruct (Qle_bool d (now w)); [|done].
    assert (Hstep : shutdown_step w (close_subscribes_timeout w rest n t))
      by (right; right; eauto).
    pose proof (after_shutdown_tick closing w _ Hstep) as He.
    by destruct (after_shutdown _ _).
Qed.

Lemma run_descend (acts : list Client.action) (w : World) :
  _subscribes_tick (self w) = tick ->
  (forall t l, tasks w !! t = Some l -> descends l) ->
  forall t l, tasks (Client.run acts w) !! t = Some l -> descends l.
Proof.
  revert w. induction acts as [|a acts IH]; intros w Htick Hw; [done|].
  cbn. apply IH; [by rewrite step_tick|].
  intros t l' Hl'. destruct (step_evolve w a Htick t l' Hl') as [(l & Hl & He)|Hd];
    [|done].
  destruct (Hw t l Hl) as (key & cb & Hd). exists key, cb. by eapply evolves_trans.
Qed.

End Link.

(** X25: Every task of a world reached from a fresh client is a listener
    spawned by [subscribe] that went through actions of the listener model;
    so its trace is single-flight and its callback was invoked on the
    messages fetched, in order. *)
Lemma reachable_tasks_single_flight (acts : list Client.action) (host : string)
    (port : Z) (pw prefix : option string) (kwargs : gmap string pyvalue)
    (t : nat) (l : Listener.Listener) :
  Client.tasks (Client.run acts (Client.init (__init__ host port pw prefix kwargs)))
    !! t = Some l ->
  Listener.single_flight (Listener.l_trace l) = true /\
  Listener.fetched (Listener.l_trace l) =
    Listener.delivered (Listener.l_trace l)
      ++ Listener.pending (Listener.monitor (Listener.l_trace l)).
Proof.
  intros Hl.
  destruct (run_descend 1%Q acts (Client.init (__init__ host port pw prefix kwargs))
              eq_refl) with (t := t) (l := l) as (key & cb & exit & lacts & ->);
    [by intros t' l' Hl'; cbn in Hl'|done|].
  destruct (run_inv 1%Q lacts [] (Listener.spawn key cb true, exit)
              (spawn_inv key cb true)) as (Hc & Hf & _).
  split; [by apply consistent_single_flight|done].
Qed.

(** ** The theorems at work on concrete runs *)

Section Runs.
Import Listener Client Scenario.

(** The pub/sub test: a message arrives, [close] is called, the listener
    delivers the message, sees the flag, drains and returns; [close] then
    releases the connection and marks the client closed. *)
Example graceful_close :
  let w := Client.run
             [Arrive 0%nat (msg "value"); Start Close; Run 0%nat; Run 0%nat;
              Run 0%nat; Wake 1%nat; Wake 1%nat] (subscribed reader) in
  callers w !! 1%nat = Some (Finished (Ret tt)) /\
  Config.is_open (self w) = false /\
  released w = [conn] /\
  (l_pc <$> tasks w) = [Done Returned] /\
  (completed ∘ l_trace <$> tasks w) = [[msg "value"]] /\
  map_to_list (_subscribes (self w)) = [].
Proof. vm_compute. repeat split; reflexivity. Qed.

(** The callback of the listener runs for longer than the timeout: the
    timeout fires, the listener is cancelled in its callback, and once it
    has ended [close] goes on and closes the client. *)
Example forced_close :
  let w := Client.run [Timer 1%nat; Run 0%nat; Wake 1%nat; Wake 1%nat]
             stalled_close in
  callers w !! 1%nat = Some (Finished (Ret tt)) /\
  Config.is_open (self w) = false /\
  released w = [conn] /\
  (l_pc <$> tasks w) = [Done Cancelled] /\
  map_to_list (_subscribes (self w)) = [].
Proof. vm_compute. repeat split; reflexivity. Qed.

End Runs.

Lemma shutdown_clears_registry_witness :
  Client.cleared (Client.close_subscribes_begin Scenario.failed).1 /\
  dom (_subscribes (Client.self (Scenario.subscribed Scenario.reader)))
    ⊆ dom (_subscribes (Client.self
             (Client.step (Scenario.subscribed Scenario.reader)
                (Client.Call Client.CallExitFlagSubscribes)))).
Proof.
  destruct shutdown_clears_registry as (Hclear & Hkeep & _).
  split.
  - pose proof (Hclear Scenario.failed (Client.close_subscribes_begin Scenario.failed)
                  (or_introl eq_refl)) as Hc.
    assert (Hend : (Client.close_subscribes_begin Scenario.failed).2
                   = Client.Ended (Raise NotImplementedError))
      by (vm_compute; reflexivity).
    rewrite Hend in Hc. exact Hc.
  - apply Hkeep. simpl. intros [].
Defined.

Lemma stalled_valid : Client.registry_valid Scenario.stalled.
Proof.
  apply (run_valid [Client.Start Client.CloseSubscribes; Client.Advance 5%Q]).
  apply (run_valid [Client.Arrive 0%nat (Scenario.msg "a"); Client.Run 0%nat]).
  apply (reachable_valid
           [Client.Call (Client.CallOpen Scenario.connect);
            Client.Start (Client.Subscribe "channel:1" Scenario.reader);
            Client.Wake 0%nat]).
Qed.

Lemma timeout_cancels_and_returns_witness :
  let w1 := Client.step Scenario.stalled (Client.Timer 1) in
  let w3 := Client.run [Client.Timer 1; Client.Run 0; Client.Wake 1] Scenario.stalled in
  Client.callers w1 !! 1%nat
    = Some (Client.InCloseSubscribes [] 1 0 Client.Fired false) /\
  Client.callers w3 !! 1%nat = Some (Client.Finished (Ret tt)) /\
  Client.stopped w3 0%nat /\
  Client.cleared w3.
Proof.
  destruct (timeout_cancels_and_returns Scenario.stalled 1 [] 1 0 5%Q
              Scenario.in_callback)
    as ((Hsusp & _) & _ & Hrun & _).
  - exact stalled_valid.
  - vm_compute. reflexivity.
  - vm_compute. reflexivity.
  - vm_compute. reflexivity.
  - reflexivity.
  - destruct (Hrun eq_refl) as (Hret & Hcl & _ & Hst).
    split; [exact Hsusp|]. split; [exact Hret|]. split; [|exact Hcl].
    apply (Hst "channel:1"). vm_compute. reflexivity.
Defined.

(** C3 as stated fails: when the timeout fires, [close_subscribes] does
    not return.  Five time units after its call, with the listener still in
    its callback, the step of the timeout leaves [close_subscribes]
    suspended in line 79 and the channel registered; it goes on waiting for
    the listener, and resuming it changes nothing as long as the listener
    has not ended. *)
Lemma timeout_does_not_end_shutdown :
  let w := Client.step Scenario.stalled (Client.Timer 1) in
  Client.now w = 5%Q /\
  Client.callers w !! 1%nat
    = Some (Client.InCloseSubscribes [] 1 0 Client.Fired false) /\
  _subscribes (Client.self w) !! "channel:1" = Some 0%nat /\
  Client.task_result w 0%nat = None /\
  Client.step w (Client.Wake 1) = w /\
  Client.step (Client.step w (Client.Advance 2%Q)) (Client.Wake 1)
    = Client.step w (Client.Advance 2%Q).
Proof. vm_compute. repeat split; reflexivity. Qed.



Lemma unknown_channel_raises_key_error_witness :
  Client.get_subscribe_task "channel:2" (Scenario.subscribed Scenario.reader)
    = (Raise (KeyError "channel:2"), Scenario.subscribed Scenario.reader) /\
  Client.cancel_subscribe_task "channel:2" (Scenario.subscribed Scenario.reader)
    = (Raise (KeyError "channel:2"), Scenario.subscribed Scenario.reader) /\
  Client.start (Client.WaitSubscribe "channel:2") (Scenario.subscribed Scenario.reader)
    = (Scenario.subscribed Scenario.reader,
       Client.Finished (Raise (KeyError "channel:2"))).
Proof.
  destruct (unknown_channel_raises_key_error
              (Scenario.subscribed Scenario.reader) "channel:2")
    as (Hget & Hcancel & Hwait & _).
  - vm_compute. reflexivity.
  - split; [exact Hget|]. split; [exact Hcancel | exact Hwait].
Defined.

(** ** How a listener lives and ends *)

Section LifecycleFacts.
Import Listener Lifecycle.
Variable tick : Q.

Lemma flagged_mono (key : string) (exit0 : gset string) (acts : list action) (a : action) :
  flagged key exit0 acts -> flagged key exit0 (acts ++ [a]).
Proof.
  intros [H|(exit & Hin & Hk)]; [by left|right].
  exists exit. split; [|done]. apply elem_of_app. by left.
Qed.

Lemma cause_mono (callback : Callback) (acts : list action) (a : action) (l : Listener) :
  cause callback acts l -> cause callback (acts ++ [a]) l.
Proof.
  unfold cause. destruct (l_pc l) as [| | | |[]]; try done.
  - intros [H|[(m & Hm & [H|[Hc H]])|H]]; [by left| | |].
    + right. left. exists m. split; [done|]. by left.
    + right. left. exists m. split; [done|]. right. split; [|done].
      apply elem_of_app. by left.
    + right. right. apply elem_of_app. by left.
  - intros H. apply elem_of_app. by left.
Qed.

Lemma step_lifecycle (key : string) (callback : Callback) (exit0 : gset string)
    (acts : list action) (st : Listener * gset string) (a : action) :
  lifecycle_inv key callback exit0 acts st ->
  lifecycle_inv key callback exit0 (acts ++ [a]) (step tick st a).
Proof.
  destruct st as [l exit]. destruct a as [m| | |exit'|e]; cbn [step fst snd].
  - unfold lifecycle_inv, arrive. cbn.
    intros (Hk & Hcb & Hmc & Hc & He & Hx). repeat split; try done.
    + intros H. apply elem_of_app. left. auto.
    + by apply (cause_mono _ _ _ l).
    + intros H. apply flagged_mono. auto.
    + intros H. apply flagged_mono. auto.
  - destruct l as [k channel [kind out canc] flush p mc tr].
    unfold lifecycle_inv, cause, resume, main_message, flush_message, main_after,
      flush_after, checkpoint, flush_loop, get_message, invoke, callback_done,
      callback_caught.
    cbn. intros (Hk & Hcb & Hmc & Hc & He & Hx). subst k callback. cbn in *.
    assert (Hfl : forall P : Prop, flagged key exit0 acts -> P \/ flagged key exit0 (acts ++ [Resume]))
      by (intros P H; right; by apply flagged_mono).
    destruct p as [| | | |o]; cbn.
    5:{ repeat split; try done.
        - intros H. apply elem_of_app. left. auto.
        - destruct o; try done.
          + destruct Hc as [H|[(m & Hm & [H|[Hcc H]])|H]]; [by left| | |].
            * right. left. exists m. split; [done|]. by left.
            * right. left. exists m. split; [done|]. right. split; [|done].
              apply elem_of_app. by left.
            * right. right. apply elem_of_app. by left.
          + apply elem_of_app. by left.
        - intros H. apply flagged_mono. auto.
        - intros H. apply flagged_mono. auto. }
    all: destruct mc; cbn.
    all: repeat (case_match; simplify_eq/=).
    all: repeat split; try done.
    all: rewrite ?elem_of_app, ?elem_of_cons, ?elem_of_nil, ?not_elem_of_app,
           ?not_elem_of_cons.
    all: try (intros H; apply flagged_mono).
    all: try case_bool_decide.
    all: try set_solver.
    all: try naive_solver.
  - destruct l as [k channel cb flush p mc tr].
    unfold lifecycle_inv, cancel. cbn.
    intros (Hk & Hcb & Hmc & Hc & He & Hx).
    apply (cause_mono _ _ Cancel) in Hc. unfold cause in *. cbn in *.
    destruct p as [| | | |[]]; cbn; repeat split; try done.
    all: rewrite ?elem_of_app, ?list_elem_of_singleton.
    all: try (intros H; apply flagged_mono).
    all: naive_solver.
  - unfold lifecycle_inv. cbn.
    intros (Hk & Hcb & Hmc & Hc & He & Hx). repeat split; try done.
    + intros H. apply elem_of_app. left. auto.
    + by apply (cause_mono _ _ _ l).
    + intros H. apply flagged_mono. auto.
    + intros H. right. exists exit'. split; [|done].
      apply elem_of_app. right. by apply list_elem_of_singleton.
  - destruct l as [k channel cb flush p mc tr].
    unfold lifecycle_inv, break. cbn.
    intros (Hk & Hcb & Hmc & Hc & He & Hx).
    apply (cause_mono _ _ (Break e)) in Hc. unfold cause in *. cbn in *.
    destruct p as [| | | |[]]; try destruct mc; cbn; repeat split; try done.
    all: try (right; right; apply elem_of_app; right; by apply list_elem_of_singleton).
    all: rewrite ?elem_of_app, ?list_elem_of_singleton.
    all: try (intros H; apply flagged_mono).
    all: naive_solver.
Qed.

Lemma run_lifecycle (key : string) (callback : Callback) (flush : bool)
    (exit0 : gset string) (acts : list action) :
  lifecycle_inv key callback exit0 acts (run tick acts (spawn key callback flush, exit0)).
Proof.
  induction acts as [|a acts IH] using rev_ind.
  - unfold lifecycle_inv, cause, flagged. cbn. repeat split; try done.
    + apply not_elem_of_nil.
    + intros H. by apply elem_of_nil in H.
    + by left.
  - rewrite run_app. by apply step_lifecycle.
Qed.

(** X1: A listener ends for a cause: it returns only after it has seen its
    key in the exit set, which was there at the start or was put there by
    the environment; it is cancelled only if [cancel] was called; it fails
    only with [NotImplementedError] for a callback of no supported kind,
    with the exception its callback raised on a message (of its own, or
    after it caught a cancellation), or with the exception the driver
    raised in [get_message].  So a listener that is never flagged nor
    cancelled, whose fetches never fail, with a callback of a supported
    kind that always returns, never ends. *)
Theorem listener_ends_for_a_cause (key : string) (callback : Callback) (flush : bool)
    (exit0 : gset string) (acts : list action) :
  let l := (run tick acts (spawn key callback flush, exit0)).1 in
  match l_pc l with
  | Done Returned => EvExit ∈ l_trace l /\ flagged key exit0 acts
  | Done Cancelled => Cancel ∈ acts
  | Done (Failed e) =>
      (cb_kind callback = NotAFunction /\ e = NotImplementedError) \/
      (exists m, EvDone m (Some e) ∈ l_trace l /\
         (cb_outcome callback m = Some e \/
          (Cancel ∈ acts /\ cb_cancelled callback m = Some (Some e)))) \/
      Break e ∈ acts
  | _ => True
  end /\
  (~ flagged key exit0 acts -> Cancel ∉ acts -> (forall e, Break e ∉ acts) ->
   cb_kind callback <> NotAFunction -> (forall m, cb_outcome callback m = None) ->
   done l = false /\ EvExit ∉ l_trace l).
Proof.
  intros l.
  destruct (run_lifecycle key callback flush exit0 acts) as (_ & _ & _ & Hc & He & _).
  fold l in Hc, He. unfold cause in Hc. split.
  - destruct (l_pc l) as [| | | |[]]; try done. split; [done|]. by apply He.
  - intros Hnf Hnc Hnb Hkind Hout. split; [|by intros H; apply Hnf, He].
    unfold done. destruct (l_pc l) as [| | | |[]]; try done.
    + destruct Hnf. by apply He.
    + destruct Hc as [[Hk _]|[(m & _ & [Hm|[Hm _]])|Hb]]; [done| |done|].
      * by rewrite Hout in Hm.
      * by apply Hnb in Hb.
Qed.

(** X2: Resuming a listener changes the exit set in one way only: it removes
    the key of the listener, and it does so exactly in the step in which it
    logs the exit event, as the last event of the step; the key was then in
    the set, and the listener goes on with the drain loop, or has returned
    when flushing is disabled. *)
Theorem resume_removes_own_key_only (exit : gset string) (l : Listener) :
  let st := resume tick exit l in
  exists es, l_trace st.1 = l_trace l ++ es /\ l_key st.1 = l_key l /\
    ((st.2 = exit /\ EvExit ∉ es) \/
     (l_key l ∈ exit /\ st.2 = exit ∖ {[l_key l]} /\
      (exists es', es = es' ++ [EvExit] /\ EvExit ∉ es') /\
      l_pc st.1 = if l_flush l then FlushPoll else Done Returned)).
Proof.
  destruct l as [k channel [kind out canc] flush p mc tr].
  unfold resume, main_message, flush_message, main_after,
    flush_after, checkpoint, flush_loop, get_message, invoke, callback_done,
    callback_caught.
  cbn.
  destruct p as [| | | |o]; cbn.
  5:{ exists []. rewrite app_nil_r. repeat split. left. split; [done|apply not_elem_of_nil]. }
  all: destruct mc; cbn.
  all: repeat (case_match; simplify_eq/=).
  all: try (by exists []; rewrite app_nil_r; repeat split; left;
              split; [done|apply not_elem_of_nil]).
  all: rewrite <- ?app_assoc; eexists; (split; [reflexivity|]); (split; [reflexivity|]).
  all: try (left; split; [reflexivity|]; set_solver).
  all: right; (split; [by eapply bool_decide_eq_true_1|]); (split; [reflexivity|]);
    (split; [|reflexivity]).
  all: cbn.
  all: first [ by exists []; split; [reflexivity|apply not_elem_of_nil]
             | by eexists [_]; split; [reflexivity|set_solver]
             | by eexists [_; _]; split; [reflexivity|set_solver]
             | by eexists [_; _; _]; split; [reflexivity|set_solver] ].
Qed.

Lemma two_phases_drain (main drain es : list event) :
  Forall (consume_event tick) main -> Forall drain_event drain -> Forall drain_event es ->
  exists main' drain', (main ++ EvExit :: drain) ++ es = main' ++ EvExit :: drain' /\
    Forall (consume_event tick) main' /\ Forall drain_event drain'.
Proof.
  intros Hm Hd He. exists main, (drain ++ es). rewrite <- app_assoc. cbn.
  split; [done|]. split; [done|]. by apply Forall_app.
Qed.

Lemma two_phases_exit (tr es : list event) :
  Forall (consume_event tick) tr -> Forall (consume_event tick) es ->
  exists main' drain', tr ++ es ++ [EvExit] = main' ++ EvExit :: drain' /\
    Forall (consume_event tick) main' /\ Forall drain_event drain'.
Proof.
  intros Hm He. exists (tr ++ es), []. rewrite <- app_assoc.
  split; [done|]. split; [by apply Forall_app|done].
Qed.

Lemma resume_phase (exit : gset string) (l : Listener) :
  phase_inv tick l -> phase_inv tick (resume tick exit l).1.
Proof.
  destruct l as [k channel [kind out canc] flush p mc tr].
  unfold phase_inv, resume, main_message, flush_message, main_after,
    flush_after, checkpoint, flush_loop, get_message, invoke, callback_done,
    callback_caught.
  cbn. intros H.
  destruct p as [| | | |o]; cbn; [| | | |done].
  - destruct mc; cbn; [by left|].
    repeat (case_match; simplify_eq/=).
    all: rewrite <- ?app_assoc; cbn [app].
    all: try (apply Forall_app; split; [done|]; by repeat constructor).
    all: try (left; apply Forall_app; split; [done|]; by repeat constructor).
    all: try (by apply (two_phases_exit tr [_]); [|repeat constructor]).
    all: try (by apply (two_phases_exit tr [_; _; _]); [|repeat constructor]).
    all: try (right; by apply (two_phases_exit tr [_]); [|repeat constructor]).
    all: try (right; by apply (two_phases_exit tr [_; _; _]); [|repeat constructor]).
  - destruct mc; cbn.
    all: repeat (case_match; simplify_eq/=).
    all: try (by left).
    all: rewrite <- ?app_assoc; cbn [app].
    all: try (apply Forall_app; split; [done|]; by repeat constructor).
    all: try (left; apply Forall_app; split; [done|]; by repeat constructor).
    all: try (by apply (two_phases_exit tr [_]); [|repeat constructor]).
    all: try (right; by apply (two_phases_exit tr [_]); [|repeat constructor]).
  - destruct H as (main & drain & -> & Hm & Hd).
    destruct mc; cbn; [right; by exists main, drain|].
    repeat (case_match; simplify_eq/=).
    all: rewrite <- ?(app_assoc (main ++ EvExit :: drain)).
    all: try (right); apply two_phases_drain; try done; by repeat constructor.
  - destruct H as (main & drain & -> & Hm & Hd).
    destruct mc; cbn.
    all: repeat (case_match; simplify_eq/=).
    all: try (right; by exists main, drain).
    all: rewrite <- ?(app_assoc (main ++ EvExit :: drain)).
    all: try (right); apply two_phases_drain; try done; by repeat constructor.
Qed.

Lemma step_phase (st : Listener * gset string) (a : action) :
  phase_inv tick st.1 -> phase_inv tick (step tick st a).1.
Proof.
  destruct st as [l exit]. destruct a as [m| | |exit'|e]; cbn [step fst snd]; [done| | |done|].
  - apply resume_phase.
  - unfold phase_inv, cancel. destruct (l_pc l) eqn:Hpc; cbn; by rewrite Hpc.
  - unfold phase_inv, break.
    destruct (l_pc l) eqn:Hpc; [| by rewrite Hpc | | by rewrite Hpc | by rewrite Hpc].
    all: destruct (l_must_cancel l); cbn; intros H; first [by left | by right].
Qed.

Lemma run_phase (acts : list action) (st : Listener * gset string) :
  phase_inv tick st.1 -> phase_inv tick (run tick acts st).1.
Proof.
  revert st. induction acts as [|a acts IH]; intros st H; [done|].
  cbn. apply IH. by apply step_phase.
Qed.

(** X3: The trace of a listener has two phases: while the exit flag has not
    been seen every fetch waits up to the tick; the exit event occurs at
    most once, and every fetch after it is one that does not wait.  A
    listener in its consume loop has not seen the flag; a listener in its
    drain loop, or one that has returned, has. *)
Theorem trace_has_two_phases (key : string) (callback : Callback) (flush : bool)
    (exit0 : gset string) (acts : list action) :
  let l := (run tick acts (spawn key callback flush, exit0)).1 in
  two_phases tick (l_trace l) /\
  match l_pc l with
  | MainPoll | MainCallback _ => EvExit ∉ l_trace l
  | FlushPoll | FlushCallback _ | Done Returned => EvExit ∈ l_trace l
  | Done _ => True
  end.
Proof.
  intros l.
  assert (H : phase_inv tick l) by (apply run_phase; by constructor).
  unfold phase_inv in H.
  assert (Hno : forall tr, Forall (consume_event tick) tr -> EvExit ∉ tr).
  { intros tr Htr Hin. by apply (proj1 (Forall_forall _ _) Htr) in Hin. }
  assert (Hyes : forall tr : list event,
            (exists main drain, tr = main ++ EvExit :: drain /\
               Forall (consume_event tick) main /\ Forall drain_event drain) ->
            EvExit ∈ tr).
  { intros tr (main & drain & -> & _). apply elem_of_app. right. by left. }
  destruct (l_pc l) as [| | | |[]]; (split; [|by auto]);
    first [by left | by right | done].
Qed.

End LifecycleFacts.

Section EndFacts.
Import Listener Lifecycle.
Variable tick : Q.

Lemma cancel_fields (l : Listener) :
  l_pc (cancel l).2 = l_pc l /\ l_trace (cancel l).2 = l_trace l /\
  l_channel (cancel l).2 = l_channel l /\ l_key (cancel l).2 = l_key l /\
  l_callback (cancel l).2 = l_callback l /\ l_flush (cancel l).2 = l_flush l /\
  (l_must_cancel l = true -> l_must_cancel (cancel l).2 = true) /\
  (done l = false -> (cancel l).1 = true /\ l_must_cancel (cancel l).2 = true) /\
  (done l = true -> cancel l = (false, l)).
Proof.
  unfold cancel, done. destruct l as [key ch cb flush p mc tr]. cbn.
  destruct p; cbn; repeat split; try done; by intros [=].
Qed.

Lemma environment_run (env : list action) (l : Listener) (exit : gset string) :
  forallb (fun a => negb (is_resume a)) env = true ->
  let st := run tick env (l, exit) in
  l_pc st.1 = l_pc l /\ l_trace st.1 = l_trace l /\
  l_channel st.1 = l_channel l ++ arrivals env /\
  l_key st.1 = l_key l /\ l_callback st.1 = l_callback l /\ l_flush st.1 = l_flush l /\
  (l_must_cancel l = true -> l_must_cancel st.1 = true) /\
  (forall l', (run tick env (l', exit)).2 = st.2).
Proof.
  revert l exit. induction env as [|a env IH]; intros l exit Henv; cbn.
  - by rewrite app_nil_r.
  - cbn in Henv. apply andb_prop in Henv as [Ha Henv].
    destruct a as [m| | |exit'|e]; [|done| | |done]; cbn [step fst snd].
    + destruct (IH (arrive m l) exit Henv) as (H1 & H2 & H3 & H4 & H5 & H6 & H7 & H8).
      unfold run in *. rewrite H1, H2, H3. cbn. rewrite <- app_assoc.
      repeat split; try done; intros l'; apply H8.
    + destruct (IH (cancel l).2 exit Henv) as (H1 & H2 & H3 & H4 & H5 & H6 & H7 & H8).
      destruct (cancel_fields l) as (C1 & C2 & C3 & C4 & C5 & C6 & C7 & _).
      unfold run in *. rewrite H1, H2, H3, H4, H5, H6, C1, C2, C3, C4, C5, C6.
      repeat split; try done; first [by auto | intros l'; apply H8].
    + destruct (IH l exit' Henv) as (H1 & H2 & H3 & H4 & H5 & H6 & H7 & H8).
      repeat split; try done; intros l'; apply H8.
Qed.

(** X4: [Task.cancel()] on a listener that has not ended is a request,
    delivered at its next resumption, whatever arrives or is flagged before.
    A listener suspended in [get_message], or in a callback that lets the
    [CancelledError] through, then ends as cancelled without any further
    fetch or invocation: the trace is as it was, the unread messages and
    those that arrived meanwhile stay unread, and the resumption leaves the
    exit set alone.  A listener suspended in a callback that catches the
    [CancelledError] is not cancelled: the request is spent; if the
    callback then raises, the listener has failed with that exception; if
    it returns, the listener goes on with its loop.  On a listener that has
    ended [cancel] returns false and changes nothing. *)
Theorem cancel_ends_listener_at_next_resume (exit : gset string) (l : Listener)
    (env : list action) :
  done l = false ->
  forallb (fun a => negb (is_resume a)) env = true ->
  let st := run tick (Cancel :: env ++ [Resume]) (l, exit) in
  (cancel l).1 = true /\
  l_channel st.1 = l_channel l ++ arrivals env /\
  (propagates_cancel l = true ->
     l_pc st.1 = Done Cancelled /\
     l_trace st.1 = l_trace l /\
     st.2 = (run tick env (l, exit)).2) /\
  (forall m r,
     l_pc l = MainCallback m \/ l_pc l = FlushCallback m ->
     cb_cancelled (l_callback l) m = Some r ->
     l_must_cancel st.1 = false /\
     match r with
     | Some e =>
         l_pc st.1 = Done (Failed e) /\
         l_trace st.1 = l_trace l ++ [EvDone m (Some e)] /\
         st.2 = (run tick env (l, exit)).2
     | None =>
         (l_pc st.1 = MainPoll \/ l_pc st.1 = FlushPoll \/ l_pc st.1 = Done Returned) /\
         (l_trace st.1 = l_trace l ++ [EvDone m None] \/
          l_trace st.1 = l_trace l ++ [EvDone m None; EvExit])
     end) /\
  (forall l', done l' = true -> cancel l' = (false, l')).
Proof.
  intros Hd Henv st. subst st.
  change (Cancel :: env ++ [Resume]) with ([Cancel] ++ env ++ [Resume]).
  rewrite !run_app.
  destruct (cancel_fields l) as (C1 & C2 & C3 & _ & C5 & C6 & _ & C8 & _).
  destruct (C8 Hd) as [Hc1 Hc2].
  cbn [run fold_left step fst snd].
  destruct (environment_run env (cancel l).2 exit Henv)
    as (H1 & H2 & H3 & _ & H5 & H6 & H7 & H8).
  specialize (H7 Hc2). specialize (H8 l).
  unfold run in *.
  destruct (fold_left (step tick) env ((cancel l).2, exit)) as [l1 exit1]. cbn in *.
  rewrite C1 in H1. rewrite C2 in H2. rewrite C3 in H3. rewrite C5 in H5.
  rewrite C6 in H6. clear C1 C2 C3 C5 C6 C8 Hc2.
  assert (Hlast : forall l', done l' = true -> cancel l' = (false, l'))
    by (intros l'; apply cancel_fields).
  destruct l1 as [key1 ch1 cb1 flush1 p1 mc1 tr1]. cbn in H1, H2, H3, H5, H6, H7.
  subst key1 || idtac. subst.
  unfold done, propagates_cancel in *. unfold resume. cbn.
  unfold main_after, flush_after, callback_caught, checkpoint, flush_loop.
  split; [done|].
  destruct (l_pc l) as [|m| |m|o] eqn:Hpc; try done; cbn.
  - split; [done|]. split; [by intros _|]. split; [|exact Hlast].
    intros m' r [[=]|[=]].
  - destruct (cb_cancelled (l_callback l) m) as [[e|]|] eqn:Hcc; cbn.
    + split; [done|]. split; [intros [=]|]. split; [|exact Hlast].
      intros m' r [[= <-]|[=]]. rewrite Hcc. by intros [= <-].
    + case_bool_decide; [destruct (l_flush l)|]; cbn.
      all: split; [done|]; split; [intros [=]|]; split; [|exact Hlast].
      all: intros m' r [[= <-]|[=]]; rewrite Hcc; intros [= <-]; cbn.
      all: rewrite <- ?app_assoc; cbn [app].
      all: split; [done|]; split; eauto.
    + split; [done|]. split; [by intros _|]. split; [|exact Hlast].
      intros m' r [[= <-]|[=]]. by rewrite Hcc.
  - split; [done|]. split; [by intros _|]. split; [|exact Hlast].
    intros m' r [[=]|[=]].
  - destruct (cb_cancelled (l_callback l) m) as [[e|]|] eqn:Hcc; cbn.
    + split; [done|]. split; [intros [=]|]. split; [|exact Hlast].
      intros m' r [[=]|[= <-]]. rewrite Hcc. by intros [= <-].
    + destruct (l_flush l); cbn.
      all: split; [done|]; split; [intros [=]|]; split; [|exact Hlast].
      all: intros m' r [[=]|[= <-]]; rewrite Hcc; intros [= <-]; cbn.
      all: split; [done|]; split; eauto.
    + split; [done|]. split; [by intros _|]. split; [|exact Hlast].
      intros m' r [[=]|[= <-]]. by rewrite Hcc.
Qed.

(** X6: A callback that raises ends the listener: the exception leaves the
    loop in which the message was fetched, the task has failed with it,
    the messages behind stay unread, and the exit set is left alone, so a
    flag set for the listener is not consumed. *)
Theorem callback_exception_ends_listener (exit : gset string) (l : Listener)
    (m : Message) (rest : list Message) (e : exn) :
  l_must_cancel l = false ->
  cb_kind (l_callback l) <> NotAFunction ->
  cb_outcome (l_callback l) m = Some e ->
  l_channel l = m :: rest ->
  l_pc l = MainPoll \/ l_pc l = FlushPoll ->
  let st := run tick [Resume; Resume] (l, exit) in
  l_pc st.1 = Done (Failed e) /\
  l_channel st.1 = rest /\
  st.2 = exit /\
  delivered (l_trace st.1) = delivered (l_trace l) ++ [m] /\
  completed (l_trace st.1) = completed (l_trace l) /\
  exists timeout, l_trace st.1 =
    l_trace l ++ [EvGetMessage timeout (Some m); EvCall m; EvDone m (Some e)].
Proof.
  intros Hmc Hk Hout Hch Hpc.
  destruct l as [key ch [kind out canc] flush p mc tr]. cbn in Hmc, Hk, Hout, Hch, Hpc.
  subst. cbn [run fold_left step fst snd].
  destruct Hpc as [->| ->]; destruct kind; try done.
  all: unfold resume, main_message, flush_message, main_after,
    flush_after, checkpoint, flush_loop, get_message, invoke, callback_done; cbn.
  all: rewrite ?Hout; cbn.
  all: rewrite <- ?app_assoc; cbn [app].
  all: rewrite delivered_app, completed_app; unfold delivered at 2, completed at 2; cbn.
  all: rewrite ?app_nil_r.
  all: repeat split; try done; by eexists.
Qed.

(** X7: With flushing disabled a flagged listener returns at its checkpoint:
    it ends the iteration it is in, removes its key from the exit set and
    returns; the messages still unread are left unread. *)
Theorem exit_without_flush_leaves_unread (exit : gset string) (l : Listener) :
  l_key l ∈ exit -> l_flush l = false -> l_must_cancel l = false ->
  cb_kind (l_callback l) <> NotAFunction ->
  (l_pc l = MainPoll \/ exists m, l_pc l = MainCallback m) ->
  (forall m, m ∈ outstanding l -> cb_outcome (l_callback l) m = None) ->
  let st := run tick [Resume; Resume] (l, exit) in
  let it := finish_iteration tick l in
  l_pc st.1 = Done Returned /\
  st.2 = exit ∖ {[l_key l]} /\
  l_channel st.1 = it.2 /\
  l_trace st.1 = l_trace l ++ it.1 ++ [EvExit].
Proof.
  intros Hkey Hfl Hmc Hk Hpc Hout.
  destruct l as [key ch [kind out canc] flush p mc tr]. cbn in Hkey, Hfl, Hmc, Hk, Hpc, Hout.
  subst. cbn [run fold_left step fst snd].
  destruct Hpc as [->|[m ->]]; [destruct ch as [|m ch]|]; destruct kind; try done.
  all: try (assert (Hm : out m = None) by (apply Hout; left)).
  all: unfold resume, main_message, flush_message, main_after,
    flush_after, checkpoint, flush_loop, get_message, invoke, callback_done; cbn.
  all: rewrite ?Hm; cbn.
  all: rewrite ?bool_decide_eq_true_2 by done; cbn.
  all: rewrite ?Hm; cbn.
  all: rewrite ?bool_decide_eq_true_2 by done; cbn.
  all: rewrite <- ?app_assoc; cbn [app].
  all: by repeat split.
Qed.

End EndFacts.

(** ** Subscriptions and exit flags *)

Section SubscriptionFacts.
Import Listener Client.

Lemma wake_subscribe (w : World) (i : nat) (channel : string) (callback : Callback) :
  callers w !! i = Some (InSubscribe channel callback) ->
  step w (Wake i) =
  set_callers (<[i := Finished (Ret tt)]> (callers w))
    (set_self (set_subscribes (<[channel := length (tasks w)]> (_subscribes (self w)))
                 (self w))
       (set_tasks (tasks w ++ [spawn channel callback true]) w)).
Proof. intros Hi. cbn [step]. unfold resume_caller. by rewrite Hi. Qed.

(** X8: [subscribe] on an open client suspends until the store confirms the
    subscription and registers nothing before; when it is resumed,
    whatever happened meanwhile, it creates the listener task, waiting in
    its first fetch with flushing enabled, and binds the channel to it,
    leaving every other channel, every other task and the exit set as they
    are; [get_subscribe_task] then returns the new task, which is pending,
    and [get_subscribe_channels] lists the channel. *)
Theorem subscribe_registers_listener (channel : string) (callback : Callback) :
  (forall w conn, _redis (self w) = Some conn ->
     step w (Start (Subscribe channel callback))
       = set_callers (callers w ++ [InSubscribe channel callback]) w) /\
  (forall w i, callers w !! i = Some (InSubscribe channel callback) ->
     let t := length (tasks w) in
     let w' := step w (Wake i) in
     callers w' = <[i := Finished (Ret tt)]> (callers w) /\
     _subscribes (self w') = <[channel := t]> (_subscribes (self w)) /\
     _subscribes_exit (self w') = _subscribes_exit (self w) /\
     _redis (self w') = _redis (self w) /\
     tasks w' = tasks w ++ [spawn channel callback true] /\
     get_subscribe_task channel w' = (Ret t, w') /\
     task_result w' t = None /\
     channel ∈ get_subscribe_channels w').
Proof.
  split.
  - intros w conn Hopen. cbn. unfold subscribe_begin, Config.redis. by rewrite Hopen.
  - intros w i Hi t w'. subst t w'. rewrite (wake_subscribe w i channel callback Hi).
    cbn. repeat split.
    + unfold get_subscribe_task. cbn. by rewrite lookup_insert_eq.
    + unfold task_result. cbn. rewrite lookup_app_r by done.
      by rewrite Nat.sub_diag.
    + unfold get_subscribe_channels. cbn.
      apply list_elem_of_fmap. exists (channel, length (tasks w)). split; [done|].
      apply elem_of_map_to_list. by rewrite lookup_insert_eq.
Qed.

Lemma cancel_task_other (t t0 : nat) (w : World) :
  t <> t0 -> tasks (cancel_task t w).2 !! t0 = tasks w !! t0.
Proof.
  intros Hne. rewrite cancel_task_tasks. destruct (tasks w !! t); [|done].
  by rewrite list_lookup_insert_ne.
Qed.

Lemma cancel_all_other (t0 : nat) (w : World) :
  (forall k, _subscribes (self w) !! k <> Some t0) ->
  tasks (cancel_all w) !! t0 = tasks w !! t0.
Proof.
  intros Hno. unfold cancel_all.
  assert (Hin : forall kt, kt ∈ map_to_list (_subscribes (self w)) -> kt.2 <> t0).
  { intros [k t] Hkt Heq. cbn in Heq. subst t.
    apply elem_of_map_to_list in Hkt. by apply (Hno k). }
  revert Hin. generalize (map_to_list (_subscribes (self w))).
  intros kts Hin. induction kts as [|kt kts IH]; cbn; [done|].
  rewrite cancel_task_other by (apply Hin; left).
  apply IH. intros kt' Hkt'. apply Hin. by right.
Qed.

Lemma leave_try_other (r : result unit) (t0 : nat) (w : World) :
  (forall k, _subscribes (self w) !! k <> Some t0) ->
  tasks (leave_try r w).1 !! t0 = tasks w !! t0.
Proof.
  intros Hno. unfold leave_try. destruct r as [[]|e]; [done|].
  destruct e; try done. cbn. by apply cancel_all_other.
Qed.

(** X9: A second [subscribe] to a channel replaces the task the channel is
    bound to.  The first task is left as it is, pending if it was, but no
    channel names it any more: [get_subscribe_task] returns the new task,
    and a [close_subscribes] called from then on neither awaits nor cancels
    the first one, whether it ends at once, when it is resumed, or after
    its timeout has fired. *)
Theorem resubscribe_orphans_first_task (w : World) (i : nat) (channel : string)
    (callback : Callback) (t0 : Task) :
  callers w !! i = Some (InSubscribe channel callback) ->
  _subscribes (self w) !! channel = Some t0 ->
  registry_valid w ->
  (forall k, k <> channel -> _subscribes (self w) !! k <> Some t0) ->
  let w' := step w (Wake i) in
  _subscribes (self w') !! channel = Some (length (tasks w)) /\
  length (tasks w) <> t0 /\
  size (_subscribes (self w')) = size (_subscribes (self w)) /\
  tasks w' !! t0 = tasks w !! t0 /\
  (forall k, _subscribes (self w') !! k <> Some t0) /\
  tasks (close_subscribes_begin w').1 !! t0 = tasks w !! t0 /\
  (forall rest n t, t <> t0 ->
     tasks (close_subscribes_timeout w' rest n t).1 !! t0 = tasks w !! t0) /\
  (forall rest n t tm,
     tasks (close_subscribes_wake w' rest n t tm).1 !! t0 = tasks w !! t0).
Proof.
  intros Hi Hreg Hvalid Honly w'.
  assert (Hlt : (t0 < length (tasks w))%nat) by (by eapply Hvalid).
  assert (Hsub : _subscribes (self w')
                 = <[channel := length (tasks w)]> (_subscribes (self w)))
    by (subst w'; by rewrite (wake_subscribe w i channel callback Hi)).
  assert (Htasks : tasks w' = tasks w ++ [spawn channel callback true])
    by (subst w'; by rewrite (wake_subscribe w i channel callback Hi)).
  assert (Hold : tasks w' !! t0 = tasks w !! t0)
    by (rewrite Htasks; by apply lookup_app_l).
  assert (Hno : forall k, _subscribes (self w') !! k <> Some t0).
  { intros k. rewrite Hsub. destruct (decide (k = channel)) as [->|Hne].
    - rewrite lookup_insert_eq. intros [= Heq]. lia.
    - rewrite lookup_insert_ne by done. by apply Honly. }
  repeat split; try done.
  - rewrite Hsub. by rewrite lookup_insert_eq.
  - lia.
  - rewrite Hsub. rewrite map_size_insert_Some; [done|]. by exists t0.
  - rewrite <- Hold. unfold close_subscribes_begin, shutdown_continue.
    destruct (await_tasks _ _ _ _) as [? ? ? ?|r]; [done|].
    by rewrite leave_try_other.
  - intros rest n t Hne. rewrite <- Hold, timeout_step. cbn.
    by apply cancel_task_other.
  - intros rest n t tm. rewrite <- Hold. unfold close_subscribes_wake, shutdown_continue.
    destruct tm as [d| |]; [| |by apply leave_try_other].
    all: destruct (task_result w' t) as [[[]|e]|]; [|by apply leave_try_other|done].
    all: destruct (await_tasks _ _ _ _) as [? ? ? ?|r]; [done|].
    all: by apply leave_try_other.
Qed.

End SubscriptionFacts.

Section FlagFacts.
Import Listener Client.

Lemma set_exit_same (w : World) :
  set_self (set_subscribes_exit (_subscribes_exit (self w)) (self w)) w = w.
Proof. by destruct w as [[] ? ? ? ?]. Qed.

Lemma exit_flags_fold (ks : list string) (w : World) :
  fold_left (fun w' k => exit_flag_subscribe k w') ks w =
  set_self (set_subscribes_exit (_subscribes_exit (self w) ∪ list_to_set ks) (self w)) w.
Proof.
  revert w. induction ks as [|k ks IH]; intros w; cbn.
  - rewrite (right_id_L ∅ (∪)). by rewrite set_exit_same.
  - rewrite IH. unfold exit_flag_subscribe, set_self, set_subscribes_exit. cbn.
    do 2 f_equal. set_solver.
Qed.

(** X10: [exit_flag_subscribes] is the loop of lines 184-185: it adds to the
    exit set the channels that [get_subscribe_channels] lists, one by one,
    so exactly the registered channels are added, the flags already set are
    kept and nothing else changes; flagging twice is flagging once. *)
Theorem exit_flag_subscribes_flags_registry (w : World) :
  exit_flag_subscribes w
    = fold_left (fun w' k => exit_flag_subscribe k w') (get_subscribe_channels w) w /\
  (forall k, k ∈ _subscribes_exit (self (exit_flag_subscribes w)) <->
     k ∈ _subscribes_exit (self w) \/ is_Some (_subscribes (self w) !! k)) /\
  exit_flag_subscribes (exit_flag_subscribes w) = exit_flag_subscribes w.
Proof.
  split; [|split].
  - rewrite exit_flags_fold. unfold exit_flag_subscribes, get_subscribe_channels.
    do 3 f_equal. apply set_eq. intros k. rewrite elem_of_dom, elem_of_list_to_set, list_elem_of_fmap. split.
    + intros [t Ht]. exists (k, t). split; [done|]. by apply elem_of_map_to_list.
    + intros ([k0 t] & -> & Hin). apply elem_of_map_to_list in Hin. by exists t.
  - intros k. cbn. rewrite elem_of_union, elem_of_dom. done.
  - unfold exit_flag_subscribes, set_self, set_subscribes_exit. cbn.
    do 2 f_equal. set_solver.
Qed.

(** X11: [exit_flag_subscribe] asks for no subscription: for a channel that is
    not registered it raises nothing and the flag stays in the exit set.  A
    listener subscribed to that channel afterwards finds the stale flag at
    its first checkpoint: its first fetch, if it yields nothing, is its
    last in the consume loop, the flag is consumed and the listener drains
    and returns. *)
Theorem stale_exit_flag_stops_new_listener (w : World) (conn : Redis)
    (channel : string) (callback : Callback) :
  _redis (self w) = Some conn ->
  let w1 := step w (Call (CallExitFlagSubscribe channel)) in
  let t := length (tasks w) in
  let w2 := run [Start (Subscribe channel callback); Wake (length (callers w)); Run t] w1 in
  let w3 := step w2 (Run t) in
  channel ∈ _subscribes_exit (self w1) /\
  _subscribes (self w1) = _subscribes (self w) /\
  _subscribes (self w2) !! channel = Some t /\
  (channel ∉ _subscribes_exit (self w2)) /\
  (exists l, tasks w2 !! t = Some l /\ l_pc l = FlushPoll /\
     l_trace l = [EvGetMessage (_subscribes_tick (self w)) None; EvExit]) /\
  task_result w3 t = Some (Ret tt).
Proof.
  intros Hopen w1 t w2 w3.
  assert (H1 : channel ∈ _subscribes_exit (self w1)) by (cbn; set_solver).
  split; [done|]. split; [done|].
  subst w3 w2. cbn [run fold_left].
  assert (Hs : step w1 (Start (Subscribe channel callback))
               = set_callers (callers w1 ++ [InSubscribe channel callback]) w1).
  { cbn [step start]. unfold subscribe_begin, Config.redis. cbn. by rewrite Hopen. }
  rewrite Hs. cbn [step]. unfold resume_caller. cbn [callers set_callers w1 step do_call
    exit_flag_subscribe set_self].
  rewrite lookup_app_r by done. rewrite Nat.sub_diag. cbn.
  unfold run_task. cbn. rewrite lookup_app_r by done. rewrite Nat.sub_diag. cbn.
  unfold resume, main_message, checkpoint, flush_loop, get_message. cbn.
  rewrite bool_decide_eq_true_2 by set_solver. cbn.
  rewrite !lookup_insert_eq. fold t.
  set (l2 := set_pc FlushPoll _).
  assert (Hl : <[t := l2]> (tasks w ++ [spawn channel callback true]) !! t = Some l2)
    by (apply list_lookup_insert_eq; rewrite length_app; cbn; lia).
  rewrite Hl. split; [done|]. split; [set_solver|]. split; [by exists l2|].
  unfold task_result. cbn. rewrite list_lookup_insert_eq; [done|].
  rewrite length_insert, length_app. cbn. lia.
Qed.

End FlagFacts.

(** ** Cancelling, closing and opening *)

Section ShutdownFacts.
Import Listener Client.

(** X12: [cancel_subscribe_task] on a registered channel returns whether the
    task was still pending, and requests its cancellation; the channel
    stays registered.  A pending task that is suspended in [get_message],
    or in a callback that lets the [CancelledError] through, ends cancelled
    when it is resumed, and [wait_subscribe] on the channel then raises
    [CancelledError].  A pending task suspended in a callback that catches
    the [CancelledError] is not cancelled: when the callback then raises,
    the task has failed with that exception; when it returns, the task goes
    on or returns, and no cancellation is pending any more. *)
Theorem cancel_subscribe_task_cancels (w : World) (channel : string) (t : Task)
    (l : Listener) :
  _subscribes (self w) !! channel = Some t ->
  tasks w !! t = Some l ->
  let r := cancel_subscribe_task channel w in
  r.1 = Ret (negb (done l)) /\
  self r.2 = self w /\
  tasks r.2 = <[t := (cancel l).2]> (tasks w) /\
  callers r.2 = callers w /\
  (done l = true -> r.2 = w) /\
  (done l = false -> propagates_cancel l = true ->
     let w' := step r.2 (Run t) in
     task_result w' t = Some (Raise CancelledError) /\
     _subscribes (self w') !! channel = Some t /\
     start (WaitSubscribe channel) w' = (w', Finished (Raise CancelledError))) /\
  (forall m caught,
     l_pc l = MainCallback m \/ l_pc l = FlushCallback m ->
     cb_cancelled (l_callback l) m = Some caught ->
     let w' := step r.2 (Run t) in
     _subscribes (self w') !! channel = Some t /\
     (exists l', tasks w' !! t = Some l' /\ l_must_cancel l' = false) /\
     match caught with
     | Some e => task_result w' t = Some (Raise e)
     | None => task_result w' t = None \/ task_result w' t = Some (Ret tt)
     end).
Proof.
  intros Hreg Hl r. subst r. unfold cancel_subscribe_task, cancel_task.
  rewrite Hreg, Hl.
  assert (Hlt : (t < length (tasks w))%nat) by (by eapply lookup_lt_Some).
  destruct l as [key ch cb flush p mc tr].
  unfold cancel, done, propagates_cancel. cbn.
  destruct p as [|m| |m|o]; cbn.
  5:{ assert (Hid : set_tasks (<[t := {| l_key := key; l_channel := ch; l_callback := cb;
                                        l_flush := flush; l_pc := Done o;
                                        l_must_cancel := mc; l_trace := tr |}]>
                                  (tasks w)) w = w).
      { destruct w as [c ts cs n rs]. cbn in *. unfold set_tasks. cbn.
        f_equal. by apply list_insert_id. }
      rewrite Hid. repeat split; try done. all: by destruct H. }
  all: split; [done|]; split; [done|]; split; [done|]; split; [done|];
    split; [done|].
  all: unfold run_task, task_result, wait_subscribe_begin, wait_result,
         task_result; cbn.
  all: rewrite list_lookup_insert_eq by done; cbn.
  all: unfold main_after, flush_after, callback_caught, checkpoint, flush_loop.
  all: try destruct (cb_cancelled cb m) as [[e|]|] eqn:Hcc; cbn.
  all: try case_bool_decide; try destruct flush; cbn.
  all: rewrite ?Hreg; cbn.
  all: rewrite ?list_lookup_insert_eq by (by rewrite length_insert); cbn.
  all: split; [try done; by intros _ [=]|].
  all: intros m' caught Hpc Hc; destruct Hpc as [[= <-]|[= <-]];
    rewrite ?Hcc in Hc; simplify_eq; cbn.
  all: split; [done|]; split; [by eexists|]; eauto.
Qed.

(** X13: [close] does not wait for a [subscribe] in flight.  If the store
    confirms a subscription while [close] awaits the release of the
    connection, the listener is created and registered all the same, and
    [close] then marks the client closed: the client is closed with a
    pending listener registered, and a further [close] raises
    [AssertionError] without stopping it. *)
Theorem subscribe_during_close_survives (w : World) (i j : nat) (channel : string)
    (callback : Callback) :
  callers w !! i = Some InRedisClose ->
  callers w !! j = Some (InSubscribe channel callback) ->
  let t := length (tasks w) in
  let w' := run [Wake j; Wake i] w in
  Config.is_open (self w') = false /\
  _subscribes (self w') !! channel = Some t /\
  task_result w' t = None /\
  callers w' !! i = Some (Finished (Ret tt)) /\
  callers w' !! j = Some (Finished (Ret tt)) /\
  start Close w' = (w', Finished (Raise AssertionError)).
Proof.
  intros Hi Hj t w'. subst t w'.
  assert (Hne : i <> j) by (intros ->; congruence).
  cbn [run fold_left]. rewrite (wake_subscribe w j channel callback Hj).
  cbn [step]. unfold resume_caller. cbn [callers set_callers].
  rewrite list_lookup_insert_ne by done. rewrite Hi. cbn.
  unfold close_begin, task_result. cbn.
  rewrite lookup_insert_eq, lookup_app_r, Nat.sub_diag by done. cbn.
  rewrite list_lookup_insert_eq
    by (rewrite length_insert; by eapply lookup_lt_Some).
  rewrite list_lookup_insert_ne by done.
  rewrite list_lookup_insert_eq by (by eapply lookup_lt_Some).
  done.
Qed.




(** X15: [close_subscribes] on a client without subscriptions does not suspend:
    it returns at its call, having emptied the exit set of the flags left
    in it and touched nothing else; and [close] on such a client, when
    open, goes straight to the release of the connection. *)
Theorem close_subscribes_without_subscriptions (w : World) :
  _subscribes (self w) = ∅ ->
  close_subscribes_begin w
    = (set_self (set_subscribes_exit ∅ (self w)) w, Ended (Ret tt)) /\
  (forall conn, _redis (self w) = Some conn ->
     start Close w
       = (set_released (released w ++ [conn])
            (set_self (set_subscribes_exit ∅ (self w)) w), InRedisClose)).
Proof.
  intros Hempty.
  assert (Hbegin : close_subscribes_begin w
                   = (set_self (set_subscribes_exit ∅ (self w)) w, Ended (Ret tt))).
  { unfold close_subscribes_begin, get_subscribe_channels.
    destruct w as [[host port pw prefix kwargs redis subs tick exit timeout] ts cs n rs].
    cbn in *. subst subs. rewrite map_to_list_empty. cbn.
    by rewrite bool_decide_eq_true_2. }
  split; [done|]. intros conn Hopen. cbn. unfold close_begin.
  rewrite Hopen, Hbegin. cbn. unfold close_after. cbn.
  rewrite Hempty, map_size_empty. cbn. by rewrite Hopen.
Qed.

(** X16: [open] hands the driver the URL made of the host and the port, the
    password (none when the password is empty) and the pool size that
    [_get_max_connections] returns, keeps the handle that the driver
    returns, and changes nothing else: the prefix, the registry, the exit
    set and the tasks are as they were.  On a client that is open already
    the handle is replaced and the previous one is not released.  When
    [open] raises, the client is as it was, and the exception is the one
    of [int] on the configured pool size, which is never [ValueError], or
    the one the driver raised. *)
Theorem open_connects_and_keeps_state (from_url : Config.connector) (w : World) :
  let password := match _pw (self w) with
                  | Some (String c s) => Some (String c s)
                  | _ => None
                  end in
  let address := "redis://" +:+ _host (self w) +:+ ":"
                   +:+ NilZero.string_of_int (Z.to_int (_port (self w))) in
  match open from_url w with
  | (Ret _, w') =>
      exists n handle,
      Config._get_max_connections (_kwargs (self w)) 10 = Ret n /\
      from_url address password n = Ret handle /\
      _redis (self w') = Some handle /\
      Config.is_open (self w') = true /\
      _prefix (self w') = _prefix (self w) /\
      _subscribes (self w') = _subscribes (self w) /\
      _subscribes_exit (self w') = _subscribes_exit (self w) /\
      tasks w' = tasks w /\ callers w' = callers w /\
      released w' = released w
  | (Raise e, w') =>
      w' = w /\
      ((Config._get_max_connections (_kwargs (self w)) 10 = Raise e /\
        e <> ValueError) \/
       exists n, Config._get_max_connections (_kwargs (self w)) 10 = Ret n /\
         from_url address password n = Raise e)
  end.
Proof.
  intros password address.
  assert (Hpw : (if truthy (_pw (self w)) then _pw (self w) else None) = password)
    by (subst password; by destruct (_pw (self w)) as [[|]|]).
  unfold open. rewrite open_result, Hpw.
  change DEFAULT_MAX_CONNECTIONS with 10.
  change (Config.url (self w)) with address.
  destruct (Config._get_max_connections (_kwargs (self w)) 10) as [n|e] eqn:Hn; cbn.
  - destruct (from_url address password n) as [handle|e] eqn:Hh; cbn.
    + exists n, handle. by repeat split.
    + split; [done|]. right. by exists n.
  - split; [done|]. left. split; [done|]. intros ->.
    unfold Config._get_max_connections in Hn.
    destruct (PyInt.int _) as [|[]]; done.
Qed.

End ShutdownFacts.

(** ** The store operations: closed clients, key mappings and round trips *)

Section StoreAccess.
Context {db : Type} `{StoreDriver db}.

(** X17: On a client that is not open every operation on the store raises
    [AssertionError] before the driver is called, so the store is not
    touched: [set], [mset], [get], [append], [expire], [delete], [exists],
    [publish], and [clear] in its first pass; [subscribe] raises it too and
    registers nothing. *)
Theorem closed_client_operations_raise (c : RedisCache) (d : db) :
  _redis c = None ->
  (forall key val, KV.set c key val d = Raise AssertionError) /\
  (forall pairs, KV.mset c pairs d = Raise AssertionError) /\
  (forall key, KV.get c key d = Raise AssertionError) /\
  (forall key val, KV.append c key val d = Raise AssertionError) /\
  (forall key seconds, KV.expire c key seconds d = Raise AssertionError) /\
  (forall keys, KV.delete c keys d = Raise AssertionError) /\
  (forall keys, KV.exists_ c keys d = Raise AssertionError) /\
  (forall channel value, KV.publish c channel value d = Raise AssertionError) /\
  (forall fuel, KV.clear (S fuel) c d = Some (Raise AssertionError)) /\
  (forall w channel callback, Client.self w = c ->
     Client.start (Client.Subscribe channel callback) w
       = (w, Client.Finished (Raise AssertionError))).
Proof.
  intros Hclosed.
  unfold KV.set, KV.mset, KV.get, KV.append, KV.expire, KV.delete, KV.exists_,
    KV.publish, Config.redis.
  rewrite Hclosed. cbn. repeat split; try done.
  - intros fuel. unfold Config.redis. by rewrite Hclosed.
  - intros w channel callback Hw. unfold Client.subscribe_begin, Config.redis.
    by rewrite Hw, Hclosed.
Qed.

(** X18: The mapping that [mset] hands to the driver has as many pairs as the
    one it was given: two keys never fall together under the prefix, the
    keys of the new mapping are the prefixed keys of the old one, and with
    an empty prefix the mapping is handed over as it is. *)
Theorem mset_keeps_pairs_apart (prefix : string) (pairs : gmap string string) :
  size (KV.prefixed prefix pairs) = size pairs /\
  (forall k', is_Some (KV.prefixed prefix pairs !! k') <->
     exists k, k' = prefix +:+ k /\ is_Some (pairs !! k)) /\
  (forall k1 k2, prefix +:+ k1 = prefix +:+ k2 -> k1 = k2) /\
  KV.prefixed "" pairs = pairs.
Proof.
  rewrite prefixed_kmap. repeat split.
  - rewrite <- !length_map_to_list.
    rewrite (map_to_list_kmap (String.append prefix)). by rewrite length_fmap.
  - intros [v Hv]. apply (lookup_kmap_Some (String.append prefix)) in Hv as (k & -> & Hk).
    by exists k.
  - intros (k & -> & v & Hk). exists v. by rewrite (lookup_kmap (String.append prefix)).
  - intros k1 k2 Heq. by apply (inj (String.append prefix)) in Heq.
  - rewrite prefixed_kmap. apply map_eq. intros k.
    pose proof (lookup_kmap (String.append "") pairs k) as Hk. exact Hk.
Qed.

End StoreAccess.

Section RoundTrips.
Import PagedStore.

Lemma present_get (k : string) (d : keyspace) :
  present k d = match store_get k d with Some _ => true | None => false end.
Proof.
  unfold present, store_get. induction d as [|e d IH]; [done|]. cbn.
  destruct (has_key k e); [done|]. exact IH.
Qed.

Lemma store_get_filter (p : string -> bool) (k : string) (d : keyspace) :
  store_get k (List.filter (fun e => p (slot_key e)) d) =
  if p k then store_get k d else None.
Proof.
  unfold store_get. induction d as [|e d IH]; cbn; [by destruct (p k)|].
  destruct (has_key k e) eqn:Hk.
  - assert (Hek : slot_key e = k) by (by apply String.eqb_eq).
    rewrite Hek. destruct (p k) eqn:Hp; cbn.
    + by rewrite Hk.
    + exact IH.
  - destruct (p (slot_key e)); cbn; [rewrite Hk|]; exact IH.
Qed.

Lemma store_get_delete (keys : list string) (k : string) (d : keyspace) :
  store_get k (store_delete keys d).2 =
  if existsb (String.eqb k) keys then None else store_get k d.
Proof.
  rewrite store_delete_filter.
  rewrite (List.filter_ext _ (fun e => negb (existsb (String.eqb (slot_key e)) keys)))
    by done.
  rewrite (store_get_filter (fun s => negb (existsb (String.eqb s) keys))).
  by destruct (existsb _ keys).
Qed.

Lemma store_exists_absent (keys : list string) (d : keyspace) :
  (forall k, k ∈ keys -> store_get k d = None) -> store_exists keys d = 0.
Proof.
  intros Habs. unfold store_exists.
  rewrite (proj2 (filter_nil_none _ _)); [done|].
  intros k Hk. rewrite present_get, Habs; [done|]. by apply list_elem_of_In.
Qed.

Lemma store_get_append (k k' v : string) (d : keyspace) :
  store_get k' (store_append k v d) =
  if String.eqb k k' then Some (default "" (store_get k d) +:+ v) else store_get k' d.
Proof.
  unfold store_append, store_get at 2.
  destruct (List.find (has_key k) d) as [e|]; cbn; by rewrite store_get_put.
Qed.

Lemma store_get_mset_list (l : list (string * string)) (k : string) (d : keyspace) :
  store_get k (foldr (fun kv acc => store_set kv.1 kv.2 acc) d l) =
  match (list_to_map l : gmap string string) !! k with
  | Some v => Some v
  | None => store_get k d
  end.
Proof.
  induction l as [|[k0 v0] l IH]; [done|].
  cbn -[store_get store_put store_set]. unfold store_set at 1.
  rewrite store_get_put, IH.
  destruct (String.eqb_spec k0 k) as [->|Hne].
  - by rewrite lookup_insert_eq.
  - by rewrite lookup_insert_ne.
Qed.

Lemma store_get_mset (m : gmap string string) (k : string) (d : keyspace) :
  store_get k (store_mset m d) =
  match m !! k with
  | Some v => Some v
  | None => store_get k d
  end.
Proof.
  unfold store_mset. rewrite store_get_mset_list. by rewrite list_to_map_to_list.
Qed.

Lemma existsb_eqb_elem (k : string) (keys : list string) :
  existsb (String.eqb k) keys = bool_decide (k ∈ keys).
Proof.
  induction keys as [|k0 keys IH]; cbn.
  - by rewrite bool_decide_eq_false_2 by apply not_elem_of_nil.
  - rewrite IH. destruct (String.eqb_spec k k0) as [->|Hne]; cbn.
    + by rewrite bool_decide_eq_true_2 by left.
    + apply bool_decide_ext. rewrite elem_of_cons. naive_solver.
Qed.

Lemma prefix_keys_elem (prefix k : string) (keys : list string) :
  prefix +:+ k ∈ String.append prefix <$> keys <-> k ∈ keys.
Proof.
  rewrite list_elem_of_fmap. split.
  - intros (k' & Heq & Hin). by apply (inj (String.append prefix)) in Heq as ->.
  - intros Hin. by exists k.
Qed.

(** X20: [append] through an open client on the paged store: the value read
    back under the key is the old value, or the empty string when the key
    was missing, followed by what was appended; the other keys of the
    client read as before. *)
Theorem append_then_get (c : RedisCache) (conn : Redis) (key val : string)
    (d : keyspace) :
  _redis c = Some conn ->
  exists d', KV.append c key val d = Ret d' /\
    KV.get c key d' =
      Ret (Some (default "" (store_get (_prefix c +:+ key) d) +:+ val)) /\
    (forall key', key' <> key -> KV.get c key' d' = KV.get c key' d).
Proof.
  intros Hopen. exists (store_append (_prefix c +:+ key) val d).
  unfold KV.append, KV.get, Config.redis. rewrite Hopen. cbn.
  split; [done|]. split.
  - by rewrite store_get_append, String.eqb_refl.
  - intros key' Hne. rewrite store_get_append.
    destruct (String.eqb_spec (_prefix c +:+ key) (_prefix c +:+ key')) as [Heq|_];
      [|done].
    by apply (inj (String.append (_prefix c))) in Heq.
Qed.

(** X21: [delete] of one key or more through an open client on the paged
    store: afterwards [get] finds none of the keys given and [exists]
    counts none of them, while every other key of the client reads as
    before; deleting keys that are missing is not an error.  (Without any
    key the server refuses the command.) *)
Theorem delete_then_absent (c : RedisCache) (conn : Redis) (keys : list string)
    (d : keyspace) :
  _redis c = Some conn ->
  keys <> [] ->
  exists d', KV.delete c keys d = Ret d' /\
    (forall k, k ∈ keys -> KV.get c k d' = Ret None) /\
    KV.exists_ c keys d' = Ret 0 /\
    (forall k, k ∉ keys -> KV.get c k d' = KV.get c k d).
Proof.
  intros Hopen _. exists (store_delete (String.append (_prefix c) <$> keys) d).2.
  unfold KV.delete, KV.get, KV.exists_, Config.redis. rewrite Hopen. cbn.
  assert (Hin : forall k, k ∈ keys ->
            store_get (_prefix c +:+ k)
              (store_delete (String.append (_prefix c) <$> keys) d).2 = None).
  { intros k Hk. rewrite store_get_delete, existsb_eqb_elem.
    rewrite bool_decide_eq_true_2; [done|]. by apply prefix_keys_elem. }
  repeat split.
  - intros k Hk. by rewrite Hin.
  - f_equal. apply store_exists_absent. intros k' Hk'.
    apply list_elem_of_fmap in Hk' as (k & -> & Hk). by apply Hin.
  - intros k Hk. rewrite store_get_delete, existsb_eqb_elem.
    rewrite bool_decide_eq_false_2; [done|]. by rewrite prefix_keys_elem.
Qed.

(** X22: [mset] of a mapping that is not empty through an open client on
    the paged store: every key of the mapping reads back with its value,
    and every other key of the client reads as before.  (With an empty
    mapping the server refuses the command.) *)
Theorem mset_then_get (c : RedisCache) (conn : Redis) (pairs : gmap string string)
    (d : keyspace) :
  _redis c = Some conn ->
  pairs <> ∅ ->
  exists d', KV.mset c pairs d = Ret d' /\
    forall k, KV.get c k d' =
      match pairs !! k with
      | Some v => Ret (Some v)
      | None => KV.get c k d
      end.
Proof.
  intros Hopen _. exists (store_mset (KV.prefixed (_prefix c) pairs) d).
  unfold KV.mset, KV.get, Config.redis. rewrite Hopen. cbn.
  split; [done|]. intros k. rewrite store_get_mset, prefixed_lookup.
  by destruct (pairs !! k).
Qed.

End RoundTrips.

(** ** Flagging a channel and waiting for its listener *)

Section RoundTrip.
Import Listener Client.

Lemma finish_iteration_flagged (tick : Q) (exit : gset string) (l : Listener) :
  l_key l ∈ exit -> l_flush l = true -> l_must_cancel l = false ->
  cb_kind (l_callback l) <> NotAFunction ->
  (l_pc l = MainPoll \/ exists m, l_pc l = MainCallback m) ->
  (forall m, m ∈ outstanding l -> cb_outcome (l_callback l) m = None) ->
  exists (k : nat) (l1 : Listener),
    (k + 2 * length (finish_iteration tick l).2 <= 2 * length (l_channel l) + 1)%nat /\
    Listener.run tick (replicate k Resume) (l, exit) = (l1, exit ∖ {[l_key l]}) /\
    l_pc l1 = FlushPoll /\ l_flush l1 = true /\ l_must_cancel l1 = false /\
    l_callback l1 = l_callback l /\ l_key l1 = l_key l /\
    l_channel l1 = (finish_iteration tick l).2 /\
    l_trace l1 = l_trace l ++ (finish_iteration tick l).1 ++ [EvExit] /\
    outstanding l = completed (finish_iteration tick l).1 ++ (finish_iteration tick l).2.
Proof.
  intros Hkey Hfl Hmc Hk Hpc Hout.
  destruct l as [key ch [kind out canc] flush p mc tr]. cbn in Hkey, Hfl, Hmc, Hk, Hpc, Hout.
  subst.
  destruct Hpc as [->|[m ->]]; [destruct ch as [|m ch]|]; destruct kind; try done.
  all: try (assert (Hm : out m = None) by (apply Hout; left)).
  3: exists 2%nat.
  all: try exists 1%nat.
  all: cbn [replicate Listener.run fold_left Listener.step fst snd].
  all: unfold resume, main_message, flush_message, main_after,
    flush_after, checkpoint, flush_loop, get_message, invoke, callback_done; cbn.
  all: rewrite ?Hm; cbn.
  all: rewrite ?bool_decide_eq_true_2 by done; cbn.
  all: eexists; (split; [lia|]); (split; [reflexivity|]); cbn.
  all: rewrite <- ?app_assoc; cbn [app].
  all: by repeat split.
Qed.

(** A flagged listener left to run returns: what the consume loop and the
    drain loop do to a listener whose key is in the exit set. *)
Lemma flagged_listener_returns (tick : Q) (exit : gset string) (l : Listener) (n : nat) :
  l_key l ∈ exit -> l_flush l = true -> l_must_cancel l = false ->
  cb_kind (l_callback l) <> NotAFunction ->
  (l_pc l = MainPoll \/ exists m, l_pc l = MainCallback m) ->
  (forall m, m ∈ outstanding l -> cb_outcome (l_callback l) m = None) ->
  (2 * length (l_channel l) + 2 <= n)%nat ->
  exists l', Listener.run tick (replicate n Resume) (l, exit) = (l', exit ∖ {[l_key l]}) /\
    l_pc l' = Done Returned /\ l_channel l' = [] /\
    completed (l_trace l') = completed (l_trace l) ++ outstanding l.
Proof.
  intros Hkey Hfl Hmc Hk Hpc Hout Hn.
  destruct (finish_iteration_flagged tick exit l Hkey Hfl Hmc Hk Hpc Hout)
    as (k & l1 & Hlen & Hrun & Hpc1 & Hfl1 & Hmc1 & Hcb1 & Hkey1 & Hch1 & Htr1 & Hsplit).
  assert (Hout1 : forall m, m ∈ l_channel l1 -> cb_outcome (l_callback l1) m = None).
  { intros m Hm. rewrite Hcb1. apply Hout. rewrite Hsplit. apply elem_of_app. right.
    by rewrite <- Hch1. }
  destruct (drain_loop tick (l_channel l1) (n - k) (exit ∖ {[l_key l]}) l1)
    as (l' & Hrun' & Hpc' & Hch' & _ & Htr'); try done.
  { by rewrite Hcb1. }
  { rewrite Hch1. lia. }
  exists l'. replace n with (k + (n - k))%nat by lia.
  rewrite replicate_add, run_app, Hrun, Hrun'. repeat split; try done.
  rewrite Htr', Htr1, Hsplit, !completed_app.
  destruct (deliveries_read 0 (l_channel l1)) as (_ & -> & _).
  rewrite Hch1.
  change (completed [EvExit]) with (@nil Message).
  change (completed [EvGetMessage 0 None]) with (@nil Message).
  by rewrite !app_nil_r, <- app_assoc.
Qed.

Lemma set_tasks_same (w : World) (t : Task) (l : Listener) :
  tasks w !! t = Some l ->
  set_self (set_subscribes_exit (_subscribes_exit (self w)) (self w))
    (set_tasks (<[t := l]> (tasks w)) w) = w.
Proof.
  intros Hl. destruct w as [[] ts cs n rs]. cbn in *.
  unfold set_self, set_tasks, set_subscribes_exit. cbn. f_equal.
  by apply list_insert_id.
Qed.

Lemma run_tasks_as_listener (n : nat) (w : World) (t : Task) (l : Listener) :
  tasks w !! t = Some l ->
  Client.run (replicate n (Run t)) w =
  let st := Listener.run (_subscribes_tick (self w)) (replicate n Resume)
              (l, _subscribes_exit (self w)) in
  set_self (set_subscribes_exit st.2 (self w)) (set_tasks (<[t := st.1]> (tasks w)) w).
Proof.
  revert w l. induction n as [|n IH]; intros w l Hl.
  - cbn. by rewrite set_tasks_same.
  - cbn [replicate Client.run Listener.run fold_left Client.step Listener.step fst snd].
    unfold run_task. rewrite Hl.
    destruct (resume (_subscribes_tick (self w)) (_subscribes_exit (self w)) l)
      as [l1 exit1] eqn:Hr.
    unfold Client.run in IH.
    rewrite (IH _ l1)
      by (cbn; apply list_lookup_insert_eq; by eapply lookup_lt_Some).
    cbn. unfold Listener.run.
    destruct (fold_left _ _ (l1, exit1)) as [l' exit']. cbn.
    unfold set_self, set_tasks, set_subscribes_exit. cbn.
    by rewrite list_insert_insert_eq.
Qed.

(** X26: Flagging a channel and waiting for it: on a registered channel whose
    listener is in its consume loop, with a callback that returns on the
    outstanding messages, [exit_flag_subscribe] followed by
    [wait_subscribe] returns normally once the listener has been resumed
    often enough: the listener has handed every outstanding message to the
    callback and has returned, the flag has been consumed, and the channel
    is still registered, bound to the finished task. *)
Theorem exit_flag_then_wait_returns (w : World) (channel : string) (t : Task)
    (l : Listener) (n : nat) :
  _subscribes (self w) !! channel = Some t ->
  tasks w !! t = Some l ->
  l_key l = channel -> l_flush l = true -> l_must_cancel l = false ->
  cb_kind (l_callback l) <> NotAFunction ->
  (l_pc l = MainPoll \/ exists m, l_pc l = MainCallback m) ->
  (forall m, m ∈ outstanding l -> cb_outcome (l_callback l) m = None) ->
  (2 * length (l_channel l) + 2 <= n)%nat ->
  let i := length (callers w) in
  let w' := Client.run ([Call (CallExitFlagSubscribe channel);
                         Start (WaitSubscribe channel)]
                        ++ replicate n (Run t) ++ [Wake i]) w in
  callers w' !! i = Some (Finished (Ret tt)) /\
  (exists l', tasks w' !! t = Some l' /\ done l' = true /\ l_channel l' = [] /\
     completed (l_trace l') = completed (l_trace l) ++ outstanding l) /\
  get_subscribe_task channel w' = (Ret t, w') /\
  (channel ∉ _subscribes_exit (self w')).
Proof.
  intros Hreg Hl Hkey Hfl Hmc Hk Hpc Hout Hn i w'. subst i w'.
  unfold Client.run. rewrite !fold_left_app.
  cbn [fold_left Client.step do_call start].
  unfold wait_subscribe_begin. cbn [exit_flag_subscribe self set_self
    _subscribes set_subscribes_exit].
  rewrite Hreg.
  assert (Hwait : wait_result (exit_flag_subscribe channel w) t = InWaitSubscribe t).
  { unfold wait_result, task_result. cbn. rewrite Hl.
    by destruct Hpc as [->|[m ->]]. }
  rewrite Hwait.
  set (w2 := set_callers _ _).
  assert (Hl2 : tasks w2 !! t = Some l) by done.
  pose proof (run_tasks_as_listener n w2 t l Hl2) as Hrun. unfold Client.run in Hrun.
  rewrite Hrun. clear Hrun. cbn [w2 self set_callers exit_flag_subscribe set_self
    _subscribes_exit set_subscribes_exit _subscribes_tick tasks callers].
  destruct (flagged_listener_returns (_subscribes_tick (self w))
              (_subscribes_exit (self w) ∪ {[channel]}) l n)
    as (l' & Hlrun & Hpc' & Hch' & Hdone); try done.
  { rewrite Hkey. set_solver. }
  cbn zeta. rewrite Hlrun. cbn [fst snd].
  assert (Hc2 : callers w2 !! length (callers w) = Some (InWaitSubscribe t)).
  { subst w2. cbn. rewrite lookup_app_r by done. by rewrite Nat.sub_diag. }
  assert (Hlt : (t < length (tasks w))%nat) by (by eapply lookup_lt_Some).
  unfold resume_caller. cbn [callers set_self set_tasks set_callers].
  rewrite Hc2. cbn [wake].
  unfold wait_result, task_result, get_subscribe_task. cbn.
  rewrite !(list_lookup_insert_eq (tasks w)) by done. rewrite Hpc', Hreg. cbn.
  rewrite ?(list_lookup_insert_eq (tasks w)) by done.
  repeat split.
  - apply list_lookup_insert_eq. rewrite length_app. cbn. lia.
  - exists l'. unfold done. by rewrite Hpc'.
  - rewrite Hkey. set_solver.
Qed.

End RoundTrip.

(** ** The tests of the store operations, and [clear] over any driver *)

Section TestFacts.
Import PagedStore TestSuite.

#[local] Arguments store_get : simpl never.
#[local] Arguments store_set : simpl never.
#[local] Arguments store_mset : simpl never.
#[local] Arguments store_append : simpl never.
#[local] Arguments store_delete : simpl never.
#[local] Arguments store_exists : simpl never.
#[local] Arguments String.append : simpl never.
#[local] Arguments KV.prefixed : simpl never.

Lemma eqb_prefix (p a b : string) : String.eqb (p +:+ a) (p +:+ b) = String.eqb a b.
Proof.
  destruct (String.eqb_spec a b) as [->|Hne].
  - apply String.eqb_refl.
  - apply String.eqb_neq. intros Heq. by apply (inj (String.append p)) in Heq.
Qed.

Lemma store_exists_cons (k : string) (ks : list string) (d : keyspace) :
  store_exists (k :: ks) d =
  (if store_get k d is Some _ then 1 else 0) + store_exists ks d.
Proof.
  unfold store_exists. cbn [List.filter]. rewrite present_get.
  destruct (store_get k d); cbn [length]; lia.
Qed.

Lemma store_exists_nil (d : keyspace) : store_exists [] d = 0.
Proof. done. Qed.

Lemma store_get_set (k k' v : string) (d : keyspace) :
  store_get k' (store_set k v d) = if String.eqb k k' then Some v else store_get k' d.
Proof. apply store_get_put. Qed.

Ltac run_test :=
  repeat first
    [ rewrite store_exists_cons
    | rewrite store_exists_nil
    | rewrite store_get_set
    | rewrite store_get_append
    | rewrite store_get_delete
    | rewrite store_get_mset
    | rewrite prefixed_lookup
    | rewrite eqb_prefix
    | progress cbn [existsb orb] ].

(** The client that [setUp] builds and [asyncSetUp] opens is the opened
    test client of the scenarios. *)
Example test_client :
  asyncSetUp Scenario.connect setUp = Ret (Scenario.opened Scenario.tester).
Proof. reflexivity. Qed.

(** X27: The tests on missing keys: for every open client and every keyspace
    of the paged store, [test_not_exists_delete] and [test_not_exists_get]
    pass exactly when their keys are missing at the start, and then leave
    the keyspace reading as before. *)
Theorem missing_key_tests (cs : RedisCache) (conn : Redis) (d : keyspace) :
  _redis cs = Some conn ->
  let absent := fun key => store_get (_prefix cs +:+ key) d = None in
  (absent "__test_not_exists_delete__key1__" ->
   absent "__test_not_exists_delete__key2__" ->
   exists d', test_not_exists_delete cs d = (Ret tt, d') /\
     forall k, store_get k d' = store_get k d) /\
  (~ (absent "__test_not_exists_delete__key1__" /\
      absent "__test_not_exists_delete__key2__") ->
   test_not_exists_delete cs d = (Raise AssertionError, d)) /\
  test_not_exists_get cs d =
    (if store_get (_prefix cs +:+ "__test_not_exists_get__key1__") d is None
     then Ret tt else Raise AssertionError, d).
Proof.
  intros Hopen absent. subst absent. cbn beta.
  unfold test_not_exists_delete, test_not_exists_get.
  unfold mbind, test_bind, query, update, assertFalse, assertIsNone,
    KV.exists_, KV.get, KV.delete, Config.redis.
  rewrite Hopen. cbn. split; [|split].
  - intros H1 H2. run_test. rewrite H1, H2. cbn. run_test. cbn. eexists. split; [reflexivity|].
    intros k. run_test.
    destruct (String.eqb_spec k (_prefix cs +:+ "__test_not_exists_delete__key1__"))
      as [->|_]; [done|].
    destruct (String.eqb_spec k (_prefix cs +:+ "__test_not_exists_delete__key2__"))
      as [->|_]; done.
  - intros Hnot. run_test.
    destruct (store_get (_prefix cs +:+ "__test_not_exists_delete__key1__") d)
      eqn:H1; cbn; [done|].
    destruct (store_get (_prefix cs +:+ "__test_not_exists_delete__key2__") d)
      eqn:H2; cbn; [done|].
    by destruct Hnot.
  - run_test. by destruct (store_get _ d).
Qed.

(** X28: The tests of [append]: for every open client and every keyspace of
    the paged store, [test_set_get_append] and [test_append_get] pass when
    their key is missing at the start, and fail at their first assertion
    when it is there; in both cases the key is missing afterwards and every
    other key reads as before. *)
Theorem append_tests (cs : RedisCache) (conn : Redis) (d : keyspace) :
  _redis cs = Some conn ->
  (exists d',
     test_set_get_append cs d =
       (if store_get (_prefix cs +:+ "__test_set_get_append__key__") d is None
        then Ret tt else Raise AssertionError, d') /\
     forall k, store_get k d' =
       if String.eqb k (_prefix cs +:+ "__test_set_get_append__key__")
       then None else store_get k d) /\
  (exists d',
     test_append_get cs d =
       (if store_get (_prefix cs +:+ "__test_append_get__key__") d is None
        then Ret tt else Raise AssertionError, d') /\
     forall k, store_get k d' =
       if String.eqb k (_prefix cs +:+ "__test_append_get__key__")
       then None else store_get k d).
Proof.
  intros Hopen. split.
  all: unfold test_set_get_append, test_append_get, try_finally.
  all: unfold mbind, test_bind, query, update, assertFalse, assertTrue, assertEqual,
         KV.exists_, KV.get, KV.set, KV.append, KV.delete, Config.redis.
  all: rewrite Hopen; cbn.
  all: run_test.
  all: destruct (store_get (_prefix cs +:+ _) d) as [v|] eqn:Hd; cbn.
  all: run_test; rewrite ?String.eqb_refl, ?Hd; cbn.
  all: run_test; rewrite ?String.eqb_refl, ?Hd; cbn.
  all: eexists; (split; [reflexivity|]).
  all: intros k; run_test.
  all: rewrite ?orb_false_r, ?(String.eqb_sym (_prefix cs +:+ _) k).
  all: by destruct (String.eqb k _).
Qed.

Lemma mset_test_pairs (p k : string) :
  KV.prefixed p {[ "__test_mset_and_exists__key1__" := "val1";
                   "__test_mset_and_exists__key2__" := "val2" ]} !! k =
  if String.eqb k (p +:+ "__test_mset_and_exists__key1__") then Some "val1"
  else if String.eqb k (p +:+ "__test_mset_and_exists__key2__") then Some "val2"
  else None.
Proof.
  destruct (String.eqb_spec k (p +:+ "__test_mset_and_exists__key1__")) as [->|H1].
  - rewrite prefixed_lookup. by rewrite lookup_insert_eq.
  - destruct (String.eqb_spec k (p +:+ "__test_mset_and_exists__key2__")) as [->|H2].
    + rewrite prefixed_lookup. rewrite lookup_insert_ne by done.
      by apply lookup_singleton_Some.
    + destruct (KV.prefixed p _ !! k) as [v|] eqn:Hk; [|done].
      apply prefixed_lookup_Some in Hk as (k0 & -> & Hk0).
      apply lookup_insert_Some in Hk0 as [[<- _]|[_ Hk0]]; [done|].
      by apply lookup_singleton_Some in Hk0 as [<- _].
Qed.

(** X29: [test_mset_and_exists]: for every open client and every keyspace of
    the paged store the test passes when its two keys are missing at the
    start, and fails at one of its first two assertions otherwise; in both
    cases the two keys are missing afterwards and every other key reads as
    before. *)
Theorem mset_test (cs : RedisCache) (conn : Redis) (d : keyspace) :
  _redis cs = Some conn ->
  let key1 := _prefix cs +:+ "__test_mset_and_exists__key1__" in
  let key2 := _prefix cs +:+ "__test_mset_and_exists__key2__" in
  exists d',
    test_mset_and_exists cs d =
      (match store_get key1 d, store_get key2 d with
       | None, None => Ret tt
       | _, _ => Raise AssertionError
       end, d') /\
    forall k, store_get k d' =
      if String.eqb k key1 || String.eqb k key2 then None else store_get k d.
Proof.
  intros Hopen key1 key2. subst key1 key2.
  unfold test_mset_and_exists, try_finally.
  unfold mbind, test_bind, query, update, assertFalse, assertTrue, assertEqual,
    KV.exists_, KV.get, KV.mset, KV.delete, Config.redis.
  rewrite Hopen. cbn.
  repeat first [ rewrite store_exists_cons | rewrite store_exists_nil
               | rewrite store_get_delete | rewrite store_get_mset
               | rewrite mset_test_pairs | rewrite eqb_prefix
               | progress cbn [existsb orb] ].
  destruct (store_get (_prefix cs +:+ "__test_mset_and_exists__key1__") d)
    as [v1|] eqn:H1; cbn.
  2: destruct (store_get (_prefix cs +:+ "__test_mset_and_exists__key2__") d)
       as [v2|] eqn:H2; cbn.
  all: repeat first [ rewrite store_exists_cons | rewrite store_exists_nil
               | rewrite store_get_delete | rewrite store_get_mset
               | rewrite mset_test_pairs | rewrite eqb_prefix
               | rewrite String.eqb_refl
               | progress cbn ].
  all: eexists; (split; [reflexivity|]).
  all: intros k.
  all: repeat first [ rewrite store_get_delete | rewrite store_get_mset
                    | rewrite mset_test_pairs | progress cbn [existsb orb] ].
  all: rewrite ?orb_false_r.
  all: destruct (String.eqb k (_prefix cs +:+ "__test_mset_and_exists__key1__"));
         cbn; try done.
  all: by destruct (String.eqb k (_prefix cs +:+ "__test_mset_and_exists__key2__")).
Qed.

End TestFacts.


(** ** Listeners, subscriptions and stores at concrete inputs *)

Lemma cancel_ends_listener_at_next_resume_witness :
  let st := Listener.run 1
              [Listener.Cancel; Listener.Arrive (Scenario.msg "d"); Listener.Resume]
              (Scenario.busy, ∅) in
  Listener.l_pc st.1 = Listener.Done Listener.Cancelled /\
  Listener.l_trace st.1 = [].
Proof.
  destruct (cancel_ends_listener_at_next_resume 1 ∅ Scenario.busy
              [Listener.Arrive (Scenario.msg "d")]) as (_ & _ & Hend & _).
  - reflexivity.
  - reflexivity.
  - destruct (Hend eq_refl) as (Hpc & Htr & _).
    split; [exact Hpc | exact Htr].
Defined.

Lemma callback_exception_ends_listener_witness :
  let l := Listener.set_channel [Scenario.msg "a"; Scenario.msg "b"]
             (Listener.spawn "channel:1" Scenario.raiser true) in
  let st := Listener.run 1 [Listener.Resume; Listener.Resume] (l, {["channel:1"]}) in
  Listener.l_pc st.1 = Listener.Done (Listener.Failed (OtherError "boom")) /\
  Listener.l_channel st.1 = [Scenario.msg "b"] /\
  st.2 = {["channel:1"]}.
Proof.
  destruct (callback_exception_ends_listener 1 {["channel:1"]}
              (Listener.set_channel [Scenario.msg "a"; Scenario.msg "b"]
                 (Listener.spawn "channel:1" Scenario.raiser true))
              (Scenario.msg "a") [Scenario.msg "b"] (OtherError "boom"))
    as (Hpc & Hch & Hexit & _).
  - reflexivity.
  - discriminate.
  - reflexivity.
  - reflexivity.
  - left. reflexivity.
  - split; [exact Hpc|]. split; [exact Hch | exact Hexit].
Defined.

Lemma exit_without_flush_leaves_unread_witness :
  let st := Listener.run 1 [Listener.Resume; Listener.Resume]
              (Scenario.unflushed, {["channel:1"]}) in
  Listener.l_pc st.1 = Listener.Done Listener.Returned /\
  Listener.l_channel st.1 = [Scenario.msg "b"].
Proof.
  destruct (exit_without_flush_leaves_unread 1 {["channel:1"]} Scenario.unflushed)
    as (Hpc & _ & Hch & _).
  - apply elem_of_singleton. reflexivity.
  - reflexivity.
  - reflexivity.
  - discriminate.
  - left. reflexivity.
  - intros m _. reflexivity.
  - split; [exact Hpc | exact Hch].
Defined.

Lemma resubscribe_orphans_first_task_witness :
  let w' := Client.step Scenario.resubscribing (Client.Wake 1) in
  _subscribes (Client.self w') !! "channel:1" = Some 1%nat /\
  Client.tasks w' !! 0%nat = Client.tasks Scenario.resubscribing !! 0%nat.
Proof.
  destruct (resubscribe_orphans_first_task Scenario.resubscribing 1 "channel:1"
              Scenario.reader 0) as (Hnew & _ & _ & Hold & _).
  - vm_compute. reflexivity.
  - vm_compute. reflexivity.
  - apply (run_valid [Client.Start (Client.Subscribe "channel:1" Scenario.reader)]).
    apply (reachable_valid
             [Client.Call (Client.CallOpen Scenario.connect);
              Client.Start (Client.Subscribe "channel:1" Scenario.reader);
              Client.Wake 0%nat]).
  - intros k Hne.
    assert (Hreg : _subscribes (Client.self Scenario.resubscribing)
                   = {["channel:1" := 0%nat]}) by (vm_compute; reflexivity).
    rewrite Hreg. rewrite lookup_singleton_ne; [discriminate|].
    intros Heq. apply Hne. symmetry. exact Heq.
  - split; [exact Hnew | exact Hold].
Defined.

Lemma stale_exit_flag_stops_new_listener_witness :
  let w := Client.init (Scenario.opened Scenario.tester) in
  let w2 := Client.run
              [Client.Call (Client.CallExitFlagSubscribe "channel:1");
               Client.Start (Client.Subscribe "channel:1" Scenario.reader);
               Client.Wake 0%nat; Client.Run 0%nat; Client.Run 0%nat] w in
  Client.task_result w2 0%nat = Some (Ret tt).
Proof.
  destruct (stale_exit_flag_stops_new_listener
              (Client.init (Scenario.opened Scenario.tester)) Scenario.conn
              "channel:1" Scenario.reader) as (_ & _ & _ & _ & _ & Hret).
  - reflexivity.
  - exact Hret.
Defined.

Lemma cancel_subscribe_task_cancels_witness :
  let r := Client.cancel_subscribe_task "channel:1" (Scenario.subscribed Scenario.reader) in
  r.1 = Ret true /\
  Client.task_result (Client.step r.2 (Client.Run 0)) 0%nat = Some (Raise CancelledError).
Proof.
  destruct (cancel_subscribe_task_cancels (Scenario.subscribed Scenario.reader)
              "channel:1" 0 (Listener.spawn "channel:1" Scenario.reader true))
    as (Hret & _ & _ & _ & _ & Hrun & _).
  - vm_compute. reflexivity.
  - vm_compute. reflexivity.
  - split; [exact Hret|]. destruct (Hrun eq_refl eq_refl) as [Hres _]. exact Hres.
Defined.

Lemma subscribe_during_close_survives_witness :
  let w' := Client.run [Client.Wake 0%nat; Client.Wake 1%nat] Scenario.closing in
  Config.is_open (Client.self w') = false /\
  _subscribes (Client.self w') !! "channel:1" = Some 0%nat /\
  Client.task_result w' 0%nat = None.
Proof.
  destruct (subscribe_during_close_survives Scenario.closing 1 0 "channel:1"
              Scenario.reader) as (Hclosed & Hreg & Hpending & _).
  - vm_compute. reflexivity.
  - vm_compute. reflexivity.
  - split; [exact Hclosed|]. split; [exact Hreg | exact Hpending].
Defined.


Lemma close_subscribes_without_subscriptions_witness :
  (Client.close_subscribes_begin (Client.init (Scenario.opened Scenario.tester))).2
    = Client.Ended (Ret tt).
Proof.
  destruct (close_subscribes_without_subscriptions
              (Client.init (Scenario.opened Scenario.tester))) as [Hbegin _].
  - reflexivity.
  - rewrite Hbegin. reflexivity.
Defined.

Lemma closed_client_operations_raise_witness :
  KV.get Scenario.tester "k" ([] : PagedStore.keyspace) = Raise AssertionError.
Proof.
  destruct (closed_client_operations_raise (db := PagedStore.keyspace)
              Scenario.tester [] eq_refl) as (_ & _ & Hget & _).
  exact (Hget "k").
Defined.

Lemma set_then_get_witness :
  (d' ← KV.set (Scenario.opened Scenario.tester) "k" "v" Scenario.stored;
   KV.get (Scenario.opened Scenario.tester) "k" d') = Ret (Some "v").
Proof.
  exact (set_then_get (Scenario.opened Scenario.tester) (Scenario.opened Scenario.tester)
           Scenario.conn "k" "k" "v" Scenario.stored eq_refl eq_refl).
Defined.

Lemma append_then_get_witness :
  exists d', KV.append (Scenario.opened Scenario.tester) "k" "bb" Scenario.stored = Ret d' /\
    KV.get (Scenario.opened Scenario.tester) "k" d' = Ret (Some "aabb").
Proof.
  destruct (append_then_get (Scenario.opened Scenario.tester) Scenario.conn "k" "bb"
              Scenario.stored eq_refl) as (d' & Happ & Hget & _).
  exists d'. split; [exact Happ | exact Hget].
Defined.

Lemma delete_then_absent_witness :
  exists d', KV.delete (Scenario.opened Scenario.tester) ["k"; "missing"] Scenario.stored
               = Ret d' /\
    KV.exists_ (Scenario.opened Scenario.tester) ["k"; "missing"] d' = Ret 0.
Proof.
  destruct (delete_then_absent (Scenario.opened Scenario.tester) Scenario.conn
              ["k"; "missing"] Scenario.stored eq_refl) as (d' & Hdel & _ & Hex & _).
  - discriminate.
  - exists d'. split; [exact Hdel | exact Hex].
Defined.

Lemma mset_then_get_witness :
  exists d', KV.mset (Scenario.opened Scenario.tester) {[ "k" := "v1" ]} Scenario.stored
               = Ret d' /\
    KV.get (Scenario.opened Scenario.tester) "k" d' = Ret (Some "v1").
Proof.
  destruct (mset_then_get (Scenario.opened Scenario.tester) Scenario.conn
              {[ "k" := "v1" ]} Scenario.stored eq_refl) as (d' & Hmset & Hget).
  - apply map_non_empty_singleton.
  - exists d'. split; [exact Hmset|]. exact (Hget "k").
Defined.

Lemma clear_small_keyspace_witness :
  KV.clear 2 Scenario.ns_client Scenario.small = Some (Ret [Scenario.plain_slot "other" "2"]).
Proof.
  apply (clear_small_keyspace Scenario.ns_client Scenario.conn Scenario.small 0).
  - reflexivity.
  - reflexivity.
  - apply Nat.leb_le. vm_compute. reflexivity.
Defined.

Lemma clear_returns_witness :
  exists d' : PagedStore.keyspace,
    KV.clear 3 Scenario.wild_client Scenario.mixed = Some (Ret d') /\
    (SCAN 0 "n?:*" CLEAR_SCAN_STEP d').2 = [].
Proof.
  destruct (clear_returns Scenario.wild_client Scenario.conn Scenario.mixed 3)
    as (d' & Hrun & Hscan & _).
  - reflexivity.
  - apply Nat.ltb_lt. vm_compute. reflexivity.
  - exists d'. split; [exact Hrun | exact Hscan].
Defined.

Lemma reachable_tasks_single_flight_witness :
  match Client.tasks Scenario.failed !! 0%nat with
  | Some l => Listener.single_flight (Listener.l_trace l) = true
  | None => True
  end.
Proof.
  destruct (Client.tasks Scenario.failed !! 0%nat) as [l|] eqn:Hl; [|exact I].
  exact (proj1 (reachable_tasks_single_flight
                  [Client.Call (Client.CallOpen Scenario.connect);
                   Client.Start (Client.Subscribe "channel:1" Scenario.bound_method);
                   Client.Wake 0%nat;
                   Client.Arrive 0%nat (Scenario.msg "a"); Client.Run 0%nat]
                  "localhost" 6379 (Some "") (Some "tester:") ∅ 0 l Hl)).
Defined.

Lemma exit_flag_then_wait_returns_witness :
  let w' := Client.run
              ([Client.Call (Client.CallExitFlagSubscribe "channel:1");
                Client.Start (Client.WaitSubscribe "channel:1")]
               ++ replicate 4 (Client.Run 0%nat) ++ [Client.Wake 1%nat])
              Scenario.published in
  Client.callers w' !! 1%nat = Some (Client.Finished (Ret tt)) /\
  Client.get_subscribe_task "channel:1" w' = (Ret 0%nat, w').
Proof.
  destruct (exit_flag_then_wait_returns Scenario.published "channel:1" 0
              (Listener.arrive (Scenario.msg "value")
                 (Listener.spawn "channel:1" Scenario.reader true)) 4)
    as (Hret & _ & Hget & _).
  - vm_compute. reflexivity.
  - vm_compute. reflexivity.
  - reflexivity.
  - reflexivity.
  - reflexivity.
  - discriminate.
  - left. reflexivity.
  - intros m _. reflexivity.
  - apply Nat.leb_le. reflexivity.
  - split; [exact Hret | exact Hget].
Defined.

Lemma missing_key_tests_witness :
  TestSuite.test_not_exists_get (Scenario.opened Scenario.tester)
    ([] : PagedStore.keyspace) = (Ret tt, []).
Proof.
  destruct (missing_key_tests (Scenario.opened Scenario.tester) Scenario.conn []
              eq_refl) as (_ & _ & Hget).
  exact Hget.
Defined.

Lemma append_tests_witness :
  exists d' : PagedStore.keyspace,
    TestSuite.test_set_get_append (Scenario.opened Scenario.tester) [] = (Ret tt, d').
Proof.
  destruct (append_tests (Scenario.opened Scenario.tester) Scenario.conn []
              eq_refl) as [(d' & Hrun & _) _].
  exists d'. exact Hrun.
Defined.

Lemma mset_test_witness :
  exists d' : PagedStore.keyspace,
    TestSuite.test_mset_and_exists (Scenario.opened Scenario.tester) [] = (Ret tt, d').
Proof.
  destruct (mset_test (Scenario.opened Scenario.tester) Scenario.conn []
              eq_refl) as (d' & Hrun & _).
  exists d'. exact Hrun.
Defined.
